(** * avhttp cookie jar: a shallow embedding of include/avhttp/cookie.hpp

    The development follows the header top to bottom: the record
    [cookie_t], the container [cookies] with its lookup and mutation
    members, the Netscape cookie-file writer and reader, the Set-Cookie
    tokenizer, and the merge operator.  Library algorithms the header
    calls (std::remove_if, boost::trim, boost::split, atol, ...) are
    written out next to their call sites. *)

From Stdlib Require Import ZArith Ascii String List Bool Lia ZifyNat.
From Stdlib Require Import Sorting.Sorted Sorting.Permutation.
From stdpp Require Import base list strings.

Local Open Scope string_scope.
Local Open Scope Z_scope.

(** ** Time stamps *)

(** Modelled from the spec: boost::posix_time::ptime is declared outside
    this repository.  The spec describes [expires] as an optional
    timestamp whose absent value (not_a_date_time, "never expires")
    orders as the largest value; a present value is a count of
    microsecond ticks since the Unix epoch. *)
Inductive ptime : Type :=
  | not_a_date_time
  | time_at (ticks : Z).

Definition is_not_a_date_time (t : ptime) : bool :=
  match t with not_a_date_time => true | time_at _ => false end.

(** [lhs < rhs] on time stamps. *)
Definition ptime_lt (lhs rhs : ptime) : bool :=
  match lhs, rhs with
  | time_at x, time_at y => x <? y
  | time_at _, not_a_date_time => true
  | not_a_date_time, _ => false
  end.

(** [lhs <= rhs], which boost derives as [!(rhs < lhs)]. *)
Definition ptime_le (lhs rhs : ptime) : bool := negb (ptime_lt rhs lhs).

(** std::greater<ptime>. *)
Definition ptime_greater (lhs rhs : ptime) : bool := ptime_lt rhs lhs.

(** Ticks per second of the time stamp representation. *)
Definition ticks_per_second : Z := 1000000.

(** Modelled from the spec: detail::ptime_to_time_t lives in
    avhttp/detail/parsers.hpp, which is not part of the sources at hand;
    the spec gives "the absolute Unix timestamp" in whole seconds.  The
    header calls it on proper time stamps only. *)
Definition ptime_to_time_t (t : ptime) : Z :=
  match t with
  | not_a_date_time => 0
  | time_at ticks => ticks / ticks_per_second
  end.

(** boost's calendar covers the years 1400 to 9999: counted in seconds
    since the epoch, from 1400-01-01 00:00:00 to 9999-12-31 23:59:59. *)
Definition MIN_DATE_TIME : Z := - 17987443200.
Definition MAX_DATE_TIME : Z := 253402300799.

Definition within_dates (t : Z) : bool :=
  (MIN_DATE_TIME <=? t) && (t <=? MAX_DATE_TIME).

(** boost::posix_time::from_time_t: the epoch plus [t] seconds.  Boost
    counts the ticks in a 64-bit integer; the product below is the value
    it holds for the seconds [within_dates] admits.  [decode_line], the
    only caller, does not follow the library outside of them. *)
Definition from_time_t (t : Z) : ptime := time_at (t * ticks_per_second).

(** ** The cookie record (struct cookie_t, lines 62-113) *)

Record cookie_t : Type := mk_cookie {
  name : string;
  value : string;
  domain : string;
  path : string;
  expires : ptime;
  httponly : bool;
  secure : bool
}.

Abbreviation http_cookie := cookie_t.

(** The default constructor: empty strings, a default-constructed ptime
    (not_a_date_time), both flags false. *)
Definition cookie_default : http_cookie :=
  {| name := ""; value := ""; domain := ""; path := "";
     expires := not_a_date_time; httponly := false; secure := false |}.

(** std::string::empty. *)
Definition empty (s : string) : bool :=
  match s with EmptyString => true | String _ _ => false end.

(** compare_by_expires_t<Compare>::operator() (lines 97-100). *)
Definition compare_by_expires (m_comp : ptime -> ptime -> bool)
    (lhs rhs : cookie_t) : bool :=
  m_comp (expires lhs) (expires rhs).

(** ** The container (class cookies) *)

Record cookies : Type := mk_cookies {
  m_cookies : list http_cookie;
  m_default_domain : string
}.

(** The default constructor. *)
Definition cookies_new : cookies :=
  {| m_cookies := []; m_default_domain := "" |}.

Definition push_back (val : http_cookie) (c : cookies) : cookies :=
  {| m_cookies := m_cookies c ++ [val];
     m_default_domain := m_default_domain c |}.

Definition size (c : cookies) : nat := length (m_cookies c).

Definition clear (c : cookies) : cookies :=
  {| m_cookies := []; m_default_domain := m_default_domain c |}.

Definition set_default_domain (d : string) (c : cookies) : cookies :=
  {| m_cookies := m_cookies c; m_default_domain := d |}.

(** operator()(name, value), lines 272-279. *)
Definition insert_name_value (n v : string) (c : cookies) : cookies :=
  let tmp := {| name := n; value := v; domain := ""; path := "";
                expires := not_a_date_time;
                httponly := false; secure := false |} in
  push_back tmp c.

(** operator()(const http_cookie&), lines 283-287. *)
Definition insert_cookie (cookie : http_cookie) (c : cookies) : cookies :=
  push_back cookie c.

(** *** Lookup *)

(** find(const std::string& key), lines 360-385: the first record whose
    name equals [key]; [None] stands for end(). *)
Fixpoint find_name (key : string) (l : list http_cookie) : option http_cookie :=
  match l with
  | [] => None
  | i :: rest => if String.eqb (name i) key then Some i else find_name key rest
  end.

Definition same_key (i key : http_cookie) : bool :=
  String.eqb (name i) (name key) && String.eqb (domain i) (domain key)
    && String.eqb (path i) (path key).

(** find(const http_cookie& key), lines 388-413. *)
Fixpoint find_key (key : http_cookie) (l : list http_cookie) : option http_cookie :=
  match l with
  | [] => None
  | i :: rest => if same_key i key then Some i else find_key key rest
  end.

(** operator[], lines 346-357. *)
Fixpoint value_of (key : string) (l : list http_cookie) : string :=
  match l with
  | [] => ""
  | i :: rest =>
      if String.eqb (name i) key && negb (empty (value i)) then value i
      else value_of key rest
  end.

(** *** Removal by name (lines 416-436) *)

(** http_cookie_is_same_name::operator(). *)
Definition http_cookie_is_same_name (m_name : string) (cookie : http_cookie) : bool :=
  String.eqb (name cookie) m_name.

Section RemoveIf.
Context {A : Type}.
(** What an element holds after it has been the source of an
    assignment [*result = *first]: itself when the assignment copies,
    some valid but unspecified value when it moves. *)
Variable assigned_from : A -> A.
Variable pred : A -> bool.

(** std::find_if, as the index of the first match. *)
Fixpoint find_if (l : list A) : option nat :=
  match l with
  | [] => None
  | x :: rest => if pred x then Some 0%nat else S <$> find_if rest
  end.

(** The loop of std::remove_if: [first] walks the [cnt] remaining
    positions, [result] trails behind it and receives every element
    the predicate rejects.  The vector keeps its length throughout. *)
Fixpoint remove_if_loop (cnt first result : nat) (v : list A) : list A * nat :=
  match cnt with
  | O => (v, result)
  | S cnt' =>
      match v !! first with
      | None => (v, result)
      | Some x =>
          if pred x then remove_if_loop cnt' (S first) result v
          else remove_if_loop cnt' (S first) (S result)
                 (<[first := assigned_from x]> (<[result := x]> v))
      end
  end.

(** std::remove_if(begin, end, pred): the vector afterwards and the
    returned iterator (index of the new logical end). *)
Definition remove_if (v : list A) : list A * nat :=
  match find_if v with
  | None => (v, length v)
  | Some k => remove_if_loop (length v - S k) (S k) k v
  end.
End RemoveIf.

(** remove_cookie, lines 432-436.  The iterator std::remove_if returns is
    discarded and the vector is never erased. *)
Definition remove_cookie (assigned_from : http_cookie -> http_cookie)
    (n : string) (c : cookies) : cookies :=
  {| m_cookies :=
       fst (remove_if assigned_from (http_cookie_is_same_name n) (m_cookies c));
     m_default_domain := m_default_domain c |}.

(** ** The Netscape cookie file (lines 139-267) *)

Definition tab : ascii := "009"%char.
Definition newline : ascii := "010"%char.
Definition hash : ascii := "#"%char.
Definition dquote : ascii := "034"%char.

(** The comment block written at the head of an empty file. *)
Definition memo : string :=
  "# Netscape HTTP Cookie File" +:+ String newline
  ("# http://curl.haxx.se/docs/http-cookies.html" +:+ String newline
  ("# This file was generated by libcurl! Edit at your own risk."
     +:+ String newline (String newline ""))).

(** f.write(s, n): append the first [n] characters of [s] to the stream. *)
Definition f_write (f : string) (s : string) (n : nat) : string :=
  f +:+ substring 0 n s.

(** *** Printing and reading a time_t *)

Definition digit_char (d : Z) : ascii := ascii_of_N (48 + Z.to_N d).

(** Decimal digits of a non-negative number, most significant first,
    prepended to [acc]. *)
Fixpoint decimal_digits (fuel : nat) (n : Z) (acc : string) : string :=
  match fuel with
  | O => acc
  | S fuel' =>
      let acc' := String (digit_char (n mod 10)) acc in
      if n / 10 =? 0 then acc' else decimal_digits fuel' (n / 10) acc'
  end.

(** [oss << t] under the "C" locale. *)
Definition time_t_to_string (t : Z) : string :=
  let fuel := S (Z.to_nat (Z.log2 (Z.abs t))) in
  if t <? 0 then String "-" (decimal_digits fuel (- t) "")
  else decimal_digits fuel t "".

(** std::isspace in the classic locale. *)
Definition isspace (c : ascii) : bool :=
  let n := N_of_ascii c in
  (n =? 32)%N || ((9 <=? n)%N && (n <=? 13)%N).

Definition isdigit (c : ascii) : bool :=
  let n := N_of_ascii c in (48 <=? n)%N && (n <=? 57)%N.

Definition digit_value (c : ascii) : Z := Z.of_N (N_of_ascii c) - 48.

Fixpoint parse_digits (s : string) (acc : Z) : Z :=
  match s with
  | EmptyString => acc
  | String c s' =>
      if isdigit c then parse_digits s' (acc * 10 + digit_value c) else acc
  end.

Fixpoint skip_space (s : string) : string :=
  match s with
  | EmptyString => EmptyString
  | String c s' => if isspace c then skip_space s' else s
  end.

Definition LONG_MAX : Z := 9223372036854775807.
Definition LONG_MIN : Z := - 9223372036854775808.

(** atol: leading white space, an optional sign, then decimal digits up
    to the first other character; out-of-range values are clamped as
    strtol does on an LP64 platform. *)
Definition atol (s : string) : Z :=
  let v :=
    match skip_space s with
    | String "-" s' => - parse_digits s' 0
    | String "+" s' => parse_digits s' 0
    | s' => parse_digits s' 0
    end in
  Z.max LONG_MIN (Z.min LONG_MAX v).

(** *** save_to_file (lines 145-223) *)

(** One iteration of the loop of lines 171-222, on the stream [f]. *)
Definition save_cookie (default_domain : string) (f : string)
    (cookie : http_cookie) : string :=
  (* domain. *)
  let tmp := if empty (domain cookie) then default_domain else domain cookie in
  let f := f_write f tmp (String.length tmp) in
  let f := f_write f (String tab "") 1 in
  (* flag. *)
  let tmp := if empty (domain cookie) then "FALSE" else "TRUE" in
  let f := f_write f tmp (String.length tmp) in
  let f := f_write f (String tab "") 1 in
  (* path. *)
  let f := f_write f (path cookie) (String.length (path cookie)) in
  let f := f_write f (String tab "") 1 in
  (* secure. *)
  let tmp := if secure cookie then "TRUE" else "FALSE" in
  let f := f_write f tmp (String.length tmp) in
  let f := f_write f (String tab "") 1 in
  (* expires. *)
  let t := if negb (is_not_a_date_time (expires cookie))
           then ptime_to_time_t (expires cookie) else 0 in
  let tmp := time_t_to_string t in
  let f := f_write f tmp (String.length tmp) in
  let f := f_write f (String tab "") 1 in
  (* name. *)
  let f := f_write f (name cookie) (String.length (name cookie)) in
  let f := f_write f (String tab "") 1 in
  (* value. *)
  let f := f_write f (value cookie) (String.length (value cookie)) in
  f_write f (String tab (String newline "")) 1.

Inductive save_outcome : Type :=
  | save_throw                 (* boost::system::system_error *)
  | save_done (file : string). (* the content of the file afterwards *)

(** save_to_file.  [can_open] tells whether the stream could be opened;
    opening with std::ios::out leaves an empty file, and [file_size] is
    what fs::file_size then reports for it. *)
Definition save_to_file (can_open : bool) (file_size : Z)
    (default_domain : string) (c : cookies) : save_outcome :=
  if negb can_open then save_throw
  else
    let f := "" in
    let f := if file_size =? 0 then f_write f memo (String.length memo) else f in
    save_done (fold_left (save_cookie default_domain) (m_cookies c) f).

(** *** load_from_file (lines 228-267) *)

(** The lines std::getline delivers while [!f.eof()]: the pieces between
    newline characters; after a final newline one more call runs, hits
    the end of the file and leaves [line] empty. *)
Fixpoint getlines (s : string) : list string :=
  match s with
  | EmptyString => [EmptyString]
  | String c s' =>
      if Ascii.eqb c newline then EmptyString :: getlines s'
      else match getlines s' with
           | l :: ls => String c l :: ls
           | [] => [String c EmptyString]
           end
  end.

Fixpoint trim_left (s : string) : string :=
  match s with
  | EmptyString => EmptyString
  | String c s' => if isspace c then trim_left s' else s
  end.

Fixpoint trim_right (s : string) : string :=
  match s with
  | EmptyString => EmptyString
  | String c s' =>
      match trim_right s' with
      | EmptyString => if isspace c then EmptyString else String c EmptyString
      | t => String c t
      end
  end.

(** boost::trim. *)
Definition trim (s : string) : string := trim_left (trim_right s).

(** boost::split(split_vec, line, is_any_of("\t"), token_compress_on):
    the pieces between maximal runs of tabs.  [prev_sep] tells that the
    character before [s] was a separator. *)
Fixpoint split_tab (prev_sep : bool) (s : string) : list string :=
  match s with
  | EmptyString => [EmptyString]
  | String c s' =>
      if Ascii.eqb c tab then
        if prev_sep then split_tab true s'
        else EmptyString :: split_tab true s'
      else match split_tab false s' with
           | t :: ts => String c t :: ts
           | [] => [String c EmptyString]
           end
  end.

Definition boost_split (line : string) : list string := split_tab false line.

(** line.at(0) == '#' on a non-empty line. *)
Definition starts_with_hash (line : string) : bool :=
  match line with
  | String c _ => Ascii.eqb c hash
  | EmptyString => false
  end.

(** What one pass through lines 251-265 ends in. *)
Inductive decode_outcome : Type :=
  | decoded (cookie : http_cookie)
  | decode_past_end   (* split_vec[i] with i >= split_vec.size() *)
  | decode_bad_date.  (* line 260 leaves the function *)

(** Lines 251-262.  split_vec is indexed with operator[], which does not
    check its range: [decode_past_end] stands for a read past the end of
    the vector.  Line 260 formats the time stamp just built, although the
    string is never used: boost::posix_time::to_simple_string computes the
    calendar date and throws gregorian::bad_year when the year is outside
    1400..9999 (further out, the year and tick arithmetic of the library
    wraps; the model does not follow it there and ends in
    [decode_bad_date] as well).  The exception is not caught: it leaves
    load_from_file before lines 261-265 run. *)
Definition decode_line (line : string) : decode_outcome :=
  let split_vec := boost_split line in
  match split_vec !! 4%nat with
  | None => decode_past_end
  | Some s4 =>
    let time := atol s4 in
    match split_vec !! 0%nat, split_vec !! 2%nat, split_vec !! 3%nat with
    | Some s0, Some s2, Some s3 =>
      if negb (within_dates time) then decode_bad_date
      else
        match split_vec !! 5%nat, split_vec !! 6%nat with
        | Some s5, Some s6 =>
            decoded {| name := s5; value := s6; domain := s0; path := s2;
                       expires := from_time_t time;
                       httponly := false;
                       secure := if String.eqb s3 "TRUE" then true else false |}
        | _, _ => decode_past_end
        end
    | _, _, _ => decode_past_end
    end
  end.

Inductive load_outcome : Type :=
  | load_done (c : cookies)
  | load_throw                       (* boost::system::system_error *)
  | load_out_of_range (c : cookies)  (* split_vec read past its end; [c] is
                                        the container at that moment *)
  | load_bad_date (c : cookies).     (* line 260 threw on a time stamp outside
                                        the calendar; [c] is the container at
                                        that moment *)

(** The loop of lines 240-266 over the lines of the file. *)
Fixpoint load_lines (lines : list string) (c : cookies) : load_outcome :=
  match lines with
  | [] => load_done c
  | l :: rest =>
      let line := trim l in
      if empty line || starts_with_hash line then load_lines rest c
      else match decode_line line with
           | decode_past_end => load_out_of_range c
           | decode_bad_date => load_bad_date c
           | decoded cookie => load_lines rest (push_back cookie c)
           end
  end.

(** load_from_file; [file] is the content of the file, [None] when it
    cannot be opened. *)
Definition load_from_file (file : option string) (c : cookies) : load_outcome :=
  match file with
  | None => load_throw
  | Some content => load_lines (getlines content) c
  end.

(** ** The Set-Cookie tokenizer (parse_cookie_string, lines 474-627) *)

Inductive parse_state : Type :=
  | cookie_name_start
  | cookie_name
  | cookie_value_start
  | cookie_value
  | cookie_bad.

Definition parse_state_eqb (a b : parse_state) : bool :=
  match a, b with
  | cookie_name_start, cookie_name_start
  | cookie_name, cookie_name
  | cookie_value_start, cookie_value_start
  | cookie_value, cookie_value
  | cookie_bad, cookie_bad => true
  | _, _ => false
  end.

(** std::map<std::string, std::string>: its entries in iteration order,
    that is, in ascending order of the keys under std::less<std::string>
    (byte-wise lexicographic). *)
Definition string_map : Type := list (string * string).

(** tmp[k] = v: overwrite the value of an existing key, otherwise insert
    the entry at its place in the order. *)
Fixpoint map_assign (k v : string) (m : string_map) : string_map :=
  match m with
  | [] => [(k, v)]
  | (k', v') :: m' =>
      match String.compare k k' with
      | Lt => (k, v) :: (k', v') :: m'
      | Eq => (k', v) :: m'
      | Gt => (k', v') :: map_assign k v m'
      end
  end.

(** std::string::push_back. *)
Definition string_push_back (s : string) (c : ascii) : string :=
  s +:+ String c EmptyString.

(** std::tolower in the classic locale, and boost::to_lower_copy. *)
Definition tolower (c : ascii) : ascii :=
  let n := N_of_ascii c in
  if (65 <=? n)%N && (n <=? 90)%N then ascii_of_N (n + 32) else c.

Fixpoint to_lower_copy (s : string) : string :=
  match s with
  | EmptyString => EmptyString
  | String c s' => String (tolower c) (to_lower_copy s')
  end.

(** The local variables of parse_cookie_string that the loop updates. *)
Record tokenizer : Type := mk_tokenizer {
  state : parse_state;
  name_buf : string;         (* std::string name *)
  value_buf : string;        (* std::string value *)
  tmp : string_map;
  cookie_tmp : http_cookie
}.

Definition tokenizer_init : tokenizer :=
  {| state := cookie_name_start; name_buf := ""; value_buf := "";
     tmp := []; cookie_tmp := cookie_default |}.

Definition set_secure (c : http_cookie) : http_cookie :=
  {| name := name c; value := value c; domain := domain c; path := path c;
     expires := expires c; httponly := httponly c; secure := true |}.

Definition set_httponly (c : http_cookie) : http_cookie :=
  {| name := name c; value := value c; domain := domain c; path := path c;
     expires := expires c; httponly := true; secure := secure c |}.

Definition set_expires (e : ptime) (c : http_cookie) : http_cookie :=
  {| name := name c; value := value c; domain := domain c; path := path c;
     expires := e; httponly := httponly c; secure := secure c |}.

Definition set_domain (d : string) (c : http_cookie) : http_cookie :=
  {| name := name c; value := value c; domain := d; path := path c;
     expires := expires c; httponly := httponly c; secure := secure c |}.

Definition set_path (p : string) (c : http_cookie) : http_cookie :=
  {| name := name c; value := value c; domain := domain c; path := p;
     expires := expires c; httponly := httponly c; secure := secure c |}.

Definition set_name_value (n v : string) (c : http_cookie) : http_cookie :=
  {| name := n; value := v; domain := domain c; path := path c;
     expires := expires c; httponly := httponly c; secure := secure c |}.

(** The outcome of parse_cookie_string: the process is aborted by the
    assertion of line 594, or the call returns [false], or it returns
    [true] after appending [cookie] to the vector it was given. *)
Inductive parse_outcome : Type :=
  | parse_abort
  | parse_false
  | parse_true (cookie : list http_cookie).

Section Parser.
(** detail::is_char and detail::is_tspecial are declared in
    avhttp/detail/parsers.hpp, detail::parse_http_date likewise (it
    receives the string and the time stamp to fill in, and returns
    whether it succeeded together with the time stamp afterwards);
    BOOST_ASSERT comes from boost and is compiled in or out. *)
Variable is_char : ascii -> bool.
Variable is_tspecial : ascii -> bool.
Variable parse_http_date : string -> ptime -> bool * ptime.
Variable assert_enabled : bool.

(** tmp[name] = value; name = ""; value = ""; state = cookie_name_start. *)
Definition store_pair (t : tokenizer) : tokenizer :=
  {| state := cookie_name_start; name_buf := ""; value_buf := "";
     tmp := map_assign (name_buf t) (value_buf t) (tmp t);
     cookie_tmp := cookie_tmp t |}.

Definition with_state (s : parse_state) (t : tokenizer) : tokenizer :=
  {| state := s; name_buf := name_buf t; value_buf := value_buf t;
     tmp := tmp t; cookie_tmp := cookie_tmp t |}.

(** One pass through the switch of lines 496-570 on the character [c]. *)
Definition step (t : tokenizer) (c : ascii) : tokenizer :=
  match state t with
  | cookie_name_start =>
      if Ascii.eqb c " " then t
      else if is_char c then
        {| state := cookie_name; name_buf := string_push_back (name_buf t) c;
           value_buf := value_buf t; tmp := tmp t; cookie_tmp := cookie_tmp t |}
      else with_state cookie_bad t
  | cookie_name =>
      if Ascii.eqb c ";" then
        if String.eqb (name_buf t) "secure" then
          {| state := cookie_name_start; name_buf := "";
             value_buf := value_buf t; tmp := tmp t;
             cookie_tmp := set_secure (cookie_tmp t) |}
        else if String.eqb (name_buf t) "httponly" then
          {| state := cookie_name_start; name_buf := "";
             value_buf := value_buf t; tmp := tmp t;
             cookie_tmp := set_httponly (cookie_tmp t) |}
        else
          {| state := cookie_bad; name_buf := "";
             value_buf := value_buf t; tmp := tmp t;
             cookie_tmp := cookie_tmp t |}
      else if Ascii.eqb c "=" then
        {| state := cookie_value_start; name_buf := name_buf t;
           value_buf := ""; tmp := tmp t; cookie_tmp := cookie_tmp t |}
      else if is_tspecial c || Ascii.eqb c ":" then
        {| state := cookie_name_start; name_buf := "";
           value_buf := value_buf t; tmp := tmp t; cookie_tmp := cookie_tmp t |}
      else if is_char c || Ascii.eqb c "_" then
        {| state := cookie_name; name_buf := string_push_back (name_buf t) c;
           value_buf := value_buf t; tmp := tmp t; cookie_tmp := cookie_tmp t |}
      else t
  | cookie_value_start =>
      if Ascii.eqb c ";" then store_pair t
      else if Ascii.eqb c dquote || Ascii.eqb c "'" then t
      else if is_char c then
        {| state := cookie_value; name_buf := name_buf t;
           value_buf := string_push_back (value_buf t) c;
           tmp := tmp t; cookie_tmp := cookie_tmp t |}
      else with_state cookie_bad t
  | cookie_value =>
      if Ascii.eqb c ";" || Ascii.eqb c dquote || Ascii.eqb c "'" then store_pair t
      else if is_char c then
        {| state := cookie_value; name_buf := name_buf t;
           value_buf := string_push_back (value_buf t) c;
           tmp := tmp t; cookie_tmp := cookie_tmp t |}
      else with_state cookie_bad t
  | cookie_bad => t
  end.

(** The loop of line 493: it stops at the end of the string or as soon
    as the state is [cookie_bad]. *)
Fixpoint tokenize (str : string) (t : tokenizer) : tokenizer :=
  match str with
  | EmptyString => t
  | String c rest =>
      if parse_state_eqb (state t) cookie_bad then t
      else tokenize rest (step t c)
  end.

(** Lines 572-586, what is done with the pair that was being read when
    the string ended; [None] is the [return false]. *)
Definition flush (t : tokenizer) : option tokenizer :=
  if parse_state_eqb (state t) cookie_name && negb (empty (name_buf t)) then
    if String.eqb (name_buf t) "secure" then
      Some {| state := state t; name_buf := name_buf t;
              value_buf := value_buf t; tmp := tmp t;
              cookie_tmp := set_secure (cookie_tmp t) |}
    else if String.eqb (name_buf t) "httponly" then
      Some {| state := state t; name_buf := name_buf t;
              value_buf := value_buf t; tmp := tmp t;
              cookie_tmp := set_httponly (cookie_tmp t) |}
    else Some t
  else if parse_state_eqb (state t) cookie_value && negb (empty (value_buf t)) then
    Some {| state := state t; name_buf := name_buf t;
            value_buf := value_buf t;
            tmp := map_assign (name_buf t) (value_buf t) (tmp t);
            cookie_tmp := cookie_tmp t |}
  else if parse_state_eqb (state t) cookie_bad then None
  else Some t.

(** The loop of lines 588-615 over the entries of [tmp] in order: the
    entries named expires, domain and path are consumed and erased, the
    others stay.  [None] is the process abort of BOOST_ASSERT(0). *)
Fixpoint scan_attributes (m_default_domain : string) (entries : string_map)
    (ct : http_cookie) : option (http_cookie * string_map) :=
  match entries with
  | [] => Some (ct, [])
  | (first, second) :: rest =>
      if String.eqb (to_lower_copy first) "expires" then
        let '(ok, e) := parse_http_date second (expires ct) in
        if negb ok && assert_enabled then None
        else scan_attributes m_default_domain rest (set_expires e ct)
      else if String.eqb (to_lower_copy first) "domain" then
        let d := if empty second && negb (empty m_default_domain)
                 then m_default_domain else second in
        scan_attributes m_default_domain rest (set_domain d ct)
      else if String.eqb (to_lower_copy first) "path" then
        scan_attributes m_default_domain rest (set_path second ct)
      else
        match scan_attributes m_default_domain rest ct with
        | None => None
        | Some (ct', kept) => Some (ct', (first, second) :: kept)
        end
  end.

(** Lines 618-624: one record per remaining entry, in map order. *)
Definition emit (ct : http_cookie) (kept : string_map) : list http_cookie :=
  map (fun kv => set_name_value (fst kv) (snd kv) ct) kept.

(** Lines 588-626, once the loop and the lines after it have left [t]. *)
Definition finish (m_default_domain : string) (t : tokenizer) : parse_outcome :=
  match scan_attributes m_default_domain (tmp t) (cookie_tmp t) with
  | None => parse_abort
  | Some (ct, kept) => parse_true (emit ct kept)
  end.

Definition parse_cookie_string (m_default_domain : string) (str : string)
    : parse_outcome :=
  match flush (tokenize str tokenizer_init) with
  | None => parse_false
  | Some t => finish m_default_domain t
  end.

(** operator()(const std::string& str), lines 290-303; [None] when the
    process was aborted. *)
Definition insert_string (str : string) (c : cookies) : option cookies :=
  match parse_cookie_string (m_default_domain c) str with
  | parse_abort => None
  | parse_false => Some c
  | parse_true cookie => Some (fold_left (fun acc i => push_back i acc) cookie c)
  end.
End Parser.

(** The character classes of avhttp/detail/parsers.hpp as the HTTP server
    examples of boost.asio define them, used to run the tokenizer on
    concrete strings. *)
Definition is_char_7bit (c : ascii) : bool := (N_of_ascii c <=? 127)%N.

Definition is_tspecial_http (c : ascii) : bool :=
  existsb (Ascii.eqb c)
    (["("; ")"; "<"; ">"; "@"; ","; ";"; ":"; "\"; "/"; "["; "]";
      "?"; "="; "{"; "}"; " "]%char ++ [dquote; tab]).

(** A date primitive that rejects every string and leaves the time stamp
    alone. *)
Definition parse_http_date_reject (s : string) (t : ptime) : bool * ptime :=
  (false, t).

(** ** Merging two containers (lines 637-696) *)

(** detail::cookie_megerable; [None] stands for dereferencing end(). *)
Definition cookie_megerable (element : http_cookie) (container : cookies)
    : option bool :=
  let it := find_name (name element) (m_cookies container) in
  match find_key element (m_cookies container) with
  | None => Some true
  | Some _ =>
      if empty (value element) then Some false
      else match it with
           | None => None
           | Some it =>
               if empty (value it) then Some true
               else if ptime_le (expires element) (expires it) then Some false
               else Some true
           end
  end.

Definition cookie_not_megerable (element : http_cookie) (container : cookies)
    : option bool :=
  negb <$> cookie_megerable element container.

(** One element of std::remove_copy_if with the predicate bound to the
    container that is being filled. *)
Definition admit_step (ret : cookies) (element : http_cookie) : option cookies :=
  b ← cookie_not_megerable element ret;
  Some (if b : bool then ret else push_back element ret).

(** std::remove_copy_if(tmp.begin(), tmp.end(), std::back_inserter(ret),
    boost::bind(detail::cookie_not_megerable, _1, boost::ref(ret))). *)
Fixpoint remove_copy_if_into (l : list http_cookie) (ret : cookies) : option cookies :=
  match l with
  | [] => Some ret
  | element :: rest => ret' ← admit_step ret element; remove_copy_if_into rest ret'
  end.

(** *** std::sort as the GNU C++ library implements it

    Line 686 calls std::sort, whose body is not part of the header.  The
    routines below follow bits/stl_algo.h and bits/stl_heap.h of
    libstdc++ as GCC 12 ships them (introsort: quicksort steps with a median-of-three pivot
    down to ranges of 16 elements, heapsort once the recursion gets too
    deep, one insertion sort over the whole range at the end).  The
    vector is a list, an iterator is an index into it, and reading or
    writing through an iterator outside the vector gives [None]. *)
Section StdSort.
Context {A : Type}.
Variable comp : A -> A -> bool.

(** std::iter_swap(a, b). *)
Definition iter_swap (v : list A) (a b : nat) : option (list A) :=
  x ← v !! a; y ← v !! b; Some (<[b := x]> (<[a := y]> v)).

(** __move_median_to_first(result, a, b, c, comp). *)
Definition move_median_to_first (v : list A) (result a b c : nat)
    : option (list A) :=
  va ← v !! a; vb ← v !! b; vc ← v !! c;
  if comp va vb then
    if comp vb vc then iter_swap v result b
    else if comp va vc then iter_swap v result c
    else iter_swap v result a
  else if comp va vc then iter_swap v result a
  else if comp vb vc then iter_swap v result c
  else iter_swap v result b.

(** while (comp(first, pivot)) ++first; over the elements [l] that stand
    at [first] and behind it. *)
Fixpoint skip_before (pivot : A) (l : list A) (first : nat) : option nat :=
  match l with
  | [] => None
  | x :: l' => if comp x pivot then skip_before pivot l' (S first) else Some first
  end.

(** while (comp(pivot, last)) --last; *)
Fixpoint skip_behind (v : list A) (pivot : A) (last : nat) : option nat :=
  match last with
  | O => x ← v !! O; if comp pivot x then None else Some O
  | S last' =>
      x ← v !! last;
      if comp pivot x then skip_behind v pivot last' else Some last
  end.

(** __unguarded_partition(first, last, pivot, comp); every pass of the
    outer loop moves [first] up, [fuel] bounds their number. *)
Fixpoint unguarded_partition (fuel : nat) (v : list A) (first last pivot : nat)
    : option (list A * nat) :=
  match fuel with
  | O => None
  | S fuel =>
      p ← v !! pivot;
      first ← skip_before p (drop first v) first;
      match last with
      | O => None
      | S last =>
          last ← skip_behind v p last;
          if negb (first <? last)%nat then Some (v, first)
          else
            v ← iter_swap v first last;
            unguarded_partition fuel v (S first) last pivot
      end
  end.

(** __unguarded_partition_pivot(first, last, comp). *)
Definition unguarded_partition_pivot (v : list A) (first last : nat)
    : option (list A * nat) :=
  let mid := (first + (last - first) / 2)%nat in
  v ← move_median_to_first v first (first + 1) mid (last - 1);
  unguarded_partition (last - first) v (first + 1) last first.

(** __push_heap(first, holeIndex, topIndex, value, comp). *)
Fixpoint push_heap (fuel : nat) (v : list A) (first holeIndex topIndex : nat)
    (value : A) : option (list A) :=
  let parent := ((holeIndex - 1) / 2)%nat in
  if (topIndex <? holeIndex)%nat then
    match fuel with
    | O => None
    | S fuel =>
        x ← v !! (first + parent)%nat;
        if comp x value then
          push_heap fuel (<[(first + holeIndex)%nat := x]> v) first parent topIndex value
        else Some (<[(first + holeIndex)%nat := value]> v)
    end
  else Some (<[(first + holeIndex)%nat := value]> v).

(** The first loop of __adjust_heap: the hole sinks to the larger child
    as long as there are two children. *)
Fixpoint sink_hole (fuel : nat) (v : list A) (first holeIndex secondChild len : nat)
    : option (list A * nat * nat) :=
  if (secondChild <? (len - 1) / 2)%nat then
    match fuel with
    | O => None
    | S fuel =>
        let secondChild := (2 * (secondChild + 1))%nat in
        x ← v !! (first + secondChild)%nat;
        y ← v !! (first + (secondChild - 1))%nat;
        let secondChild := if comp x y then (secondChild - 1)%nat else secondChild in
        z ← v !! (first + secondChild)%nat;
        sink_hole fuel (<[(first + holeIndex)%nat := z]> v) first secondChild secondChild len
    end
  else Some (v, holeIndex, secondChild).

(** __adjust_heap(first, holeIndex, len, value, comp). *)
Definition adjust_heap (v : list A) (first holeIndex len : nat) (value : A)
    : option (list A) :=
  let topIndex := holeIndex in
  '(v, holeIndex, secondChild) ← sink_hole len v first holeIndex holeIndex len;
  '(v, holeIndex) ←
    (if Nat.even len && (Z.of_nat secondChild =? Z.quot (Z.of_nat len - 2) 2)%Z then
       let secondChild := (2 * (secondChild + 1))%nat in
       x ← v !! (first + (secondChild - 1))%nat;
       Some (<[(first + holeIndex)%nat := x]> v, (secondChild - 1)%nat)
     else Some (v, holeIndex));
  push_heap len v first holeIndex topIndex value.

(** __pop_heap(first, last, result, comp). *)
Definition pop_heap (v : list A) (first last result : nat) : option (list A) :=
  value ← v !! result;
  x ← v !! first;
  adjust_heap (<[result := x]> v) first 0 (last - first) value.

(** The loop of __make_heap, from [parent] down to 0. *)
Fixpoint make_heap_loop (v : list A) (first len parent : nat) : option (list A) :=
  value ← v !! (first + parent)%nat;
  v ← adjust_heap v first parent len value;
  match parent with
  | O => Some v
  | S parent => make_heap_loop v first len parent
  end.

(** __make_heap(first, last, comp). *)
Definition make_heap (v : list A) (first last : nat) : option (list A) :=
  if (last - first <? 2)%nat then Some v
  else
    let len := (last - first)%nat in
    make_heap_loop v first len ((len - 2) / 2).

(** __sort_heap(first, last, comp), [n] being last - first. *)
Fixpoint sort_heap (v : list A) (first n : nat) : option (list A) :=
  match n with
  | O => Some v
  | S n' =>
      if (1 <? n)%nat then
        let last := (first + n')%nat in
        v ← pop_heap v first last last;
        sort_heap v first n'
      else Some v
  end.

(** The loop of __heap_select over [i] from middle to last, [n] being
    last - i (the loop does not run in the call std::sort makes, where
    middle is last). *)
Fixpoint heap_select_loop (v : list A) (first middle i n : nat) : option (list A) :=
  match n with
  | O => Some v
  | S n =>
      x ← v !! i; y ← v !! first;
      v ← (if comp x y then pop_heap v first middle i else Some v);
      heap_select_loop v first middle (S i) n
  end.

(** __heap_select(first, middle, last, comp). *)
Definition heap_select (v : list A) (first middle last : nat) : option (list A) :=
  v ← make_heap v first middle;
  heap_select_loop v first middle middle (last - middle).

(** __partial_sort(first, middle, last, comp). *)
Definition partial_sort (v : list A) (first middle last : nat) : option (list A) :=
  v ← heap_select v first middle last;
  sort_heap v first (middle - first).

(** _S_threshold. *)
Definition S_threshold : nat := 16.

(** __introsort_loop(first, last, depth_limit, comp): every pass of the
    loop, like every recursive call, counts [depth_limit] down. *)
Fixpoint introsort_loop (depth_limit : nat) (v : list A) (first last : nat)
    : option (list A) :=
  if (S_threshold <? last - first)%nat then
    match depth_limit with
    | O => partial_sort v first last last
    | S depth_limit =>
        '(v, cut) ← unguarded_partition_pivot v first last;
        v ← introsort_loop depth_limit v cut last;
        introsort_loop depth_limit v first cut
    end
  else Some v.

(** The loop of __unguarded_linear_insert, the value [val] travelling down
    from [last]. *)
Fixpoint unguarded_linear_insert_loop (v : list A) (val : A) (last : nat)
    : option (list A) :=
  match last with
  | O => None
  | S next =>
      x ← v !! next;
      if comp val x then unguarded_linear_insert_loop (<[last := x]> v) val next
      else Some (<[last := val]> v)
  end.

(** __unguarded_linear_insert(last, comp). *)
Definition unguarded_linear_insert (v : list A) (last : nat) : option (list A) :=
  val ← v !! last; unguarded_linear_insert_loop v val last.

(** std::move_backward(first, i, i + 1) followed by *first = val, where
    val was *i. *)
Definition move_to_first (v : list A) (first i : nat) (val : A) : list A :=
  take first v ++ val :: take (i - first) (drop first v) ++ drop (S i) v.

(** The loop of __insertion_sort over [i], [n] being last - i. *)
Fixpoint insertion_sort_loop (v : list A) (first i n : nat) : option (list A) :=
  match n with
  | O => Some v
  | S n =>
      x ← v !! i; y ← v !! first;
      v ← (if comp x y then Some (move_to_first v first i x)
           else unguarded_linear_insert v i);
      insertion_sort_loop v first (S i) n
  end.

(** __insertion_sort(first, last, comp). *)
Definition insertion_sort (v : list A) (first last : nat) : option (list A) :=
  if (first =? last)%nat then Some v
  else insertion_sort_loop v first (first + 1) (last - (first + 1)).

(** __unguarded_insertion_sort(first, last, comp), [n] being
    last - first. *)
Fixpoint unguarded_insertion_sort (v : list A) (first n : nat) : option (list A) :=
  match n with
  | O => Some v
  | S n => v ← unguarded_linear_insert v first; unguarded_insertion_sort v (S first) n
  end.

(** __final_insertion_sort(first, last, comp). *)
Definition final_insertion_sort (v : list A) (first last : nat) : option (list A) :=
  if (S_threshold <? last - first)%nat then
    v ← insertion_sort v first (first + S_threshold);
    unguarded_insertion_sort v (first + S_threshold) (last - (first + S_threshold))
  else insertion_sort v first last.

(** std::sort(v.begin(), v.end(), comp). *)
Definition std_sort (v : list A) : option (list A) :=
  let first := O in
  let last := length v in
  if (first =? last)%nat then Some v
  else
    v ← introsort_loop (Nat.log2 (last - first) * 2) v first last;
    final_insertion_sort v first last.
End StdSort.

(** *** Notions used to state what std::sort does *)

(** [v'] holds the elements of [v], and outside of the places from [lo]
    up to [hi] every element is where it was. *)
Definition range_perm {A : Type} (lo hi : nat) (v v' : list A) : Prop :=
  Permutation v v' /\
  forall i : nat, (i < lo \/ hi <= i)%nat -> v' !! i = v !! i.

(** From [lo] up to [hi] no element of [v] compares before an earlier
    one. *)
Definition sorted_range {A : Type} (comp : A -> A -> bool) (lo hi : nat)
    (v : list A) : Prop :=
  forall (i j : nat) (x y : A),
    (lo <= i)%nat -> (i < j)%nat -> (j < hi)%nat ->
    v !! i = Some x -> v !! j = Some y -> comp y x = false.

(** No element from [cut] up to [hi] compares before one from [lo] up to
    [cut]. *)
Definition split_range {A : Type} (comp : A -> A -> bool) (lo cut hi : nat)
    (v : list A) : Prop :=
  forall (i j : nat) (x y : A),
    (lo <= i)%nat -> (i < cut)%nat -> (cut <= j)%nat -> (j < hi)%nat ->
    v !! i = Some x -> v !! j = Some y -> comp y x = false.

(** What __unguarded_linear_insert relies on: every element from [from]
    up to [hi] has, somewhere between [lo] and itself, an element that it
    does not compare before. *)
Definition guarded_range {A : Type} (comp : A -> A -> bool) (lo from hi : nat)
    (v : list A) : Prop :=
  forall (i : nat) (x : A),
    (from <= i)%nat -> (i < hi)%nat -> v !! i = Some x ->
    exists (j : nat) (y : A), (lo <= j)%nat /\ (j < i)%nat /\ v !! j = Some y /\
      comp x y = false.

(** The heap the library builds in the [len] places from [first] on: from
    the node [top] downwards no node compares before one of its
    children. *)
Definition heap_from {A : Type} (comp : A -> A -> bool) (first len top : nat)
    (v : list A) : Prop :=
  forall (i : nat) (x y : A),
    (0 < i)%nat -> (i < len)%nat -> (top <= (i - 1) / 2)%nat ->
    v !! (first + (i - 1) / 2)%nat = Some x -> v !! (first + i)%nat = Some y ->
    comp x y = false.

(** The nodes of the heap below [top]: [top] itself and the children of
    such nodes. *)
Inductive heap_path (top : nat) : nat -> Prop :=
  | heap_path_top : heap_path top top
  | heap_path_child (h c : nat) :
      heap_path top h -> (0 < c)%nat -> ((c - 1) / 2 = h)%nat -> heap_path top c.

(** What the C++ standard promises of std::sort(first, last, comp): the
    range afterwards is a rearrangement of the range before, and no
    element compares before one that stands ahead of it.  The order of
    equivalent elements is left open. *)
Definition std_sort_post {A : Type} (comp : A -> A -> bool)
    (before after : list A) : Prop :=
  Permutation before after /\
  forall (i j : nat) (x y : A),
    (i < j)%nat -> after !! i = Some x -> after !! j = Some y -> comp y x = false.

(** The scratch container [tmp] of operator+ after line 687. *)
Definition sorted_scratch (lhs rhs : cookies) (scratch : list http_cookie) : Prop :=
  std_sort_post (compare_by_expires ptime_greater)
    (m_cookies lhs ++ m_cookies rhs) scratch.

(** operator+(lhs, rhs) may return [ret]. *)
Definition operator_plus (lhs rhs ret : cookies) : Prop :=
  exists scratch, sorted_scratch lhs rhs scratch /\
    remove_copy_if_into scratch cookies_new = Some ret.

(** A stable sort by expires, latest first, as the description of the
    merge words it: insertion from the right keeps equal keys in their
    original order. *)
Fixpoint stable_insert (x : http_cookie) (l : list http_cookie) : list http_cookie :=
  match l with
  | [] => [x]
  | y :: rest =>
      if ptime_greater (expires y) (expires x) then y :: stable_insert x rest
      else x :: y :: rest
  end.

Definition stable_sort_by_expires (l : list http_cookie) : list http_cookie :=
  fold_right stable_insert [] l.

(** operator+ with the std::sort of the GNU library; [None] when the sort
    or the admission walk leaves defined behaviour. *)
Definition operator_plus_gnu (lhs rhs : cookies) : option cookies :=
  tmp ← std_sort (compare_by_expires ptime_greater) (m_cookies lhs ++ m_cookies rhs);
  remove_copy_if_into tmp cookies_new.

(** ** Records, stores and files used in the examples *)

Definition cookie_a : http_cookie :=
  {| name := "a"; value := "1"; domain := ""; path := "";
     expires := not_a_date_time; httponly := false; secure := false |}.

(** cookies c; c("a", "1"); *)
Definition store_a : cookies := insert_name_value "a" "1" cookies_new.

(** The seven fields of a record in the order save_to_file writes them. *)
Definition cookie_fields (default_domain : string) (cookie : http_cookie)
    : list string :=
  [ if empty (domain cookie) then default_domain else domain cookie;
    if empty (domain cookie) then "FALSE" else "TRUE";
    path cookie;
    if secure cookie then "TRUE" else "FALSE";
    time_t_to_string (if is_not_a_date_time (expires cookie) then 0
                      else ptime_to_time_t (expires cookie));
    name cookie;
    value cookie ].

(** Every field followed by the character [sep]. *)
Fixpoint each_followed_by (sep : ascii) (fields : list string) : string :=
  match fields with
  | [] => EmptyString
  | s :: rest => s +:+ String sep (each_followed_by sep rest)
  end.

Fixpoint all_chars (p : ascii -> bool) (s : string) : bool :=
  match s with
  | EmptyString => true
  | String c s' => p c && all_chars p s'
  end.

Definition cookie_n : http_cookie :=
  {| name := "n"; value := "v"; domain := "d"; path := "/";
     expires := time_at 100000000; httponly := false; secure := false |}.

Definition store_n : cookies := insert_cookie cookie_n cookies_new.

(** What save_to_file writes for [store_n] after the comment block. *)
Definition store_n_text : string := "d	TRUE	/	FALSE	100	n	v	".

(** A cookie file with one complete line and one line of two fields. *)
Definition short_line_file : string :=
  "d	TRUE	/	FALSE	100	n	v" +:+ String newline
  ("x	y" +:+ String newline "").

Definition cookie_at (n v : string) (e : ptime) : http_cookie :=
  {| name := n; value := v; domain := ""; path := "";
     expires := e; httponly := false; secure := false |}.

(** Two stores of one record each; the two records expire at the same
    time. *)
Definition store_x : cookies := insert_cookie (cookie_at "x" "1" (time_at 5)) cookies_new.
Definition store_y : cookies := insert_cookie (cookie_at "y" "2" (time_at 5)) cookies_new.

(** Seventeen records that all expire at the same time, nine in one
    store and eight in another. *)
Definition cookie_named (n : string) : http_cookie := cookie_at n "1" (time_at 5).

Definition store_c01_c09 : cookies :=
  {| m_cookies := map cookie_named
       ["c01"; "c02"; "c03"; "c04"; "c05"; "c06"; "c07"; "c08"; "c09"];
     m_default_domain := "" |}.

Definition store_c10_c17 : cookies :=
  {| m_cookies := map cookie_named
       ["c10"; "c11"; "c12"; "c13"; "c14"; "c15"; "c16"; "c17"];
     m_default_domain := "" |}.

(** The order in which std::sort leaves the seventeen. *)
Definition scratch_c01_c17 : list http_cookie :=
  map cookie_named
    ["c09"; "c17"; "c16"; "c15"; "c14"; "c13"; "c12"; "c11"; "c10";
     "c01"; "c08"; "c07"; "c06"; "c05"; "c04"; "c03"; "c02"].

(** [x] does not expire earlier than [y], an absent expiry counting as
    later than every time: the order "expires descending, absent as the
    largest value". *)
Definition expires_ge (x y : http_cookie) : Prop :=
  match expires x, expires y with
  | not_a_date_time, _ => True
  | time_at _, not_a_date_time => False
  | time_at a, time_at b => b <= a
  end.

(** The same order on time stamps: [a] is not earlier than [b]. *)
Definition ptime_ge (a b : ptime) : Prop := ptime_lt a b = false.

(** The order of std::less<std::string> on the keys of map entries. *)
Definition key_lt (a b : string * string) : Prop :=
  String.compare (fst a) (fst b) = Lt.

(** What holds of the local variables of parse_cookie_string at every
    turn of its loop. *)
Record tokenizer_inv (t : tokenizer) : Prop := mk_tokenizer_inv {
  inv_value : state t = cookie_value -> value_buf t <> "";
  inv_name : state t = cookie_name \/ state t = cookie_value_start
             \/ state t = cookie_value -> name_buf t <> "";
  inv_sorted : StronglySorted key_lt (tmp t);
  inv_keys : Forall (fun kv => fst kv <> "") (tmp t)
}.

(** The names expires, domain and path in any mix of cases. *)
Definition reserved_key (k : string) : bool :=
  String.eqb (to_lower_copy k) "expires" || String.eqb (to_lower_copy k) "domain"
    || String.eqb (to_lower_copy k) "path".

Definition cookie_b : http_cookie :=
  {| name := "b"; value := "2"; domain := ""; path := "";
     expires := not_a_date_time; httponly := false; secure := false |}.

(** parse_cookie_string with the character classes above and the date
    primitive that rejects everything; [assert_enabled] says whether
    BOOST_ASSERT is compiled in. *)
Definition parse_example (assert_enabled : bool) (str : string) : parse_outcome :=
  parse_cookie_string is_char_7bit is_tspecial_http parse_http_date_reject
    assert_enabled "" str.

(** *** Fields that survive the cookie file *)

(** A character other than the two the file format uses as separators. *)
Definition field_char (c : ascii) : bool :=
  negb (Ascii.eqb c tab) && negb (Ascii.eqb c newline).

(** A non-empty string without tab and newline. *)
Definition plain_field (s : string) : bool :=
  negb (empty s) && all_chars field_char s.

(** The first character is neither white space nor '#'. *)
Definition starts_clean (s : string) : bool :=
  match s with
  | String c _ => negb (isspace c) && negb (Ascii.eqb c hash)
  | EmptyString => false
  end.

(** The last character is not white space. *)
Fixpoint ends_clean (s : string) : bool :=
  match s with
  | EmptyString => false
  | String c s' =>
      match s' with
      | EmptyString => negb (isspace c)
      | String _ _ => ends_clean s'
      end
  end.

(** [first] and the strings of [rest] with [sep] between them. *)
Fixpoint joined (sep : ascii) (first : string) (rest : list string) : string :=
  match rest with
  | [] => first
  | s :: rest' => first +:+ String sep (joined sep s rest')
  end.

(** The record load_from_file builds from the line save_to_file wrote
    for [cookie], when [cookie] expires at [ticks]. *)
Definition reloaded (cookie : http_cookie) (ticks : Z) : http_cookie :=
  {| name := name cookie; value := value cookie;
     domain := domain cookie; path := path cookie;
     expires := time_at (ticks / ticks_per_second * ticks_per_second);
     httponly := false; secure := secure cookie |}.

(** [cookie_n] without an expiry, and the store holding it. *)
Definition cookie_session : http_cookie :=
  {| name := "n"; value := "v"; domain := "d"; path := "/";
     expires := not_a_date_time; httponly := false; secure := false |}.

Definition store_session : cookies := insert_cookie cookie_session cookies_new.

(** What save_to_file writes for [store_session] after the comment block. *)
Definition store_session_text : string := "d	TRUE	/	FALSE	0	n	v	".

(** Two records that differ in name and value only. *)
Definition cookie_m : http_cookie :=
  {| name := "m"; value := "w"; domain := "d"; path := "/";
     expires := time_at 100000000; httponly := false; secure := false |}.

Definition store_n_m : cookies := insert_cookie cookie_m store_n.

(** save_to_file followed by load_from_file into an empty container. *)
Definition save_then_load (c : cookies) : option load_outcome :=
  match save_to_file true 0 "" c with
  | save_throw => None
  | save_done file => Some (load_from_file (Some file) cookies_new)
  end.

(** *** Sequences of public operations *)

(** The members that add records to a container. *)
Inductive operation : Type :=
  | op_name_value (n v : string)      (* c(name, value) *)
  | op_cookie (cookie : http_cookie)  (* c(cookie) *)
  | op_string (str : string)          (* c(str) *)
  | op_load (file : option string)    (* c.load_from_file(filename) *)
  | op_plus (rhs : cookies).          (* c = c + rhs *)

(** Every record of the list has a name. *)
Definition all_named (l : list http_cookie) : Prop :=
  Forall (fun r => name r <> "") l.

(** The names handed in from outside by an operation are not empty. *)
Definition operation_named (op : operation) : Prop :=
  match op with
  | op_name_value n _ => n <> ""
  | op_cookie cookie => name cookie <> ""
  | op_string _ => True
  | op_load _ => True
  | op_plus rhs => all_named (m_cookies rhs)
  end.

Section Operations.
Variable is_char : ascii -> bool.
Variable is_tspecial : ascii -> bool.
Variable parse_http_date : string -> ptime -> bool * ptime.
Variable assert_enabled : bool.

(** [performs c op c']: the operation returns normally and leaves the
    container [c'].  An aborted process, a throwing call and a read past
    the end of split_vec leave no container to speak of. *)
Inductive performs (c : cookies) : operation -> cookies -> Prop :=
  | performs_name_value n v :
      performs c (op_name_value n v) (insert_name_value n v c)
  | performs_cookie cookie :
      performs c (op_cookie cookie) (insert_cookie cookie c)
  | performs_string str c' :
      insert_string is_char is_tspecial parse_http_date assert_enabled str c
        = Some c' ->
      performs c (op_string str) c'
  | performs_load file c' :
      load_from_file file c = load_done c' ->
      performs c (op_load file) c'
  | performs_plus rhs ret :
      operator_plus c rhs ret ->
      performs c (op_plus rhs) ret.

(** The containers a program reaches from a fresh one by the operations
    of [ops], in order. *)
Inductive reaches : list operation -> cookies -> Prop :=
  | reaches_new : reaches [] cookies_new
  | reaches_step ops c op c' :
      reaches ops c -> performs c op c' -> reaches (ops ++ [op]) c'.
End Operations.

(** ** Further notions used in the properties of the members *)

(** The identity of a cookie slot: name, domain and path. *)
Definition full_key (r : http_cookie) : string * string * string :=
  (name r, domain r, path r).

(** The records remove_cookie is meant to leave: those not named [n]. *)
Definition not_named (n : string) (l : list http_cookie) : list http_cookie :=
  List.filter (fun r => negb (http_cookie_is_same_name n r)) l.

(** The test of line 245: the line is blank or a comment and is passed
    over. *)
Definition line_skipped (l : string) : bool :=
  empty (trim l) || starts_with_hash (trim l).

(** A cookie file of two complete lines; the second one expires in the
    first second of the year 10000. *)
Definition late_date_file : string :=
  "d	TRUE	/	FALSE	100	n	v" +:+ String newline
  ("d	TRUE	/	FALSE	253402300800	m	w" +:+ String newline "").

(** [c] with the records [added] pushed back, in order. *)
Definition extend (c : cookies) (added : list http_cookie) : cookies :=
  {| m_cookies := m_cookies c ++ added; m_default_domain := m_default_domain c |}.

(** What every record built by lines 255-262 looks like. *)
Definition loaded_shape (r : http_cookie) : Prop :=
  httponly r = false /\ is_not_a_date_time (expires r) = false /\
  name r <> "" /\ value r <> "" /\ domain r <> "" /\ path r <> "".

(** The attributes the records of one call of parse_cookie_string have
    in common. *)
Definition shared_attributes (r : http_cookie)
    : string * string * ptime * bool * bool :=
  (domain r, path r, expires r, httponly r, secure r).

(** Two single-record containers, for the properties of operator+. *)
Definition store_of (r : http_cookie) : cookies := insert_cookie r cookies_new.

(** ** The Cookie header line (get_cookie_line, lines 307-343) *)

(** One turn of the loop of lines 319-340 on the record [i]; [now] is
    what second_clock::local_time() returns in this turn. *)
Definition cookie_line_step (is_https : bool) (now : ptime) (cookie : string)
    (i : http_cookie) : string :=
  if empty (value i) then cookie
  else if secure i && negb is_https then cookie
  else if negb (is_not_a_date_time (expires i)) && ptime_lt (expires i) now
  then cookie
  else
    let cookie := if negb (empty cookie) then cookie +:+ "; " else cookie in
    cookie +:+ (name i +:+ "=" +:+ value i).

(** The loop; [clock turn] is the reading of the clock in turn number
    [turn]. *)
Fixpoint cookie_line_loop (is_https : bool) (clock : nat -> ptime) (turn : nat)
    (l : list http_cookie) (cookie : string) : string :=
  match l with
  | [] => cookie
  | i :: rest =>
      cookie_line_loop is_https clock (S turn) rest
        (cookie_line_step is_https (clock turn) cookie i)
  end.

(** get_cookie_line(is_https) may return [cookie]: the empty string for
    an empty container, otherwise the line built from [tmp + *this] with
    a fresh [tmp]. *)
Definition get_cookie_line (clock : nat -> ptime) (is_https : bool) (c : cookies)
    (cookie : string) : Prop :=
  if (size c =? 0)%nat then cookie = ""
  else exists tmp, operator_plus cookies_new c tmp /\
         cookie = cookie_line_loop is_https clock 0 (m_cookies tmp) "".

(** The record passes the three tests of lines 322-332. *)
Definition attached (is_https : bool) (now : ptime) (i : http_cookie) : bool :=
  negb (empty (value i)) && (negb (secure i) || is_https)
    && (is_not_a_date_time (expires i) || negb (ptime_lt (expires i) now)).

(** The records that pass, each tested against the reading of its turn. *)
Fixpoint attached_records (is_https : bool) (clock : nat -> ptime) (turn : nat)
    (l : list http_cookie) : list http_cookie :=
  match l with
  | [] => []
  | i :: rest =>
      if attached is_https (clock turn) i
      then i :: attached_records is_https clock (S turn) rest
      else attached_records is_https clock (S turn) rest
  end.

Definition cookie_pair (i : http_cookie) : string := name i +:+ "=" +:+ value i.

(** The strings of [l], each with "; " in front. *)
Fixpoint prefixed (l : list string) : string :=
  match l with
  | [] => ""
  | p :: rest => "; " +:+ p +:+ prefixed rest
  end.

(** The strings of [l] with "; " between them. *)
Definition join_pairs (l : list string) : string :=
  match l with
  | [] => ""
  | p :: rest => p +:+ prefixed rest
  end.

(** A secure cookie, the container holding it, and a clock that stands
    still at the epoch. *)
Definition cookie_secure : http_cookie :=
  {| name := "s"; value := "1"; domain := ""; path := "";
     expires := not_a_date_time; httponly := false; secure := true |}.

Definition store_secure : cookies := insert_cookie cookie_secure cookies_new.

Definition epoch_clock (turn : nat) : ptime := time_at 0.

(** *** Characters the tokenizer lets through *)

(** A character the tokenizer lets into a name after the first one, and
    one it lets into a value. *)
Definition name_char (is_char : ascii -> bool) (c : ascii) : bool :=
  is_char c || Ascii.eqb c "_".

Definition value_char (is_char : ascii -> bool) (c : ascii) : bool :=
  is_char c && negb (Ascii.eqb c ";") && negb (Ascii.eqb c dquote)
    && negb (Ascii.eqb c "'").

Definition pair_chars (is_char : ascii -> bool) (kv : string * string) : Prop :=
  all_chars (name_char is_char) (fst kv) = true /\
  all_chars (value_char is_char) (snd kv) = true.

Record chars_inv (is_char : ascii -> bool) (t : tokenizer) : Prop := mk_chars_inv {
  chars_name : all_chars (name_char is_char) (name_buf t) = true;
  chars_value : all_chars (value_char is_char) (value_buf t) = true;
  chars_tmp : Forall (pair_chars is_char) (tmp t)
}.

(** * Properties *)

(** stdpp keeps [append] folded; the proofs below compute with it. *)
#[local] Arguments String.append !_ _ / : simpl nomatch.

(** ** Removal by name *)

Section RemoveIfFacts.
Context {A : Type} (assigned_from : A -> A) (pred : A -> bool).

Lemma remove_if_loop_length (cnt first result : nat) (v : list A) :
  length (fst (remove_if_loop assigned_from pred cnt first result v)) = length v.
Proof.
  revert first result v.
  induction cnt as [|cnt IH]; intros first result v; simpl; [reflexivity|].
  destruct (v !! first) as [x|]; [|reflexivity].
  destruct (pred x); rewrite IH; [reflexivity|].
  now rewrite !length_insert.
Qed.

Lemma remove_if_length (v : list A) :
  length (fst (remove_if assigned_from pred v)) = length v.
Proof.
  unfold remove_if. destruct (find_if pred v); [|reflexivity].
  apply remove_if_loop_length.
Qed.
End RemoveIfFacts.

(** C1 (the code departs from the claim).  remove_cookie never changes
    the number of records, whatever the name and whatever an assignment
    leaves behind in its source; on the store holding the single record
    "a", removing "a" leaves the store as it was: its size is still 1 and
    the record named "a" is still found. *)
Theorem remove_cookie_keeps_size :
  (forall (assigned_from : http_cookie -> http_cookie) (n : string) (c : cookies),
      size (remove_cookie assigned_from n c) = size c) /\
  (forall assigned_from : http_cookie -> http_cookie,
      remove_cookie assigned_from "a" store_a = store_a /\
      size (remove_cookie assigned_from "a" store_a) = 1%nat /\
      find_name "a" (m_cookies (remove_cookie assigned_from "a" store_a))
        = Some cookie_a).
Proof.
  split.
  - intros af n c. unfold size, remove_cookie; simpl. apply remove_if_length.
  - intros af. repeat split.
Qed.

(** ** Strings *)

Lemma string_app_nil_r (s : string) : s +:+ "" = s.
Proof. induction s as [|c s IH]; cbn; [reflexivity | f_equal; exact IH]. Qed.

Lemma string_app_assoc (a b c : string) : (a +:+ b) +:+ c = a +:+ (b +:+ c).
Proof. induction a as [|x a IH]; cbn; [reflexivity | f_equal; exact IH]. Qed.

Lemma substring_whole (s : string) : substring 0 (String.length s) s = s.
Proof. induction s as [|c s IH]; cbn; [reflexivity | f_equal; exact IH]. Qed.

Lemma f_write_whole (f s : string) : f_write f s (String.length s) = f +:+ s.
Proof. unfold f_write. now rewrite substring_whole. Qed.

(** ** The cookie file writer *)

Lemma save_cookie_fields (default_domain f : string) (cookie : http_cookie) :
  save_cookie default_domain f cookie
  = f +:+ each_followed_by tab (cookie_fields default_domain cookie).
Proof.
  unfold save_cookie. rewrite !f_write_whole.
  unfold f_write. cbn [substring each_followed_by cookie_fields].
  rewrite !string_app_assoc. cbn [String.app].
  destruct (is_not_a_date_time (expires cookie)); reflexivity.
Qed.

(** C2 (the code departs from the claim).  For each record save_to_file
    appends its seven fields in the order domain, flag, path, secure,
    expires in epoch seconds, name, value, each of them followed by a tab,
    the last one included, and nothing else: no newline is written.  The
    file written for the store holding the record [cookie_n] is the
    comment block followed by the seven fields and a final tab. *)
Theorem save_to_file_ends_records_with_tab :
  (forall (default_domain f : string) (cookie : http_cookie),
      save_cookie default_domain f cookie
      = f +:+ each_followed_by tab (cookie_fields default_domain cookie)) /\
  save_to_file true 0 "" store_n = save_done (memo +:+ store_n_text) /\
  all_chars (fun c => negb (Ascii.eqb c newline)) store_n_text = true.
Proof.
  split; [exact save_cookie_fields|]. split; reflexivity.
Qed.

(** ** The cookie file reader *)

Lemma load_lines_never_throws (lines : list string) (c : cookies) :
  load_lines lines c <> load_throw.
Proof.
  revert c. induction lines as [|l rest IH]; intros c; simpl; [discriminate|].
  destruct (empty (trim l) || starts_with_hash (trim l)); [apply IH|].
  destruct (decode_line (trim l)); [apply IH | discriminate | discriminate].
Qed.

(** C4 (the code departs from the claim).  Once the file is open,
    load_from_file never throws the system_error with which it reports a
    failure, whatever the content.  On a file whose second line has two
    fields only, the first line has already been appended to the
    container when split_vec[4] is read past the end of the two-element
    vector. *)
Theorem load_from_file_short_line :
  (forall (content : string) (c : cookies),
      load_from_file (Some content) c <> load_throw) /\
  load_from_file (Some short_line_file) cookies_new
  = load_out_of_range
      {| m_cookies := [ {| name := "n"; value := "v"; domain := "d"; path := "/";
                           expires := time_at 100000000;
                           httponly := false; secure := false |} ];
         m_default_domain := "" |}.
Proof.
  split; [intros content c; apply load_lines_never_throws | reflexivity].
Qed.

(** ** Direct insertion *)

(** C9 (the code departs from the claim).  operator()(name, value) and
    operator()(cookie) append what they are given: called with an empty
    name they store a record whose name is empty. *)
Theorem insert_accepts_empty_name :
  (forall (v : string) (c : cookies),
      exists r, In r (m_cookies (insert_name_value "" v c)) /\ name r = "") /\
  (forall (r : http_cookie) (c : cookies),
      name r = "" -> In r (m_cookies (insert_cookie r c))) /\
  m_cookies (insert_name_value "" "v" cookies_new)
  = [ {| name := ""; value := "v"; domain := ""; path := "";
         expires := not_a_date_time; httponly := false; secure := false |} ].
Proof.
  split; [|split].
  - intros v c. eexists. split.
    + unfold insert_name_value, push_back; simpl.
      apply in_or_app. right. left. reflexivity.
    + reflexivity.
  - intros r c _. unfold insert_cookie, push_back; simpl.
    apply in_or_app. right. now left.
  - reflexivity.
Qed.

(** ** Time stamps *)

Lemma ptime_lt_irrefl (a : ptime) : ptime_lt a a = false.
Proof. destruct a; simpl; [reflexivity | apply Z.ltb_irrefl]. Qed.

Lemma ptime_not_lt_trans (a b c : ptime) :
  ptime_lt a b = false -> ptime_lt b c = false -> ptime_lt a c = false.
Proof.
  destruct a, b, c; simpl; try congruence.
  rewrite !Z.ltb_ge. lia.
Qed.

Lemma ptime_lt_not_le (a b : ptime) : ptime_le a b = false <-> ptime_lt b a = true.
Proof. unfold ptime_le. destruct (ptime_lt b a); simpl; split; congruence. Qed.

Lemma ptime_not_lt_ge (x y : http_cookie) :
  compare_by_expires ptime_greater y x = false <-> expires_ge x y.
Proof.
  unfold compare_by_expires, ptime_greater, expires_ge.
  destruct (expires x), (expires y); simpl; try rewrite Z.ltb_ge; intuition congruence.
Qed.

(** ** The admission test of the merge *)

Lemma find_key_find_name (key : http_cookie) (l : list http_cookie) (same : http_cookie) :
  find_key key l = Some same ->
  exists by_name, find_name (name key) l = Some by_name.
Proof.
  induction l as [|i rest IH]; simpl; [discriminate|].
  unfold same_key. destruct (String.eqb (name i) (name key)); simpl; eauto.
Qed.

Lemma push_back_neq (x : http_cookie) (c : cookies) : push_back x c <> c.
Proof.
  intros H. apply (f_equal (fun c => length (m_cookies c))) in H.
  simpl in H. rewrite length_app in H. simpl in H. lia.
Qed.

Lemma empty_true (s : string) : empty s = true <-> s = "".
Proof. destruct s; simpl; split; congruence. Qed.

Lemma empty_false (s : string) : empty s = false <-> s <> "".
Proof. destruct s; simpl; split; congruence. Qed.

(** cookie_megerable never dereferences end(): a match on the full key
    is a match on the name. *)
Lemma cookie_megerable_defined (element : http_cookie) (container : cookies) :
  exists b, cookie_megerable element container = Some b.
Proof.
  unfold cookie_megerable.
  destruct (find_key element (m_cookies container)) as [same|] eqn:Hk; [|eauto].
  destruct (find_key_find_name _ _ _ Hk) as [it ->].
  destruct (empty (value element)); [eauto|].
  destruct (empty (value it)); [eauto|].
  destruct (ptime_le (expires element) (expires it)); eauto.
Qed.

(** C6.  In the admission walk a candidate whose full key is not yet in
    the result is appended to it.  A candidate whose full key is present
    is either appended or skipped, and it is appended exactly when its
    value is not empty and the first record of the result with the
    candidate's name has an empty value or expires strictly earlier than
    the candidate. *)
Theorem admission_rule (candidate : http_cookie) (ret : cookies) :
  (find_key candidate (m_cookies ret) = None ->
     admit_step ret candidate = Some (push_back candidate ret)) /\
  (forall same, find_key candidate (m_cookies ret) = Some same ->
     exists by_name,
       find_name (name candidate) (m_cookies ret) = Some by_name /\
       (admit_step ret candidate = Some (push_back candidate ret) \/
        admit_step ret candidate = Some ret) /\
       (admit_step ret candidate = Some (push_back candidate ret) <->
          value candidate <> "" /\
          (value by_name = "" \/
           ptime_lt (expires by_name) (expires candidate) = true))).
Proof.
  unfold admit_step, cookie_not_megerable, cookie_megerable. split.
  - intros ->. reflexivity.
  - intros same Hk. rewrite Hk.
    destruct (find_key_find_name _ _ _ Hk) as [it Hit]. rewrite Hit.
    exists it. split; [reflexivity|].
    destruct (empty (value candidate)) eqn:Hv; simpl.
    + apply empty_true in Hv. split; [now right|]. split.
      * intros [= H]. symmetry in H. now apply push_back_neq in H.
      * intros [H _]. contradiction.
    + apply empty_false in Hv.
      destruct (empty (value it)) eqn:Hiv; simpl.
      * apply empty_true in Hiv. split; [now left|]. split; [|reflexivity].
        intros _. split; [assumption | now left].
      * apply empty_false in Hiv. unfold ptime_le.
        destruct (ptime_lt (expires it) (expires candidate)) eqn:Hlt; simpl.
        -- split; [now left|]. split; [|reflexivity].
           intros _. split; [assumption | now right].
        -- split; [now right|]. split.
           ++ intros [= H]. symmetry in H. now apply push_back_neq in H.
           ++ intros [_ [H|H]]; [contradiction | discriminate].
Qed.

(** The rule of C6 on two candidates: "y" is new to a result holding "x";
    a later "x" with a value replaces nothing but is appended after the
    earlier "x". *)
Lemma admission_rule_witness :
  admit_step store_x (cookie_at "y" "2" (time_at 5))
    = Some (push_back (cookie_at "y" "2" (time_at 5)) store_x) /\
  exists by_name,
    find_name "x" (m_cookies store_x) = Some by_name /\
    (admit_step store_x (cookie_at "x" "3" (time_at 9))
       = Some (push_back (cookie_at "x" "3" (time_at 9)) store_x) \/
     admit_step store_x (cookie_at "x" "3" (time_at 9)) = Some store_x) /\
    (admit_step store_x (cookie_at "x" "3" (time_at 9))
       = Some (push_back (cookie_at "x" "3" (time_at 9)) store_x) <->
     "3" <> "" /\ (value by_name = "" \/ ptime_lt (expires by_name) (time_at 9) = true)).
Proof.
  split.
  - apply (proj1 (admission_rule (cookie_at "y" "2" (time_at 5)) store_x)).
    reflexivity.
  - apply (proj2 (admission_rule (cookie_at "x" "3" (time_at 9)) store_x)
             (cookie_at "x" "1" (time_at 5))).
    reflexivity.
Defined.

(** ** Sorting the scratch container *)

Lemma expires_ge_trans (x y z : http_cookie) :
  expires_ge x y -> expires_ge y z -> expires_ge x z.
Proof.
  unfold expires_ge. destruct (expires x), (expires y), (expires z); try tauto. lia.
Qed.

Lemma strongly_sorted_lookup {A : Type} (R : A -> A -> Prop) (l : list A) :
  StronglySorted R l ->
  forall (i j : nat) (x y : A),
    (i < j)%nat -> l !! i = Some x -> l !! j = Some y -> R x y.
Proof.
  induction 1 as [|a l Hs IH Hall]; intros i j x y Hij Hi Hj.
  - discriminate.
  - destruct j as [|j]; [lia|]. simpl in Hj.
    destruct i as [|i]; simpl in Hi.
    + injection Hi as <-. rewrite Forall_forall in Hall.
      apply Hall. eapply list_elem_of_lookup_2; eassumption.
    + eapply IH; [|eassumption|eassumption]. lia.
Qed.

Lemma stable_insert_perm (x : http_cookie) (l : list http_cookie) :
  Permutation (x :: l) (stable_insert x l).
Proof.
  induction l as [|y rest IH]; simpl; [reflexivity|].
  destruct (ptime_greater (expires y) (expires x)); [|reflexivity].
  rewrite perm_swap. now apply perm_skip.
Qed.

Lemma stable_insert_sorted (x : http_cookie) (l : list http_cookie) :
  StronglySorted expires_ge l -> StronglySorted expires_ge (stable_insert x l).
Proof.
  induction 1 as [|y rest Hs IH Hall]; simpl.
  - constructor; constructor.
  - destruct (ptime_greater (expires y) (expires x)) eqn:Hgt.
    + constructor; [assumption|].
      rewrite <- (stable_insert_perm x rest). constructor; [|assumption].
      unfold expires_ge. unfold ptime_greater in Hgt.
      destruct (expires x), (expires y); simpl in Hgt; try congruence; try tauto.
      apply Z.ltb_lt in Hgt. lia.
    + assert (Hxy : expires_ge x y).
      { apply ptime_not_lt_ge. exact Hgt. }
      constructor; [now constructor|].
      constructor; [assumption|].
      eapply Forall_impl; [exact Hall|].
      intros z Hyz. eapply expires_ge_trans; eassumption.
Qed.

Lemma stable_sort_perm (l : list http_cookie) :
  Permutation l (stable_sort_by_expires l).
Proof.
  induction l as [|x l IH]; simpl; [reflexivity|].
  rewrite <- stable_insert_perm. now apply perm_skip.
Qed.

Lemma stable_sort_sorted (l : list http_cookie) :
  StronglySorted expires_ge (stable_sort_by_expires l).
Proof.
  induction l as [|x l IH]; simpl; [constructor | now apply stable_insert_sorted].
Qed.

(** The stable order is one of the orders std::sort may leave. *)
Lemma stable_sort_admissible (lhs rhs : cookies) :
  sorted_scratch lhs rhs (stable_sort_by_expires (m_cookies lhs ++ m_cookies rhs)).
Proof.
  split; [apply stable_sort_perm|].
  intros i j x y Hij Hi Hj. apply ptime_not_lt_ge.
  eapply strongly_sorted_lookup; [apply stable_sort_sorted| |eassumption|eassumption].
  exact Hij.
Qed.

(** The admission walk runs to its end on every input. *)
Lemma remove_copy_if_into_defined (l : list http_cookie) (ret : cookies) :
  exists ret', remove_copy_if_into l ret = Some ret'.
Proof.
  revert ret. induction l as [|x l IH]; intros ret; simpl; [eauto|].
  unfold admit_step, cookie_not_megerable.
  destruct (cookie_megerable_defined x ret) as [b ->]. simpl. apply IH.
Qed.

(** operator+ returns a container for every pair of arguments. *)
Lemma operator_plus_total (lhs rhs : cookies) : exists ret, operator_plus lhs rhs ret.
Proof.
  destruct (remove_copy_if_into_defined
              (stable_sort_by_expires (m_cookies lhs ++ m_cookies rhs)) cookies_new)
    as [ret Hret].
  exists ret, (stable_sort_by_expires (m_cookies lhs ++ m_cookies rhs)).
  split; [apply stable_sort_admissible | exact Hret].
Qed.

(** ** std::sort of the GNU library *)

(** Linear arithmetic with division by a constant. *)
Ltac nlia := zify; Z.to_euclidean_division_equations; lia.

(** The parent of the node [i] of a heap is the node [(i - 1) / 2]. *)
Lemma heap_parent_lt (i : nat) : (0 < i -> (i - 1) / 2 < i)%nat.
Proof. intros. nlia. Qed.

Lemma heap_children (h c : nat) :
  (0 < c -> (c - 1) / 2 = h <-> c = 2 * h + 1 \/ c = 2 * h + 2)%nat.
Proof. intros. nlia. Qed.

Lemma heap_two_children (h len : nat) :
  (h < (len - 1) / 2 <-> 2 * h + 2 < len)%nat.
Proof. nlia. Qed.

Lemma heap_one_child (h len : nat) :
  Nat.even len && (Z.of_nat h =? Z.quot (Z.of_nat len - 2) 2) = true
  <-> (len = 2 * h + 2)%nat.
Proof.
  rewrite andb_true_iff, Nat.even_spec, Z.eqb_eq. split.
  - intros [[m ->] Hq]. destruct m as [|m]; [simpl in Hq; lia|].
    replace (Z.of_nat (2 * S m) - 2) with (Z.of_nat m * 2) in Hq by lia.
    rewrite Z.quot_mul in Hq by lia. lia.
  - intros ->. split; [exists (h + 1)%nat; lia|].
    replace (Z.of_nat (2 * h + 2) - 2) with (Z.of_nat h * 2) by lia.
    rewrite Z.quot_mul by lia. reflexivity.
Qed.

Lemma heap_last_parent (len i : nat) :
  (0 < i -> (len - 2) / 2 < (i - 1) / 2 -> len <= i)%nat.
Proof. intros. nlia. Qed.

Lemma heap_last_parent_lt (len : nat) : (2 <= len -> (len - 2) / 2 < len)%nat.
Proof. intros. nlia. Qed.

Section StdSortFacts.
Local Open Scope nat_scope.
Local Open Scope list_scope.
Context {A : Type}.
Variable comp : A -> A -> bool.
(** The comparison is a strict weak ordering, as std::sort demands. *)
Hypothesis comp_irrefl : forall x, comp x x = false.
Hypothesis comp_trans :
  forall x y z, comp x y = true -> comp y z = true -> comp x z = true.
Hypothesis comp_negtrans :
  forall x y z, comp x y = false -> comp y z = false -> comp x z = false.

Lemma comp_asym (x y : A) : comp x y = true -> comp y x = false.
Proof.
  intros Hxy. destruct (comp y x) eqn:Hyx; [|reflexivity].
  rewrite <- (comp_irrefl x). symmetry. eapply comp_trans; eassumption.
Qed.

(** *** Rearrangements inside a range *)

Lemma range_perm_refl (lo hi : nat) (v : list A) : range_perm lo hi v v.
Proof. split; [reflexivity | auto]. Qed.

Lemma range_perm_trans (lo hi : nat) (v1 v2 v3 : list A) :
  range_perm lo hi v1 v2 -> range_perm lo hi v2 v3 -> range_perm lo hi v1 v3.
Proof.
  intros [Hp1 Ho1] [Hp2 Ho2]. split; [now rewrite Hp1|].
  intros i Hi. now rewrite Ho2, Ho1.
Qed.

Lemma range_perm_sym (lo hi : nat) (v v' : list A) :
  range_perm lo hi v v' -> range_perm lo hi v' v.
Proof. intros [Hp Ho]. split; [now symmetry|]. intros i Hi. now rewrite Ho. Qed.

Lemma range_perm_weaken (lo hi lo' hi' : nat) (v v' : list A) :
  lo' <= lo -> hi <= hi' -> range_perm lo hi v v' -> range_perm lo' hi' v v'.
Proof. intros Hlo Hhi [Hp Ho]. split; [exact Hp|]. intros i Hi. apply Ho. lia. Qed.

Lemma range_perm_length (lo hi : nat) (v v' : list A) :
  range_perm lo hi v v' -> length v' = length v.
Proof. intros [Hp _]. symmetry. now apply Permutation_length. Qed.

Lemma range_split (lo hi : nat) (v : list A) :
  lo <= hi -> v = take lo v ++ take (hi - lo) (drop lo v) ++ drop hi v.
Proof.
  intros Hle. rewrite <- (take_drop lo v) at 1. f_equal.
  rewrite <- (take_drop (hi - lo) (drop lo v)) at 1. f_equal.
  rewrite drop_drop. f_equal. lia.
Qed.

(** The elements of the range are rearranged among themselves. *)
Lemma range_perm_mid (lo hi : nat) (v v' : list A) :
  lo <= hi -> range_perm lo hi v v' ->
  Permutation (take (hi - lo) (drop lo v)) (take (hi - lo) (drop lo v')).
Proof.
  intros Hle [Hp Ho].
  assert (Htake : take lo v' = take lo v).
  { apply list_eq. intros i. rewrite !lookup_take. case_decide; [|reflexivity].
    apply Ho. lia. }
  assert (Hdrop : drop hi v' = drop hi v).
  { apply list_eq. intros i. rewrite !lookup_drop. apply Ho. lia. }
  rewrite (range_split lo hi v Hle), (range_split lo hi v' Hle) in Hp.
  rewrite Htake, Hdrop in Hp.
  apply Permutation_app_inv_l in Hp. now apply Permutation_app_inv_r in Hp.
Qed.

Lemma lookup_mid (lo hi i : nat) (v : list A) :
  take (hi - lo) (drop lo v) !! i = if decide (i < hi - lo) then v !! (lo + i) else None.
Proof. rewrite lookup_take. case_decide; [|reflexivity]. apply lookup_drop. Qed.

(** What stands in the range afterwards stood in it before. *)
Lemma range_perm_in (lo hi : nat) (v v' : list A) (i : nat) (x : A) :
  range_perm lo hi v v' -> lo <= i -> i < hi -> v' !! i = Some x ->
  exists j, lo <= j /\ j < hi /\ v !! j = Some x.
Proof.
  intros Hrp Hlo Hhi Hi.
  pose proof (range_perm_mid lo hi v v' ltac:(lia) Hrp) as Hmid.
  assert (Hin : x ∈ take (hi - lo) (drop lo v')).
  { apply (list_elem_of_lookup_2 _ (i - lo)). rewrite lookup_mid.
    case_decide; [|lia]. rewrite <- Hi. f_equal. lia. }
  rewrite <- Hmid in Hin. apply list_elem_of_lookup_1 in Hin as [j Hj].
  rewrite lookup_mid in Hj. case_decide; [|discriminate].
  exists (lo + j). split; [lia|]. split; [lia | exact Hj].
Qed.

Lemma range_perm_forall (P : A -> Prop) (lo hi : nat) (v v' : list A) :
  range_perm lo hi v v' ->
  (forall i x, lo <= i -> i < hi -> v !! i = Some x -> P x) ->
  forall i x, lo <= i -> i < hi -> v' !! i = Some x -> P x.
Proof.
  intros Hrp HP i x Hlo Hhi Hi.
  destruct (range_perm_in lo hi v v' i x Hrp Hlo Hhi Hi) as (j & Hj1 & Hj2 & Hj).
  eapply HP; eassumption.
Qed.

(** *** std::iter_swap *)

Lemma iter_swap_some (v : list A) (a b : nat) (x y : A) :
  v !! a = Some x -> v !! b = Some y ->
  iter_swap v a b = Some (<[b := x]> (<[a := y]> v)).
Proof. intros Ha Hb. unfold iter_swap. now rewrite Ha, Hb. Qed.

Lemma swap_lookup (v : list A) (a b i : nat) (x y : A) :
  v !! a = Some x -> v !! b = Some y ->
  <[b := x]> (<[a := y]> v) !! i
  = if decide (i = b) then Some x else if decide (i = a) then Some y else v !! i.
Proof.
  intros Ha Hb. pose proof (lookup_lt_Some _ _ _ Ha). pose proof (lookup_lt_Some _ _ _ Hb).
  destruct (decide (i = b)) as [->|Hib].
  - apply list_lookup_insert_eq. now rewrite length_insert.
  - rewrite list_lookup_insert_ne by congruence.
    destruct (decide (i = a)) as [->|Hia].
    + now apply list_lookup_insert_eq.
    + now rewrite list_lookup_insert_ne by congruence.
Qed.

Lemma swap_range_perm (v : list A) (lo hi a b : nat) (x y : A) :
  v !! a = Some x -> v !! b = Some y -> lo <= a < hi -> lo <= b < hi ->
  range_perm lo hi v (<[b := x]> (<[a := y]> v)).
Proof.
  intros Ha Hb Hra Hrb. split.
  - symmetry. now apply Permutation_insert_swap.
  - intros i Hi. rewrite (swap_lookup v a b i x y Ha Hb).
    repeat case_decide; try lia. reflexivity.
Qed.

(** *** __move_median_to_first *)

(** The element moved to [result] is one of the three, and another of
    the three does not compare before it. *)
Lemma move_median_to_first_spec (v : list A) (result a b c : nat) (vr va vb vc : A) :
  v !! result = Some vr -> v !! a = Some va -> v !! b = Some vb -> v !! c = Some vc ->
  a <> b -> a <> c -> b <> c ->
  exists m k vm vk,
    (m = a \/ m = b \/ m = c) /\ (k = a \/ k = b \/ k = c) /\
    v !! m = Some vm /\ v !! k = Some vk /\ m <> k /\ comp vk vm = false /\
    move_median_to_first comp v result a b c = Some (<[m := vr]> (<[result := vm]> v)).
Proof.
  intros Hr Ha Hb Hc Hab' Hac' Hbc'. unfold move_median_to_first.
  rewrite Ha, Hb, Hc. cbn.
  destruct (comp va vb) eqn:Hab; [destruct (comp vb vc) eqn:Hbc;
    [|destruct (comp va vc) eqn:Hac]
   |destruct (comp va vc) eqn:Hac; [|destruct (comp vb vc) eqn:Hbc]].
  - exists b, c, vb, vc. rewrite (iter_swap_some v result b vr vb Hr Hb).
    repeat split; auto using comp_asym.
  - exists c, b, vc, vb. rewrite (iter_swap_some v result c vr vc Hr Hc).
    repeat split; auto using comp_asym.
  - exists a, b, va, vb. rewrite (iter_swap_some v result a vr va Hr Ha).
    repeat split; auto using comp_asym.
  - exists a, c, va, vc. rewrite (iter_swap_some v result a vr va Hr Ha).
    repeat split; auto using comp_asym.
  - exists c, a, vc, va. rewrite (iter_swap_some v result c vr vc Hr Hc).
    repeat split; auto using comp_asym.
  - exists b, a, vb, va. rewrite (iter_swap_some v result b vr vb Hr Hb).
    repeat split; auto using comp_asym.
Qed.

(** *** __unguarded_partition *)

(** The upward scan stops at the first element that does not compare
    before the pivot; one such element is enough to keep it inside the
    vector. *)
Lemma skip_before_spec (pivot : A) (v : list A) (first k : nat) (s : A) :
  first <= k -> v !! k = Some s -> comp s pivot = false ->
  exists first' x,
    skip_before comp pivot (drop first v) first = Some first' /\
    first <= first' /\ first' <= k /\ v !! first' = Some x /\ comp x pivot = false /\
    forall i y, first <= i -> i < first' -> v !! i = Some y -> comp y pivot = true.
Proof.
  intros Hle Hk Hs. remember (k - first) as n eqn:Hn.
  revert first Hle Hn. induction n as [|n IH]; intros first Hle Hn.
  - assert (first = k) by lia. subst first.
    rewrite (drop_S v s k Hk). simpl. rewrite Hs.
    exists k, s. repeat split; auto. intros i y H1 H2. lia.
  - destruct (v !! first) as [x|] eqn:Hx.
    2:{ apply lookup_ge_None in Hx. apply lookup_lt_Some in Hk. lia. }
    rewrite (drop_S v x first Hx). simpl.
    destruct (comp x pivot) eqn:Hc.
    + destruct (IH (S first) ltac:(lia) ltac:(lia)) as (first' & x' & Hskip & H1 & H2 & H3 & H4 & H5).
      exists first', x'. repeat split; auto; try lia.
      intros i y Hi1 Hi2 Hi. destruct (decide (i = first)) as [->|Hne].
      * congruence.
      * apply (H5 i y); [lia|lia|exact Hi].
    + exists first, x. repeat split; auto; try lia.
Qed.

(** The downward scan stops at the first element that the pivot does not
    compare before. *)
Lemma skip_behind_spec (v : list A) (pivot : A) (last k : nat) (s : A) :
  k <= last -> last < length v -> v !! k = Some s -> comp pivot s = false ->
  exists last' x,
    skip_behind comp v pivot last = Some last' /\
    k <= last' /\ last' <= last /\ v !! last' = Some x /\ comp pivot x = false /\
    forall i y, last' < i -> i <= last -> v !! i = Some y -> comp pivot y = true.
Proof.
  intros Hle Hlen Hk Hs. induction last as [|last IH].
  - assert (k = 0) by lia. subst k. simpl. rewrite Hk. simpl. rewrite Hs.
    exists 0, s. repeat split; auto. intros i y H1 H2. lia.
  - destruct (lookup_lt_is_Some_2 v (S last) Hlen) as [x Hx].
    cbn [skip_behind]. rewrite Hx. cbn.
    destruct (comp pivot x) eqn:Hc.
    + assert (Hne : k <> S last) by (intros ->; congruence).
      destruct (IH ltac:(lia) ltac:(lia)) as (last' & x' & Hskip & H1 & H2 & H3 & H4 & H5).
      exists last', x'. repeat split; auto.
      intros i y Hi1 Hi2 Hi. destruct (decide (i = S last)) as [->|Hne'].
      * congruence.
      * apply (H5 i y); [lia|lia|exact Hi].
    + exists (S last), x. repeat split; auto. intros i y H1 H2. lia.
Qed.

(** The partition loop, entered with the two scans at [first] and
    [last]: the elements below [first] are not after the pivot, those
    from [last] on are not before it. *)
Lemma unguarded_partition_spec (fuel : nat) (v : list A) (lo hi first last pivot : nat)
    (p : A) :
  pivot < lo -> lo <= first -> first <= last -> last <= hi -> hi <= length v ->
  hi - first < fuel ->
  v !! pivot = Some p ->
  (exists k s, first <= k /\ k < hi /\ v !! k = Some s /\ comp s p = false) ->
  (forall i x, lo <= i -> i < first -> v !! i = Some x -> comp p x = false) ->
  (forall i x, last <= i -> i < hi -> v !! i = Some x -> comp x p = false) ->
  exists v' cut,
    unguarded_partition comp fuel v first last pivot = Some (v', cut) /\
    range_perm lo hi v v' /\ lo <= cut /\ cut < hi /\
    (forall i x, lo <= i -> i < cut -> v' !! i = Some x -> comp p x = false) /\
    (forall i x, cut <= i -> i < hi -> v' !! i = Some x -> comp x p = false).
Proof.
  revert v first last. induction fuel as [|fuel IH];
    intros v first last Hpv Hlo Hfl Hlh Hhi Hfuel Hp Hsent Hleft Hright; [lia|].
  destruct Hsent as (k & s & Hk1 & Hk2 & Hk & Hs).
  cbn [unguarded_partition]. rewrite Hp. cbn [mbind option_bind].
  (* the sentinel may be taken below [last] or at [last] *)
  assert (Hsent' : exists k s, first <= k /\ k <= last /\ k < hi /\ v !! k = Some s
                                /\ comp s p = false).
  { destruct (decide (k <= last)) as [Hkl|Hkl]; [exists k, s; auto|].
    destruct (lookup_lt_is_Some_2 v last ltac:(lia)) as [y Hy].
    exists last, y. repeat split; [lia|lia|lia|exact Hy|].
    apply (Hright last y); [lia|lia|exact Hy]. }
  clear k s Hk1 Hk2 Hk Hs. destruct Hsent' as (k & s & Hk1 & Hk2 & Hk3 & Hk & Hs).
  destruct (skip_before_spec p v first k s Hk1 Hk Hs)
    as (first' & x & -> & Hf1 & Hf2 & Hx & Hcx & Hskipped). cbn [mbind option_bind].
  destruct last as [|last]; [lia|].
  destruct (skip_behind_spec v p last pivot p ltac:(lia) ltac:(lia) Hp (comp_irrefl p))
    as (last' & y & -> & Hl1 & Hl2 & Hy & Hcy & Hskipped'). cbn [mbind option_bind].
  destruct (first' <? last') eqn:Hlt; cbn [negb].
  - apply Nat.ltb_lt in Hlt.
    rewrite (iter_swap_some v first' last' x y Hx Hy). cbn [mbind option_bind].
    set (v1 := <[last' := x]> (<[first' := y]> v)).
    assert (Hv1 : forall i, v1 !! i = if decide (i = last') then Some x
                                      else if decide (i = first') then Some y else v !! i)
      by (intros i; apply swap_lookup; assumption).
    destruct (IH v1 (S first') last') as (v' & cut & Hpart & Hrp & Hc1 & Hc2 & Hl & Hr);
      try lia.
    + unfold v1. rewrite !length_insert. lia.
    + rewrite Hv1. repeat case_decide; try lia. exact Hp.
    + exists last', x. rewrite Hv1. case_decide; [|lia]. repeat split; auto; lia.
    + intros i z Hi1 Hi2. rewrite Hv1. repeat case_decide; try lia.
      * intros [= <-]. exact Hcy.
      * intros Hz. destruct (decide (i < first)) as [Hlt'|Hge].
        -- now apply (Hleft i z).
        -- apply comp_asym. apply (Hskipped i z); [lia|lia|exact Hz].
    + intros i z Hi1 Hi2. rewrite Hv1. repeat case_decide; try lia.
      * intros [= <-]. exact Hcx.
      * intros Hz. destruct (decide (S last <= i)) as [Hge|Hlt'].
        -- now apply (Hright i z).
        -- apply comp_asym. apply (Hskipped' i z); [lia|lia|exact Hz].
    + destruct Hrp as [Hperm Hout].
      exists v', cut. rewrite Hpart. split; [reflexivity|]. split.
      { split.
        - rewrite <- Hperm. unfold v1. symmetry. now apply Permutation_insert_swap.
        - intros i Hi. rewrite (Hout i Hi), Hv1. repeat case_decide; try lia.
          reflexivity. }
      split; [lia|]. split; [lia|]. split; assumption.
  - apply Nat.ltb_ge in Hlt.
    exists v, first'. split; [reflexivity|]. split; [apply range_perm_refl|].
    split; [lia|]. split; [lia|]. split.
    + intros i z Hi1 Hi2 Hz. destruct (decide (i < first)) as [Hlt'|Hge].
      * now apply (Hleft i z).
      * apply comp_asym. apply (Hskipped i z); [lia|lia|exact Hz].
    + intros i z Hi1 Hi2 Hz.
      destruct (decide (i = first')) as [->|Hne]; [congruence|].
      destruct (decide (S last <= i)) as [Hge|Hlt'].
      * now apply (Hright i z).
      * apply comp_asym. apply (Hskipped' i z); [lia|lia|exact Hz].
Qed.

(** *** __unguarded_partition_pivot *)

Lemma unguarded_partition_pivot_spec (v : list A) (first last : nat) :
  last <= length v -> 4 <= last - first ->
  exists v' cut,
    unguarded_partition_pivot comp v first last = Some (v', cut) /\
    range_perm first last v v' /\ first < cut /\ cut < last /\
    split_range comp first cut last v'.
Proof.
  intros Hlen Hn. unfold unguarded_partition_pivot.
  set (mid := first + (last - first) / 2).
  assert (Hmid : first + 2 <= mid /\ mid < last - 1).
  { unfold mid. split.
    - assert (2 <= (last - first) / 2) by (apply Nat.div_le_lower_bound; lia). lia.
    - assert ((last - first) / 2 < last - first - 1)
        by (apply Nat.Div0.div_lt_upper_bound; lia). lia. }
  destruct (lookup_lt_is_Some_2 v first ltac:(lia)) as [vr Hr].
  destruct (lookup_lt_is_Some_2 v (first + 1) ltac:(lia)) as [va Ha].
  destruct (lookup_lt_is_Some_2 v mid ltac:(lia)) as [vb Hb].
  destruct (lookup_lt_is_Some_2 v (last - 1) ltac:(lia)) as [vc Hc].
  destruct (move_median_to_first_spec v first (first + 1) mid (last - 1) vr va vb vc
              Hr Ha Hb Hc ltac:(lia) ltac:(lia) ltac:(lia))
    as (m & k & vm & vk & Hm & Hk & Hvm & Hvk & Hmk & Hcomp & ->).
  cbn [mbind option_bind].
  set (v1 := <[m := vr]> (<[first := vm]> v)).
  assert (Hv1 : forall i, v1 !! i = if decide (i = m) then Some vr
                                    else if decide (i = first) then Some vm else v !! i)
    by (intros i; apply swap_lookup; assumption).
  assert (Hlen1 : last <= length v1) by (unfold v1; rewrite !length_insert; lia).
  assert (Hp1 : v1 !! first = Some vm).
  { rewrite Hv1. repeat case_decide; try lia. reflexivity. }
  assert (Hsent : exists k s, first + 1 <= k /\ k < last /\ v1 !! k = Some s
                              /\ comp s vm = false).
  { exists k, vk. rewrite Hv1. repeat case_decide; try lia. repeat split; auto; lia. }
  destruct (unguarded_partition_spec (last - first) v1 (first + 1) last (first + 1) last
              first vm ltac:(lia) ltac:(lia) ltac:(lia) ltac:(lia) Hlen1 ltac:(lia)
              Hp1 Hsent ltac:(intros; lia) ltac:(intros; lia))
    as (v' & cut & -> & Hrp & Hc1 & Hc2 & Hl & Hrt).
  exists v', cut. split; [reflexivity|]. split.
    { eapply range_perm_trans.
      - apply (swap_range_perm v first last first m vr vm Hr Hvm); lia.
      - eapply range_perm_weaken; [| |exact Hrp]; lia. }
    split; [lia|]. split; [lia|].
    intros i j x y Hi1 Hi2 Hj1 Hj2 Hx Hy.
    apply (comp_negtrans y vm x).
    + now apply (Hrt j y).
    + destruct (decide (i = first)) as [->|Hne].
      * destruct Hrp as [_ Hout]. rewrite (Hout first ltac:(lia)), Hv1 in Hx.
        repeat case_decide; try lia. injection Hx as <-. apply comp_irrefl.
      * apply (Hl i x); [lia|lia|exact Hx].
Qed.

(** *** Insertion sort *)

Lemma lookup_move_to_first (v : list A) (first i j : nat) (val : A) :
  first <= i -> i < length v ->
  move_to_first v first i val !! j
  = if decide (j < first) then v !! j
    else if decide (j = first) then Some val
    else if decide (j <= i) then v !! (j - 1) else v !! j.
Proof.
  intros Hfi Hlen. unfold move_to_first.
  assert (Hlt : length (take first v) = first) by (rewrite length_take; lia).
  destruct (decide (j < first)) as [Hj|Hj].
  { rewrite lookup_app_l by lia. now apply lookup_take_lt. }
  rewrite lookup_app_r by lia. rewrite Hlt.
  destruct (decide (j = first)) as [->|Hne].
  { now rewrite Nat.sub_diag. }
  destruct (j - first) as [|d] eqn:Hd; [lia|]. simpl.
  assert (Hlm : length (take (i - first) (drop first v)) = i - first).
  { rewrite length_take, length_drop. lia. }
  destruct (decide (j <= i)) as [Hji|Hji].
  - rewrite lookup_app_l by lia. rewrite lookup_take_lt by lia.
    rewrite lookup_drop. f_equal. lia.
  - rewrite lookup_app_r by lia. rewrite Hlm, lookup_drop. f_equal. lia.
Qed.

Lemma move_to_first_perm (v : list A) (first i : nat) (val : A) :
  first <= i -> v !! i = Some val -> Permutation v (move_to_first v first i val).
Proof.
  intros Hfi Hi. unfold move_to_first.
  rewrite (range_split first i v Hfi) at 1.
  rewrite (drop_S v val i Hi).
  apply Permutation_app_head. symmetry. apply Permutation_middle.
Qed.

Lemma move_to_first_range_perm (v : list A) (lo first i : nat) (val : A) :
  lo <= first -> first <= i -> v !! i = Some val ->
  range_perm lo (S i) v (move_to_first v first i val).
Proof.
  intros Hlo Hfi Hi. split; [now apply move_to_first_perm|].
  intros j Hj. rewrite lookup_move_to_first by (try lia; eapply lookup_lt_Some; eauto).
  repeat case_decide; try lia; reflexivity.
Qed.

(** The loop of __unguarded_linear_insert stops behind the last element
    that [val] does not compare before; with such an element at or
    behind [lo] it stays above [lo]. *)
Lemma unguarded_linear_insert_loop_spec (v : list A) (val : A) (lo last k : nat) (s : A) :
  lo <= k -> k < last -> last < length v -> v !! k = Some s -> comp val s = false ->
  exists pos t,
    unguarded_linear_insert_loop comp v val last = Some (move_to_first v pos last val) /\
    k < pos /\ pos <= last /\ v !! (pos - 1) = Some t /\ comp val t = false /\
    forall j y, pos <= j -> j < last -> v !! j = Some y -> comp val y = true.
Proof.
  intros Hlo. revert v. induction last as [|next IH]; intros v Hk Hlen Hs Hc; [lia|].
  cbn [unguarded_linear_insert_loop].
  destruct (lookup_lt_is_Some_2 v next ltac:(lia)) as [x Hx]. rewrite Hx.
  cbn [mbind option_bind].
  destruct (comp val x) eqn:Hvx.
  - assert (Hne : k <> next) by (intros ->; congruence).
    destruct (IH (<[S next := x]> v)) as (pos & t & -> & Hp1 & Hp2 & Ht & Hct & Hall).
    + lia.
    + rewrite length_insert. lia.
    + rewrite list_lookup_insert_ne by lia. exact Hs.
    + exact Hc.
    + exists pos, t. split; [|split; [lia|split; [lia|split; [|split; [exact Hct|]]]]].
      * f_equal. apply list_eq. intros j.
        rewrite !lookup_move_to_first by (rewrite ?length_insert; lia).
        repeat case_decide; try lia; try reflexivity.
        -- apply list_lookup_insert_ne. lia.
        -- apply list_lookup_insert_ne. lia.
        -- assert (j = S next) by lia. subst j.
           rewrite list_lookup_insert_eq by lia. rewrite <- Hx. f_equal. lia.
        -- apply list_lookup_insert_ne. lia.
      * rewrite list_lookup_insert_ne in Ht by lia. exact Ht.
      * intros j y Hj1 Hj2 Hy. destruct (decide (j = next)) as [->|Hjn]; [congruence|].
        apply (Hall j y); [lia|lia|]. rewrite list_lookup_insert_ne by lia. exact Hy.
  - exists (S next), x. split; [|split; [lia|split; [lia|split; [|split; [exact Hvx|]]]]].
    + f_equal. unfold move_to_first. rewrite Nat.sub_diag. simpl.
      now apply insert_take_drop.
    + rewrite <- Hx. f_equal. lia.
    + intros j y H1 H2. lia.
Qed.

(** Inserting the element at [i] into the sorted places before it. *)
Lemma unguarded_linear_insert_spec (v : list A) (lo i k : nat) (s val : A) :
  sorted_range comp lo i v -> v !! i = Some val ->
  lo <= k -> k < i -> v !! k = Some s -> comp val s = false ->
  exists v',
    unguarded_linear_insert comp v i = Some v' /\
    range_perm lo (S i) v v' /\ sorted_range comp lo (S i) v'.
Proof.
  intros Hsorted Hi Hlo Hki Hk Hs. unfold unguarded_linear_insert. rewrite Hi.
  cbn [mbind option_bind].
  pose proof (lookup_lt_Some _ _ _ Hi) as Hlen.
  destruct (unguarded_linear_insert_loop_spec v val lo i k s Hlo Hki Hlen Hk Hs)
    as (pos & t & -> & Hp1 & Hp2 & Ht & Hct & Hall).
  eexists. split; [reflexivity|]. split.
  { apply move_to_first_range_perm; [lia|lia|exact Hi]. }
  intros j1 j2 x y Hj1 Hj12 Hj2.
  rewrite !lookup_move_to_first by lia.
  repeat case_decide; try lia.
  - intros Hx Hy. eapply Hsorted; [| | |exact Hx|exact Hy]; lia.
  - intros Hx [= <-]. subst j2.
    destruct (decide (j1 = pos - 1)) as [->|Hne]; [congruence|].
    apply (comp_negtrans val t x); [exact Hct|].
    eapply (Hsorted j1 (pos - 1)); [| | |exact Hx|exact Ht]; lia.
  - intros Hx Hy. eapply (Hsorted j1 (j2 - 1)); [| | |exact Hx|exact Hy]; lia.
  - intros [= <-] Hy. apply comp_asym. apply (Hall (j2 - 1) y); [lia|lia|exact Hy].
  - intros Hx Hy. eapply (Hsorted (j1 - 1) (j2 - 1)); [| | |exact Hx|exact Hy]; lia.
Qed.

Lemma sorted_range_move_to_first (v : list A) (first i : nat) (x y : A) :
  sorted_range comp first i v -> first < i ->
  v !! i = Some x -> v !! first = Some y -> comp x y = true ->
  sorted_range comp first (S i) (move_to_first v first i x).
Proof.
  intros Hsorted Hfi Hx Hy Hxy j1 j2 a b Hj1 Hj12 Hj2.
  pose proof (lookup_lt_Some _ _ _ Hx) as Hlen.
  rewrite !lookup_move_to_first by lia.
  repeat case_decide; try lia.
  - intros [= <-] Hb.
    destruct (comp b x) eqn:Hbx; [|reflexivity].
    assert (Hby : comp b y = true) by (eapply comp_trans; eassumption).
    destruct (decide (j2 - 1 = first)) as [Heq|Hne].
    + rewrite Heq in Hb. rewrite Hy in Hb. injection Hb as <-.
      now rewrite comp_irrefl in Hby.
    + rewrite <- Hby.
      eapply (Hsorted first (j2 - 1)); [| | |exact Hy|exact Hb]; lia.
  - intros Ha Hb. eapply (Hsorted (j1 - 1) (j2 - 1)); [| | |exact Ha|exact Hb]; lia.
Qed.

(** The loop of __insertion_sort, entered at [i] with the places from
    [first] up to [i] sorted. *)
Lemma insertion_sort_loop_spec (n : nat) (v : list A) (first i : nat) :
  first < i -> i + n <= length v -> sorted_range comp first i v ->
  exists v',
    insertion_sort_loop comp v first i n = Some v' /\
    range_perm first (i + n) v v' /\ sorted_range comp first (i + n) v'.
Proof.
  revert v i. induction n as [|n IH]; intros v i Hfi Hlen Hsorted.
  - exists v. rewrite Nat.add_0_r. split; [reflexivity|].
    split; [apply range_perm_refl | exact Hsorted].
  - cbn [insertion_sort_loop].
    destruct (lookup_lt_is_Some_2 v i ltac:(lia)) as [x Hx].
    destruct (lookup_lt_is_Some_2 v first ltac:(lia)) as [y Hy].
    rewrite Hx, Hy. cbn [mbind option_bind].
    assert (Hstep : exists v1,
               (if comp x y then Some (move_to_first v first i x)
                else unguarded_linear_insert comp v i) = Some v1 /\
               range_perm first (S i) v v1 /\ sorted_range comp first (S i) v1).
    { destruct (comp x y) eqn:Hxy.
      - eexists. split; [reflexivity|]. split.
        + apply move_to_first_range_perm; [lia|lia|exact Hx].
        + now apply (sorted_range_move_to_first v first i x y).
      - apply (unguarded_linear_insert_spec v first i first y x); auto. }
    destruct Hstep as (v1 & -> & Hrp1 & Hs1). cbn [mbind option_bind].
    pose proof (range_perm_length _ _ _ _ Hrp1) as Hlen1.
    destruct (IH v1 (S i) ltac:(lia) ltac:(lia) Hs1) as (v' & -> & Hrp & Hs').
    exists v'. split; [reflexivity|]. rewrite <- Nat.add_succ_comm. split; [|exact Hs'].
    eapply range_perm_trans; [|exact Hrp].
    eapply range_perm_weaken; [| |exact Hrp1]; lia.
Qed.

Lemma insertion_sort_spec (v : list A) (first last : nat) :
  first <= last -> last <= length v ->
  exists v',
    insertion_sort comp v first last = Some v' /\
    range_perm first last v v' /\ sorted_range comp first last v'.
Proof.
  intros Hfl Hlen. unfold insertion_sort.
  destruct (first =? last) eqn:Heq.
  - apply Nat.eqb_eq in Heq. subst last. exists v. split; [reflexivity|].
    split; [apply range_perm_refl|]. intros i j x y H1 H2 H3. lia.
  - apply Nat.eqb_neq in Heq.
    destruct (insertion_sort_loop_spec (last - (first + 1)) v first (first + 1))
      as (v' & -> & Hrp & Hs); [lia|lia| |].
    + intros i j x y H1 H2 H3. lia.
    + replace (first + 1 + (last - (first + 1))) with last in * by lia.
      exists v'. auto.
Qed.

Lemma guarded_range_perm (lo from hi m : nat) (v v' : list A) :
  lo <= m -> m <= from -> range_perm lo m v v' ->
  guarded_range comp lo from hi v -> guarded_range comp lo from hi v'.
Proof.
  intros Hlo Hm Hrp Hg i x Hi1 Hi2 Hx.
  destruct Hrp as [Hperm Hout].
  rewrite (Hout i ltac:(lia)) in Hx.
  destruct (Hg i x Hi1 Hi2 Hx) as (j & y & Hj1 & Hj2 & Hy & Hc).
  destruct (decide (j < m)) as [Hjm|Hjm].
  - destruct (range_perm_in lo m v' v j y) as (j' & H1 & H2 & H3); auto.
    { apply range_perm_sym. now split. }
    exists j', y. repeat split; auto; lia.
  - exists j, y. rewrite (Hout j ltac:(lia)). repeat split; auto.
Qed.

(** __unguarded_insertion_sort, entered at [first] with the places from
    [lo] up to [first] sorted. *)
Lemma unguarded_insertion_sort_spec (n : nat) (v : list A) (lo first : nat) :
  lo <= first -> first + n <= length v ->
  sorted_range comp lo first v -> guarded_range comp lo first (first + n) v ->
  exists v',
    unguarded_insertion_sort comp v first n = Some v' /\
    range_perm lo (first + n) v v' /\ sorted_range comp lo (first + n) v'.
Proof.
  revert v first. induction n as [|n IH]; intros v first Hlo Hlen Hsorted Hguard.
  - exists v. rewrite Nat.add_0_r. split; [reflexivity|].
    split; [apply range_perm_refl | exact Hsorted].
  - cbn [unguarded_insertion_sort].
    destruct (lookup_lt_is_Some_2 v first ltac:(lia)) as [x Hx].
    destruct (Hguard first x ltac:(lia) ltac:(lia) Hx) as (k & s & Hk1 & Hk2 & Hs & Hc).
    destruct (unguarded_linear_insert_spec v lo first k s x Hsorted Hx Hk1 Hk2 Hs Hc)
      as (v1 & -> & Hrp1 & Hs1). cbn [mbind option_bind].
    pose proof (range_perm_length _ _ _ _ Hrp1) as Hlen1.
    destruct (IH v1 (S first) ltac:(lia) ltac:(lia) Hs1) as (v' & -> & Hrp & Hs').
    + apply (guarded_range_perm lo (S first) (S first + n) (S first) v v1);
        [lia|lia|exact Hrp1|].
      intros i y Hi1 Hi2. apply Hguard; lia.
    + exists v'. split; [reflexivity|]. rewrite <- Nat.add_succ_comm. split; [|exact Hs'].
      eapply range_perm_trans; [|exact Hrp].
      eapply range_perm_weaken; [| |exact Hrp1]; lia.
Qed.

Lemma final_insertion_sort_spec (v : list A) (first last : nat) :
  first <= last -> last <= length v ->
  guarded_range comp first (first + S_threshold) last v ->
  exists v',
    final_insertion_sort comp v first last = Some v' /\
    range_perm first last v v' /\ sorted_range comp first last v'.
Proof.
  intros Hfl Hlen Hguard. unfold final_insertion_sort.
  destruct (S_threshold <? last - first) eqn:Hth.
  - apply Nat.ltb_lt in Hth.
    destruct (insertion_sort_spec v first (first + S_threshold))
      as (v1 & -> & Hrp1 & Hs1); [lia|lia|]. cbn [mbind option_bind].
    pose proof (range_perm_length _ _ _ _ Hrp1) as Hlen1.
    destruct (unguarded_insertion_sort_spec (last - (first + S_threshold)) v1 first
                (first + S_threshold)) as (v' & -> & Hrp & Hs'); [lia|lia|exact Hs1| |].
    + replace (first + S_threshold + (last - (first + S_threshold))) with last by lia.
      apply (guarded_range_perm first (first + S_threshold) last (first + S_threshold) v v1);
        [lia|lia|exact Hrp1|exact Hguard].
    + replace (first + S_threshold + (last - (first + S_threshold))) with last in * by lia.
      exists v'. split; [reflexivity|]. split; [|exact Hs'].
      eapply range_perm_trans; [|exact Hrp].
      eapply range_perm_weaken; [| |exact Hrp1]; lia.
  - apply insertion_sort_spec; assumption.
Qed.

(** *** The heap *)

Lemma lookup_insert_in (v : list A) (i j : nat) (x : A) :
  i < length v -> <[i := x]> v !! j = if decide (j = i) then Some x else v !! j.
Proof.
  intros Hi. case_decide.
  - subst j. now apply list_lookup_insert_eq.
  - apply list_lookup_insert_ne. congruence.
Qed.

(** Moving the element at [c] into the hole at [h] moves the hole to
    [c]. *)
Lemma move_hole_perm (v : list A) (h c : nat) (z value : A) :
  h < length v -> v !! c = Some z -> h <> c ->
  Permutation (<[h := value]> v) (<[c := value]> (<[h := z]> v)).
Proof.
  intros Hh Hc Hne.
  rewrite <- (list_insert_insert_eq v h z value).
  symmetry. apply Permutation_insert_swap.
  - now apply list_lookup_insert_eq.
  - rewrite list_lookup_insert_ne by exact Hne. exact Hc.
Qed.

Lemma heap_path_ge (top h : nat) : heap_path top h -> top <= h.
Proof.
  induction 1 as [|h c Hp IH Hc Hpar]; [lia|].
  assert ((c - 1) / 2 < c) by (apply Nat.Div0.div_lt_upper_bound; lia). lia.
Qed.

Lemma heap_path_parent (top h : nat) :
  heap_path top h -> h <> top ->
  0 < h /\ top <= (h - 1) / 2 /\ (h - 1) / 2 < h /\ heap_path top ((h - 1) / 2).
Proof.
  intros Hp Hne. destruct Hp as [|h' c Hp Hc Hpar]; [contradiction|].
  subst h'. split; [exact Hc|]. split; [now apply heap_path_ge|].
  split; [apply Nat.Div0.div_lt_upper_bound; lia | exact Hp].
Qed.

Lemma heap_from_weaken (first len top top' : nat) (v : list A) :
  top <= top' -> heap_from comp first len top v -> heap_from comp first len top' v.
Proof. intros Hle Hh i x y H1 H2 H3. apply Hh; lia. Qed.

(** The root of a heap does not compare before any of its elements. *)
Lemma heap_root (first len : nat) (v : list A) (r : A) :
  first + len <= length v -> heap_from comp first len 0 v -> v !! first = Some r ->
  forall i y, i < len -> v !! (first + i) = Some y -> comp r y = false.
Proof.
  intros Hlen Hheap Hr i. induction i as [i IH] using lt_wf_ind. intros y Hi Hy.
  destruct (decide (i = 0)) as [->|Hne].
  - rewrite Nat.add_0_r, Hr in Hy. injection Hy as <-. apply comp_irrefl.
  - assert (Hp : (i - 1) / 2 < i) by (apply Nat.Div0.div_lt_upper_bound; lia).
    destruct (lookup_lt_is_Some_2 v (first + (i - 1) / 2) ltac:(lia)) as [x Hx].
    apply (comp_negtrans r x y).
    + apply (IH ((i - 1) / 2)); [lia|lia|exact Hx].
    + apply (Hheap i x y); [lia|lia|lia|exact Hx|exact Hy].
Qed.

(** __push_heap: the value climbs from the hole towards [top] past the
    elements that compare before it. *)
Lemma push_heap_spec (fuel : nat) (v : list A) (first len top hole : nat) (value : A) :
  heap_path top hole -> hole < len -> first + len <= length v -> hole <= fuel ->
  heap_from comp first len top v ->
  (forall c y, 0 < c -> c < len -> (c - 1) / 2 = hole ->
               v !! (first + c) = Some y -> comp value y = false) ->
  exists v',
    push_heap comp fuel v first hole top value = Some v' /\
    heap_from comp first len top v' /\
    Permutation (<[first + hole := value]> v) v' /\
    (forall i, i < first \/ first + len <= i -> v' !! i = v !! i).
Proof.
  revert v hole. induction fuel as [|fuel IH];
    intros v hole Hpath Hhole Hlen Hfuel Hheap Hchildren.
  - assert (hole = 0) by lia. subst hole.
    pose proof (heap_path_ge _ _ Hpath). assert (top = 0) by lia. subst top.
    cbn [push_heap]. change (0 <? 0) with false. cbv iota.
    eexists. split; [reflexivity|]. split; [|split; [reflexivity|]].
    + intros i x y Hi1 Hi2 Hi3.
           pose proof (heap_parent_lt i Hi1) as Hpi.
      rewrite !lookup_insert_in by lia. repeat case_decide; try lia.
      * intros [= <-] Hy. apply (Hchildren i y); [lia|lia|lia|exact Hy].
      * now apply Hheap.
    + intros i Hi. apply list_lookup_insert_ne. lia.
  - cbn [push_heap]. destruct (top <? hole) eqn:Hth.
    + apply Nat.ltb_lt in Hth.
      destruct (heap_path_parent top hole Hpath ltac:(lia)) as (Hh0 & Hp1 & Hp2 & Hppath).
      set (parent := (hole - 1) / 2) in *.
      destruct (lookup_lt_is_Some_2 v (first + parent) ltac:(lia)) as [x Hx].
      destruct (lookup_lt_is_Some_2 v (first + hole) ltac:(lia)) as [stale Hstale].
      rewrite Hx. cbn [mbind option_bind].
      destruct (comp x value) eqn:Hxv.
      * destruct (IH (<[first + hole := x]> v) parent) as (v' & -> & Hheap' & Hperm & Hout).
        -- exact Hppath.
        -- lia.
        -- rewrite length_insert. lia.
        -- lia.
        -- intros i a b Hi1 Hi2 Hi3.
           pose proof (heap_parent_lt i Hi1) as Hpi.
           rewrite !lookup_insert_in by lia. repeat case_decide; try lia.
           ++ intros [= <-] Hb. apply (comp_negtrans x stale b).
              ** apply (Hheap hole x stale); [lia|lia|lia|exact Hx|exact Hstale].
              ** apply (Hheap i stale b); [lia|lia|lia| |exact Hb].
                 rewrite <- Hstale. f_equal. lia.
           ++ intros Ha [= <-]. assert (i = hole) by lia. subst i.
              fold parent in Ha. rewrite Hx in Ha. injection Ha as <-. apply comp_irrefl.
           ++ now apply Hheap.
        -- intros c y Hc1 Hc2 Hc3. rewrite lookup_insert_in by lia. case_decide.
           ++ intros [= <-]. now apply comp_asym.
           ++ intros Hy. destruct (comp value y) eqn:Hvy; [|reflexivity].
              assert (Hxy : comp x y = true) by (eapply comp_trans; eassumption).
              rewrite <- Hxy. apply (Hheap c x y); [lia|lia|lia| |exact Hy].
              rewrite <- Hx. f_equal. lia.
        -- exists v'. split; [reflexivity|]. split; [exact Hheap'|]. split.
           ++ rewrite <- Hperm. apply move_hole_perm; [lia|exact Hx|lia].
           ++ intros i Hi. rewrite (Hout i Hi). apply list_lookup_insert_ne. lia.
      * eexists. split; [reflexivity|]. split; [|split; [reflexivity|]].
        -- intros i a b Hi1 Hi2 Hi3.
           pose proof (heap_parent_lt i Hi1) as Hpi.
           rewrite !lookup_insert_in by lia. repeat case_decide; try lia.
           ++ intros [= <-] Hb. apply (Hchildren i b); [lia|lia|lia|exact Hb].
           ++ intros Ha [= <-]. assert (i = hole) by lia. subst i.
              fold parent in Ha. rewrite Hx in Ha. injection Ha as <-. exact Hxv.
           ++ now apply Hheap.
        -- intros i Hi. apply list_lookup_insert_ne. lia.
    + apply Nat.ltb_ge in Hth. pose proof (heap_path_ge _ _ Hpath).
      assert (hole = top) by lia. subst hole.
      eexists. split; [reflexivity|]. split; [|split; [reflexivity|]].
      * intros i a b Hi1 Hi2 Hi3.
           pose proof (heap_parent_lt i Hi1) as Hpi.
        rewrite !lookup_insert_in by lia. repeat case_decide; try lia.
        -- intros [= <-] Hb. apply (Hchildren i b); [lia|lia|lia|exact Hb].
        -- now apply Hheap.
      * intros i Hi. apply list_lookup_insert_ne. lia.
Qed.

(** Heap order from [top] on, except that nothing is asked of [top] and
    its children while the hole is at [top]. *)
Lemma heap_from_hole (first len top hole : nat) (v : list A) :
  heap_from comp first len (if decide (hole = top) then S top else top) v <->
  forall i x y, 0 < i -> i < len -> top <= (i - 1) / 2 ->
    ((i - 1) / 2 = top -> hole <> top) ->
    v !! (first + (i - 1) / 2) = Some x -> v !! (first + i) = Some y ->
    comp x y = false.
Proof.
  split.
  - intros Hheap i x y Hi1 Hi2 Hi3 Hi4. apply Hheap; [lia|lia|].
    destruct (decide (hole = top)); lia.
  - intros H i x y Hi1 Hi2 Hi3. apply H; [lia|lia| |].
    + destruct (decide (hole = top)); lia.
    + destruct (decide (hole = top)); lia.
Qed.

(** The first loop of __adjust_heap: the hole sinks from [hole] to a node
    that has at most one child, each node on its way taking over the
    child that does not compare before the other.  While the hole is at
    [top] nothing is known about [top] and its children. *)
Lemma sink_hole_spec (fuel : nat) (v : list A) (first len top hole : nat) :
  heap_path top hole -> hole < len -> first + len <= length v -> len - hole <= fuel ->
  heap_from comp first len (if decide (hole = top) then S top else top) v ->
  exists v' hole',
    sink_hole comp fuel v first hole hole len = Some (v', hole', hole') /\
    heap_path top hole' /\ hole' < len /\ len <= 2 * hole' + 2 /\
    length v' = length v /\
    heap_from comp first len (if decide (hole' = top) then S top else top) v' /\
    (forall value, Permutation (<[first + hole := value]> v) (<[first + hole' := value]> v')) /\
    (forall i, i < first \/ first + len <= i -> v' !! i = v !! i).
Proof.
  revert v hole. induction fuel as [|fuel IH];
    intros v hole Hpath Hhole Hlen Hfuel Hheap; [lia|].
  cbn [sink_hole]. destruct (hole <? (len - 1) / 2) eqn:Hlt.
  2:{ apply Nat.ltb_ge in Hlt.
      assert (Hleaf : len <= 2 * hole + 2).
      { destruct (decide (len <= 2 * hole + 2)) as [H|H]; [exact H|].
        assert (hole < (len - 1) / 2) by (apply heap_two_children; lia). lia. }
      exists v, hole. split; [reflexivity|].
      split; [exact Hpath|]. split; [exact Hhole|]. split; [exact Hleaf|].
      split; [reflexivity|]. split; [exact Hheap|]. split; [reflexivity|]. auto. }
  assert (Hheap' := proj1 (heap_from_hole first len top hole v) Hheap).
  clear Hheap. rename Hheap' into Hheap.
  apply Nat.ltb_lt, heap_two_children in Hlt.
    replace (2 * (hole + 1)) with (2 * hole + 2) by lia.
    replace (2 * hole + 2 - 1) with (2 * hole + 1) by lia.
    destruct (lookup_lt_is_Some_2 v (first + (2 * hole + 2)) ltac:(lia)) as [x Hx].
    destruct (lookup_lt_is_Some_2 v (first + (2 * hole + 1)) ltac:(lia)) as [y Hy].
    destruct (lookup_lt_is_Some_2 v (first + hole) ltac:(lia)) as [stale Hstale].
    rewrite Hx, Hy. cbn [mbind option_bind].
    set (c := if comp x y then 2 * hole + 1 else 2 * hole + 2).
    assert (Hc : exists z other w,
               v !! (first + c) = Some z /\ (c = 2 * hole + 1 \/ c = 2 * hole + 2) /\
               (other = 2 * hole + 1 \/ other = 2 * hole + 2) /\ other <> c /\
               v !! (first + other) = Some w /\ comp z w = false).
    { unfold c. destruct (comp x y) eqn:Hxy.
      - exists y, (2 * hole + 2), x. repeat split; auto; try lia. now apply comp_asym.
      - exists x, (2 * hole + 1), y. repeat split; auto; lia. }
    destruct Hc as (z & other & w & Hz & Hcc & Hoc & Hne & Hw & Hzw).
    rewrite Hz. cbn [mbind option_bind].
    assert (Hpc : (c - 1) / 2 = hole) by (apply heap_children; lia).
    pose proof (heap_path_ge _ _ Hpath) as Hge.
    destruct (IH (<[first + hole := z]> v) c)
      as (v' & hole' & -> & H1 & H2 & H3 & H4 & H5 & H6 & H7).
    + apply (heap_path_child top hole c Hpath); [lia | exact Hpc].
    + lia.
    + rewrite length_insert. lia.
    + lia.
    + apply (proj2 (heap_from_hole first len top c _)). intros i a b Hi1 Hi2 Hi3 _.
      pose proof (heap_parent_lt i Hi1) as Hpi.
      rewrite !lookup_insert_in by lia.
      destruct (decide (first + (i - 1) / 2 = first + hole)) as [Hph|Hph];
        destruct (decide (first + i = first + hole)) as [Hih|Hih]; try lia.
      * intros [= <-] Hb. assert (Hih' : (i - 1) / 2 = hole) by lia.
        apply heap_children in Hih'; [|exact Hi1].
        assert (Hi : i = c \/ i = other) by lia.
        destruct Hi as [->| ->].
        -- rewrite Hz in Hb. injection Hb as <-. apply comp_irrefl.
        -- rewrite Hw in Hb. injection Hb as <-. exact Hzw.
      * intros Ha [= <-]. assert (i = hole) by lia. subst i.
        apply (comp_negtrans a stale z).
        -- apply (Hheap hole a stale); [lia|lia|lia|lia|exact Ha|exact Hstale].
        -- apply (Hheap c stale z); [lia|lia|lia|lia| |exact Hz].
           rewrite Hpc. exact Hstale.
      * intros Ha Hb. apply (Hheap i a b); [lia|lia|lia|lia|exact Ha|exact Hb].
    + exists v', hole'. split; [reflexivity|]. split; [exact H1|]. split; [exact H2|].
      split; [exact H3|]. split; [now rewrite H4, length_insert|].
      split; [exact H5|]. split.
      * intros value. rewrite <- H6. apply move_hole_perm; [lia|exact Hz|lia].
      * intros i Hi. rewrite (H7 i Hi). apply list_lookup_insert_ne. lia.
Qed.

(** __adjust_heap puts [value] into the heap whose node [holeIndex] is a
    hole: the nodes behind [holeIndex] being in heap order, so are the
    nodes from [holeIndex] on afterwards. *)
Lemma adjust_heap_spec (v : list A) (first len top : nat) (value : A) :
  top < len -> first + len <= length v ->
  heap_from comp first len (S top) v ->
  exists v',
    adjust_heap comp v first top len value = Some v' /\
    heap_from comp first len top v' /\
    Permutation (<[first + top := value]> v) v' /\
    (forall i, i < first \/ first + len <= i -> v' !! i = v !! i).
Proof.
  intros Htop Hlen Hheap. unfold adjust_heap.
  destruct (sink_hole_spec len v first len top top) as
    (v1 & h1 & -> & Hpath1 & Hh1 & Hleaf1 & Hlen1 & Hheap1 & Hperm1 & Hout1).
  { constructor. } { exact Htop. } { exact Hlen. } { lia. }
  { destruct (decide (top = top)); [exact Hheap | contradiction]. }
  cbn [mbind option_bind].
  pose proof (heap_path_ge _ _ Hpath1) as Hge1.
  (* the node with a single child *)
  assert (Hstep : exists v2 h2,
             (if Nat.even len && (Z.of_nat h1 =? Z.quot (Z.of_nat len - 2) 2)%Z
              then x ← v1 !! (first + (2 * (h1 + 1) - 1));
                   Some (<[first + h1 := x]> v1, 2 * (h1 + 1) - 1)
              else Some (v1, h1)) = Some (v2, h2) /\
             heap_path top h2 /\ h2 < len /\ len <= 2 * h2 + 1 /\ length v2 = length v /\
             heap_from comp first len (if decide (h2 = top) then S top else top) v2 /\
             (forall value, Permutation (<[first + top := value]> v)
                              (<[first + h2 := value]> v2)) /\
             (forall i, i < first \/ first + len <= i -> v2 !! i = v !! i)).
  { destruct (Nat.even len && (Z.of_nat h1 =? Z.quot (Z.of_nat len - 2) 2)%Z) eqn:Hcond.
    - apply heap_one_child in Hcond.
      replace (2 * (h1 + 1) - 1) with (2 * h1 + 1) by lia.
      set (c := 2 * h1 + 1).
      destruct (lookup_lt_is_Some_2 v1 (first + c) ltac:(lia)) as [z Hz].
      destruct (lookup_lt_is_Some_2 v1 (first + h1) ltac:(lia)) as [stale Hstale].
      rewrite Hz. cbn [mbind option_bind].
      exists (<[first + h1 := z]> v1), c. split; [reflexivity|].
      assert (Hpc : (c - 1) / 2 = h1) by (apply heap_children; lia).
      split; [apply (heap_path_child top h1 c Hpath1); [lia | exact Hpc]|].
      split; [lia|]. split; [lia|]. split; [now rewrite length_insert|]. split; [|split].
      + apply (proj2 (heap_from_hole first len top c _)).
        assert (Hheap1' := proj1 (heap_from_hole first len top h1 v1) Hheap1).
        clear Hheap1. rename Hheap1' into Hheap1.
        intros i a b Hi1 Hi2 Hi3 _.
        pose proof (heap_parent_lt i Hi1) as Hpi.
        rewrite !lookup_insert_in by lia.
        destruct (decide (first + (i - 1) / 2 = first + h1)) as [Hph|Hph];
          destruct (decide (first + i = first + h1)) as [Hih|Hih]; try lia.
        * intros [= <-] Hb. assert (Hih' : (i - 1) / 2 = h1) by lia.
          apply heap_children in Hih'; [|exact Hi1].
          assert (i = c) by lia. subst i.
          rewrite Hz in Hb. injection Hb as <-. apply comp_irrefl.
        * intros Ha [= <-]. assert (i = h1) by lia. subst i.
          apply (comp_negtrans a stale z).
          -- apply (Hheap1 h1 a stale); [lia|lia|lia|lia|exact Ha|exact Hstale].
          -- apply (Hheap1 c stale z); [lia|lia|lia|lia| |exact Hz].
             rewrite Hpc. exact Hstale.
        * intros Ha Hb. apply (Hheap1 i a b); [lia|lia|lia|lia|exact Ha|exact Hb].
      + intros value0. rewrite (Hperm1 value0).
        apply move_hole_perm; [lia|exact Hz|lia].
      + intros i Hi. rewrite list_lookup_insert_ne by lia. now apply Hout1.
    - exists v1, h1. split; [reflexivity|]. split; [exact Hpath1|]. split; [exact Hh1|].
      split.
      { destruct (decide (len = 2 * h1 + 2)) as [Heq|Hneq]; [|lia].
        apply heap_one_child in Heq. congruence. }
      split; [exact Hlen1|]. split; [exact Hheap1|]. split; [exact Hperm1 | exact Hout1]. }
  destruct Hstep as (v2 & h2 & -> & Hpath2 & Hh2 & Hleaf2 & Hlen2 & Hheap2 & Hperm2 & Hout2).
  cbn [mbind option_bind].
  destruct (push_heap_spec len v2 first len top h2 value) as (v' & -> & Hheap' & Hperm' & Hout').
  - exact Hpath2.
  - exact Hh2.
  - lia.
  - lia.
  - assert (Hheap2' := proj1 (heap_from_hole first len top h2 v2) Hheap2).
    clear Hheap2. rename Hheap2' into Hheap2.
    intros i a b Hi1 Hi2 Hi3 Ha Hb.
    apply (Hheap2 i a b); [lia|lia|lia| |exact Ha|exact Hb].
    intros Heq ->. apply heap_children in Heq; [lia | exact Hi1].
  - intros c y Hc1 Hc2 Hc3. apply heap_children in Hc3; [lia | exact Hc1].
  - exists v'. split; [reflexivity|]. split; [exact Hheap'|]. split.
    + now rewrite (Hperm2 value).
    + intros i Hi. now rewrite (Hout' i Hi), (Hout2 i Hi).
Qed.

(** __make_heap, from the last node that has a child back to the
    root. *)
Lemma make_heap_loop_spec (parent : nat) (v : list A) (first len : nat) :
  parent < len -> first + len <= length v ->
  heap_from comp first len (S parent) v ->
  exists v',
    make_heap_loop comp v first len parent = Some v' /\
    heap_from comp first len 0 v' /\ range_perm first (first + len) v v'.
Proof.
  revert v. induction parent as [|parent IH]; intros v Hp Hlen Hheap.
  - cbn [make_heap_loop].
    destruct (lookup_lt_is_Some_2 v (first + 0) ltac:(lia)) as [value Hv].
    rewrite Hv. cbn [mbind option_bind].
    destruct (adjust_heap_spec v first len 0 value Hp Hlen Hheap)
      as (v1 & -> & Hheap1 & Hperm1 & Hout1). cbn [mbind option_bind].
    rewrite (list_insert_id v _ value Hv) in Hperm1.
    exists v1. split; [reflexivity|]. split; [exact Hheap1|]. split; [exact Hperm1|].
    intros i Hi. apply Hout1. lia.
  - cbn [make_heap_loop].
    destruct (lookup_lt_is_Some_2 v (first + S parent) ltac:(lia)) as [value Hv].
    rewrite Hv. cbn [mbind option_bind].
    destruct (adjust_heap_spec v first len (S parent) value Hp Hlen Hheap)
      as (v1 & -> & Hheap1 & Hperm1 & Hout1). cbn [mbind option_bind].
    rewrite (list_insert_id v _ value Hv) in Hperm1.
    destruct (IH v1) as (v' & -> & Hheap' & Hrp); [lia| |exact Hheap1|].
    { rewrite <- (Permutation_length Hperm1). exact Hlen. }
    exists v'. split; [reflexivity|]. split; [exact Hheap'|].
    eapply range_perm_trans; [|exact Hrp]. split; [exact Hperm1|].
    intros i Hi. apply Hout1. lia.
Qed.

Lemma make_heap_spec (v : list A) (first last : nat) :
  first <= last -> last <= length v ->
  exists v',
    make_heap comp v first last = Some v' /\
    heap_from comp first (last - first) 0 v' /\ range_perm first last v v'.
Proof.
  intros Hfl Hlen. unfold make_heap. destruct (last - first <? 2) eqn:Hlt.
  - apply Nat.ltb_lt in Hlt. exists v. split; [reflexivity|].
    split; [|apply range_perm_refl]. intros i x y Hi1 Hi2. lia.
  - apply Nat.ltb_ge in Hlt.
    destruct (make_heap_loop_spec ((last - first - 2) / 2) v first (last - first))
      as (v' & -> & Hheap & Hrp).
    + now apply heap_last_parent_lt.
    + lia.
    + intros i x y Hi1 Hi2 Hi3.
      pose proof (heap_last_parent (last - first) i Hi1 ltac:(lia)). lia.
    + exists v'. split; [reflexivity|]. split; [exact Hheap|].
      replace (first + (last - first)) with last in Hrp by lia. exact Hrp.
Qed.

(** __pop_heap as __sort_heap calls it: the root goes to the last place
    of the heap and the element that stood there into the heap of the
    places before. *)
Lemma pop_heap_spec (v : list A) (first n : nat) (r : A) :
  0 < n -> first + S n <= length v -> heap_from comp first (S n) 0 v ->
  v !! first = Some r ->
  exists v',
    pop_heap comp v first (first + n) (first + n) = Some v' /\
    heap_from comp first n 0 v' /\ range_perm first (first + S n) v v' /\
    v' !! (first + n) = Some r /\
    (forall i x, first <= i -> i < first + n -> v' !! i = Some x ->
       exists j, first <= j /\ j < first + S n /\ v !! j = Some x).
Proof.
  intros Hn Hlen Hheap Hr. unfold pop_heap.
  destruct (lookup_lt_is_Some_2 v (first + n) ltac:(lia)) as [value Hv].
  rewrite Hv, Hr. cbn [mbind option_bind].
  replace (first + n - first) with n by lia.
  set (v1 := <[first + n := r]> v).
  assert (Hv1 : forall i, v1 !! i = if decide (i = first + n) then Some r else v !! i)
    by (intros i; apply lookup_insert_in; lia).
  destruct (adjust_heap_spec v1 first n 0 value) as (v' & -> & Hheap' & Hperm & Hout).
  - exact Hn.
  - unfold v1. rewrite length_insert. lia.
  - intros i x y Hi1 Hi2 Hi3. pose proof (heap_parent_lt i Hi1).
    rewrite !Hv1. repeat case_decide; try lia. apply Hheap; lia.
  - assert (Hswap : Permutation v (<[first + 0 := value]> v1)).
    { symmetry. rewrite Nat.add_0_r. unfold v1.
      now apply Permutation_insert_swap. }
    assert (Hrp : range_perm first (first + S n) v v').
    { split; [now rewrite Hswap|]. intros i Hi.
      rewrite (Hout i ltac:(lia)), Hv1. case_decide; [lia | reflexivity]. }
    exists v'. split; [reflexivity|]. split; [exact Hheap'|]. split; [exact Hrp|]. split.
    + rewrite (Hout (first + n) ltac:(lia)), Hv1. case_decide; [reflexivity | lia].
    + intros i x Hi1 Hi2 Hx.
      apply (range_perm_in first (first + S n) v v' i x Hrp); [lia|lia|exact Hx].
Qed.

(** __sort_heap: the heap shrinks from the back, its root going each time
    in front of the elements sorted so far. *)
Lemma sort_heap_spec (n : nat) (v : list A) (first hi : nat) :
  first + n <= hi -> hi <= length v ->
  heap_from comp first n 0 v ->
  sorted_range comp (first + n) hi v ->
  split_range comp first (first + n) hi v ->
  exists v',
    sort_heap comp v first n = Some v' /\
    range_perm first (first + n) v v' /\ sorted_range comp first hi v'.
Proof.
  revert v. induction n as [|n IH]; intros v Hn Hhi Hheap Hsorted Hsplit.
  - exists v. split; [reflexivity|]. split; [apply range_perm_refl|].
    rewrite Nat.add_0_r in Hsorted. exact Hsorted.
  - cbn [sort_heap]. destruct (1 <? S n) eqn:Hlt.
    + apply Nat.ltb_lt in Hlt.
      destruct (lookup_lt_is_Some_2 v first ltac:(lia)) as [r Hr].
      destruct (pop_heap_spec v first n r ltac:(lia) ltac:(lia) Hheap Hr)
        as (v1 & -> & Hheap1 & Hrp1 & Hlast & Hin). cbn [mbind option_bind].
      pose proof (range_perm_length _ _ _ _ Hrp1) as Hlen1.
      assert (Hout1 : forall i, first + S n <= i -> v1 !! i = v !! i)
        by (intros i Hi; destruct Hrp1 as [_ Ho]; apply Ho; lia).
      destruct (IH v1) as (v' & -> & Hrp & Hs'); [lia|lia|exact Hheap1| | |].
      * intros i j x y Hi Hij Hj Hx Hy.
        rewrite (Hout1 j ltac:(lia)) in Hy.
        destruct (decide (i = first + n)) as [->|Hne].
        -- rewrite Hlast in Hx. injection Hx as <-.
           apply (Hsplit first j r y); [lia|lia|lia|lia|exact Hr|exact Hy].
        -- rewrite (Hout1 i ltac:(lia)) in Hx.
           apply (Hsorted i j x y); [lia|lia|lia|exact Hx|exact Hy].
      * intros i j x y Hi1 Hi2 Hj1 Hj2 Hx Hy.
        destruct (Hin i x Hi1 Hi2 Hx) as (k & Hk1 & Hk2 & Hk).
        destruct (decide (j = first + n)) as [->|Hne].
        -- rewrite Hlast in Hy. injection Hy as <-.
           apply (heap_root first (S n) v r ltac:(lia) Hheap Hr (k - first) x); [lia|].
           rewrite <- Hk. f_equal. lia.
        -- rewrite (Hout1 j ltac:(lia)) in Hy.
           apply (Hsplit k j x y); [lia|lia|lia|lia|exact Hk|exact Hy].
      * exists v'. split; [reflexivity|]. split; [|exact Hs'].
        eapply range_perm_trans; [exact Hrp1|].
        eapply range_perm_weaken; [| |exact Hrp]; lia.
    + apply Nat.ltb_ge in Hlt. assert (n = 0) by lia. subst n.
      exists v. split; [reflexivity|]. split; [apply range_perm_refl|].
      intros i j x y Hi Hij Hj Hx Hy.
      destruct (decide (i = first)) as [->|Hne].
      * apply (Hsplit first j x y); [lia|lia|lia|lia|exact Hx|exact Hy].
      * apply (Hsorted i j x y); [lia|lia|lia|exact Hx|exact Hy].
Qed.

(** __partial_sort(first, last, last): heapsort of the whole range. *)
Lemma partial_sort_spec (v : list A) (first last : nat) :
  first <= last -> last <= length v ->
  exists v',
    partial_sort comp v first last last = Some v' /\
    range_perm first last v v' /\ sorted_range comp first last v'.
Proof.
  intros Hfl Hlen. unfold partial_sort, heap_select.
  destruct (make_heap_spec v first last Hfl Hlen) as (v1 & -> & Hheap & Hrp1).
  cbn [mbind option_bind]. rewrite Nat.sub_diag. cbn [heap_select_loop mbind option_bind].
  pose proof (range_perm_length _ _ _ _ Hrp1) as Hlen1.
  destruct (sort_heap_spec (last - first) v1 first last) as (v' & -> & Hrp & Hs);
    [lia|lia|exact Hheap| | |].
  - intros i j x y Hi Hij Hj. lia.
  - intros i j x y Hi1 Hi2 Hj1 Hj2. lia.
  - exists v'. split; [reflexivity|]. split; [|exact Hs].
    eapply range_perm_trans; [exact Hrp1|].
    eapply range_perm_weaken; [| |exact Hrp]; lia.
Qed.

(** *** __introsort_loop and std::sort *)

Lemma sorted_range_guarded (lo from hi : nat) (v : list A) :
  lo < from -> hi <= length v -> sorted_range comp lo hi v ->
  guarded_range comp lo from hi v.
Proof.
  intros Hlo Hhi Hs i x Hi1 Hi2 Hx.
  destruct (lookup_lt_is_Some_2 v (i - 1) ltac:(lia)) as [y Hy].
  exists (i - 1), y. split; [lia|]. split; [lia|]. split; [exact Hy|].
  apply (Hs (i - 1) i y x); [lia|lia|lia|exact Hy|exact Hx].
Qed.

(** The loop leaves the range in pieces of at most sixteen elements
    that stand in order among each other, so that every element from the
    seventeenth on has an element ahead of it that it does not compare
    before. *)
Lemma introsort_loop_spec (depth_limit : nat) (v : list A) (first last : nat) :
  first <= last -> last <= length v ->
  exists v',
    introsort_loop comp depth_limit v first last = Some v' /\
    range_perm first last v v' /\
    guarded_range comp first (first + S_threshold) last v'.
Proof.
  revert v first last. induction depth_limit as [|d IH]; intros v first last Hfl Hlen;
    cbn [introsort_loop]; destruct (S_threshold <? last - first) eqn:Hth.
  - destruct (partial_sort_spec v first last Hfl Hlen) as (v' & -> & Hrp & Hs).
    exists v'. split; [reflexivity|]. split; [exact Hrp|].
    apply sorted_range_guarded; [unfold S_threshold; lia| |exact Hs].
    rewrite (range_perm_length _ _ _ _ Hrp). exact Hlen.
  - apply Nat.ltb_ge in Hth. exists v. split; [reflexivity|].
    split; [apply range_perm_refl|]. intros i x Hi1 Hi2. lia.
  - apply Nat.ltb_lt in Hth. unfold S_threshold in Hth.
    destruct (unguarded_partition_pivot_spec v first last Hlen ltac:(lia))
      as (v1 & cut & -> & Hrp1 & Hc1 & Hc2 & Hsplit). cbn [mbind option_bind].
    pose proof (range_perm_length _ _ _ _ Hrp1) as Hlen1.
    destruct (IH v1 cut last ltac:(lia) ltac:(lia)) as (v2 & -> & Hrp2 & Hg2).
    cbn [mbind option_bind].
    pose proof (range_perm_length _ _ _ _ Hrp2) as Hlen2.
    destruct (IH v2 first cut ltac:(lia) ltac:(lia)) as (v3 & -> & Hrp3 & Hg3).
    pose proof (range_perm_length _ _ _ _ Hrp3) as Hlen3.
    exists v3. split; [reflexivity|]. split.
    { eapply range_perm_trans; [exact Hrp1|].
      eapply range_perm_trans.
      - eapply range_perm_weaken; [| |exact Hrp2]; lia.
      - eapply range_perm_weaken; [| |exact Hrp3]; lia. }
    intros i x Hi1 Hi2 Hx.
    destruct (decide (i < cut)) as [Hic|Hic]; [now apply Hg3|].
    assert (Hx2 : v2 !! i = Some x).
    { destruct Hrp3 as [_ Ho]. rewrite <- (Ho i ltac:(lia)). exact Hx. }
    destruct (decide (cut + S_threshold <= i)) as [Hfar|Hnear].
    + destruct (Hg2 i x Hfar Hi2 Hx2) as (j & y & Hj1 & Hj2 & Hy & Hc).
      exists j, y. split; [lia|]. split; [lia|]. split; [|exact Hc].
      destruct Hrp3 as [_ Ho]. rewrite (Ho j ltac:(lia)). exact Hy.
    + destruct (lookup_lt_is_Some_2 v3 first ltac:(lia)) as [y Hy].
      exists first, y. split; [lia|]. split; [lia|]. split; [exact Hy|].
      destruct (range_perm_in first cut v2 v3 first y Hrp3 ltac:(lia) ltac:(lia) Hy)
        as (j & Hj1 & Hj2 & Hj).
      assert (Hj' : v1 !! j = Some y).
      { destruct Hrp2 as [_ Ho]. rewrite <- (Ho j ltac:(lia)). exact Hj. }
      destruct (range_perm_in cut last v1 v2 i x Hrp2 ltac:(lia) ltac:(lia) Hx2)
        as (k & Hk1 & Hk2 & Hk).
      apply (Hsplit j k y x); [lia|lia|lia|lia|exact Hj'|exact Hk].
  - apply Nat.ltb_ge in Hth. exists v. split; [reflexivity|].
    split; [apply range_perm_refl|]. intros i x Hi1 Hi2. lia.
Qed.

(** std::sort returns, and leaves the elements it was given in an order
    in which none compares before an earlier one. *)
Lemma std_sort_spec (v : list A) :
  exists v',
    std_sort comp v = Some v' /\ Permutation v v' /\
    sorted_range comp 0 (length v') v'.
Proof.
  unfold std_sort. destruct (0 =? length v) eqn:Hlen.
  - apply Nat.eqb_eq in Hlen. exists v. split; [reflexivity|]. split; [reflexivity|].
    intros i j x y Hi Hij Hj. lia.
  - destruct (introsort_loop_spec (Nat.log2 (length v - 0) * 2) v 0 (length v))
      as (v1 & -> & Hrp1 & Hg); [lia|lia|]. cbn [mbind option_bind].
    pose proof (range_perm_length _ _ _ _ Hrp1) as Hlen1.
    destruct (final_insertion_sort_spec v1 0 (length v)) as (v' & -> & Hrp & Hs);
      [lia|lia|exact Hg|].
    exists v'. split; [reflexivity|].
    rewrite (range_perm_length _ _ _ _ Hrp), Hlen1. split; [|exact Hs].
    destruct Hrp1 as [Hp1 _], Hrp as [Hp _]. now rewrite Hp1.
Qed.

(** Up to sixteen elements std::sort is the insertion sort alone. *)
Lemma std_sort_small (v : list A) :
  0 < length v -> length v <= S_threshold ->
  std_sort comp v = insertion_sort comp v 0 (length v).
Proof.
  intros Hpos Hlen. unfold std_sort.
  destruct (0 =? length v) eqn:H0; [apply Nat.eqb_eq in H0; lia|].
  assert (Hth : (S_threshold <? length v - 0) = false) by (apply Nat.ltb_ge; lia).
  destruct (Nat.log2 (length v - 0) * 2) as [|d]; cbn [introsort_loop];
    rewrite Hth; cbn [mbind option_bind];
    unfold final_insertion_sort; now rewrite Hth.
Qed.
End StdSortFacts.

(** Sorted sequences of time stamps that hold the same time stamps are
    equal. *)
Lemma ptime_ge_sorted_unique (k1 k2 : list ptime) :
  StronglySorted ptime_ge k1 -> StronglySorted ptime_ge k2 ->
  Permutation k1 k2 -> k1 = k2.
Proof.
  intros H1. revert k2. induction H1 as [|a k1 Hs1 IH Ha]; intros k2 H2 Hperm.
  - apply Permutation_nil in Hperm. now subst.
  - destruct H2 as [|b k2 Hs2 Hb].
    { symmetry in Hperm. apply Permutation_nil in Hperm. discriminate. }
    assert (Hab : a = b).
    { assert (Hin_b : In b (a :: k1))
        by (eapply Permutation_in; [symmetry; exact Hperm | now left]).
      assert (Hin_a : In a (b :: k2))
        by (eapply Permutation_in; [exact Hperm | now left]).
      destruct Hin_b as [|Hin_b]; [assumption|].
      destruct Hin_a as [|Hin_a]; [congruence|].
      rewrite Forall_forall in Ha, Hb.
      apply list_elem_of_In in Hin_b, Hin_a.
      specialize (Ha _ Hin_b). specialize (Hb _ Hin_a).
      unfold ptime_ge in Ha, Hb.
      destruct a as [|x], b as [|y]; simpl in Ha, Hb; try discriminate; [reflexivity|].
      apply Z.ltb_ge in Ha, Hb. f_equal. lia. }
    subst b. f_equal. apply IH; [exact Hs2|].
    eapply Permutation_cons_inv. exact Hperm.
Qed.

Lemma expires_ge_ptime_ge (x y : http_cookie) :
  expires_ge x y <-> ptime_ge (expires x) (expires y).
Proof.
  unfold expires_ge, ptime_ge.
  destruct (expires x), (expires y); simpl; try rewrite Z.ltb_ge; intuition congruence.
Qed.

Lemma strongly_sorted_expires (l : list http_cookie) :
  StronglySorted expires_ge l -> StronglySorted ptime_ge (map expires l).
Proof.
  induction 1 as [|x l Hs IH Hx]; simpl; constructor; [exact IH|].
  apply List.Forall_map. eapply Forall_impl; [exact Hx|].
  intros y Hy. now apply expires_ge_ptime_ge.
Qed.

(** A list in which no element compares before an earlier one is
    sorted. *)
Lemma lookup_strongly_sorted_expires (l : list http_cookie) :
  (forall (i j : nat) (x y : http_cookie),
      (i < j)%nat -> l !! i = Some x -> l !! j = Some y ->
      compare_by_expires ptime_greater y x = false) ->
  StronglySorted expires_ge l.
Proof.
  induction l as [|a l IH]; intros H; constructor.
  - apply IH. intros i j x y Hij Hi Hj. apply (H (S i) (S j)); [lia|exact Hi|exact Hj].
  - rewrite Forall_forall. intros y Hy.
    apply list_elem_of_lookup_1 in Hy as [j Hj].
    apply ptime_not_lt_ge. apply (H 0%nat (S j)); [lia|reflexivity|exact Hj].
Qed.

(** Whatever order std::sort leaves the scratch container in, the time
    stamps stand in it as a stable sort would leave them. *)
Lemma sorted_scratch_expires (lhs rhs : cookies) (scratch : list http_cookie) :
  sorted_scratch lhs rhs scratch ->
  map expires scratch
  = map expires (stable_sort_by_expires (m_cookies lhs ++ m_cookies rhs)).
Proof.
  intros [Hperm Hsorted]. apply ptime_ge_sorted_unique.
  - apply strongly_sorted_expires. now apply lookup_strongly_sorted_expires.
  - apply strongly_sorted_expires, stable_sort_sorted.
  - apply Permutation_map. rewrite <- Hperm. apply stable_sort_perm.
Qed.

(** The comparison operator+ hands to std::sort is a strict weak
    ordering. *)
Lemma compare_by_expires_irrefl (x : http_cookie) :
  compare_by_expires ptime_greater x x = false.
Proof.
  unfold compare_by_expires, ptime_greater. destruct (expires x); simpl;
    [reflexivity | apply Z.ltb_irrefl].
Qed.

Lemma compare_by_expires_trans (x y z : http_cookie) :
  compare_by_expires ptime_greater x y = true ->
  compare_by_expires ptime_greater y z = true ->
  compare_by_expires ptime_greater x z = true.
Proof.
  unfold compare_by_expires, ptime_greater.
  destruct (expires x), (expires y), (expires z); simpl; try congruence.
  rewrite !Z.ltb_lt. lia.
Qed.

Lemma compare_by_expires_negtrans (x y z : http_cookie) :
  compare_by_expires ptime_greater x y = false ->
  compare_by_expires ptime_greater y z = false ->
  compare_by_expires ptime_greater x z = false.
Proof.
  unfold compare_by_expires, ptime_greater.
  destruct (expires x), (expires y), (expires z); simpl; try congruence.
  rewrite !Z.ltb_ge. lia.
Qed.

(** std::sort of the GNU library keeps what the standard promises. *)
Lemma std_sort_sorted_scratch (lhs rhs : cookies) :
  exists scratch,
    std_sort (compare_by_expires ptime_greater) (m_cookies lhs ++ m_cookies rhs)
    = Some scratch /\
    sorted_scratch lhs rhs scratch.
Proof.
  destruct (std_sort_spec (compare_by_expires ptime_greater)
              compare_by_expires_irrefl compare_by_expires_trans
              compare_by_expires_negtrans (m_cookies lhs ++ m_cookies rhs))
    as (scratch & Hsort & Hperm & Hsorted).
  exists scratch. split; [exact Hsort|]. split; [exact Hperm|].
  intros i j x y Hij Hi Hj.
  apply (Hsorted i j x y); [lia|exact Hij| |exact Hi|exact Hj].
  eapply lookup_lt_Some. exact Hj.
Qed.

(** What operator+ returns with that std::sort is one of the results the
    standard allows. *)
Lemma operator_plus_gnu_admissible (lhs rhs ret : cookies) :
  operator_plus_gnu lhs rhs = Some ret -> operator_plus lhs rhs ret.
Proof.
  unfold operator_plus_gnu.
  destruct (std_sort_sorted_scratch lhs rhs) as (scratch & -> & Hscratch).
  simpl. intros Hret. exists scratch. split; assumption.
Qed.

(** C5, as amended.  std::sort returns on the scratch container of
    operator+, which holds the records of lhs followed by those of rhs.
    It leaves them rearranged so that no record stands behind one that
    expires strictly earlier, a record without expiry counting as
    expiring last; the time stamps stand in the order in which a stable
    sort would leave them, and so they do in every order that std::sort
    is allowed to leave.  Nothing is said of the order of records whose
    expiry compares equal. *)
Theorem merge_sorts_by_expires (lhs rhs : cookies) :
  exists scratch,
    std_sort (compare_by_expires ptime_greater) (m_cookies lhs ++ m_cookies rhs)
    = Some scratch /\
    Permutation (m_cookies lhs ++ m_cookies rhs) scratch /\
    (forall (i j : nat) (x y : http_cookie),
        (i < j)%nat -> scratch !! i = Some x -> scratch !! j = Some y ->
        expires_ge x y) /\
    map expires scratch
    = map expires (stable_sort_by_expires (m_cookies lhs ++ m_cookies rhs)) /\
    (forall other : list http_cookie,
        sorted_scratch lhs rhs other -> map expires other = map expires scratch).
Proof.
  destruct (std_sort_sorted_scratch lhs rhs) as (scratch & Hsort & Hscratch).
  exists scratch. split; [exact Hsort|]. split; [exact (proj1 Hscratch)|]. split.
  - intros i j x y Hij Hi Hj. apply ptime_not_lt_ge.
    exact (proj2 Hscratch i j x y Hij Hi Hj).
  - split; [now apply sorted_scratch_expires|].
    intros other Hother.
    rewrite (sorted_scratch_expires lhs rhs other Hother).
    symmetry. now apply sorted_scratch_expires.
Qed.

(** C5 as stated fails.  Seventeen records that expire at the same time,
    nine in lhs and eight in rhs: a stable sort would leave them as they
    stand, c01 to c17.  std::sort leaves c09 in front, then c17 down to
    c10, then c01, then c08 down to c02, and this is the order in which
    operator+ returns them, all seventeen being admitted. *)
Lemma merge_sort_not_stable :
  std_sort (compare_by_expires ptime_greater)
    (m_cookies store_c01_c09 ++ m_cookies store_c10_c17) = Some scratch_c01_c17 /\
  stable_sort_by_expires (m_cookies store_c01_c09 ++ m_cookies store_c10_c17)
  = (m_cookies store_c01_c09 ++ m_cookies store_c10_c17)%list /\
  scratch_c01_c17
  <> stable_sort_by_expires (m_cookies store_c01_c09 ++ m_cookies store_c10_c17) /\
  (m_cookies store_c01_c09 ++ m_cookies store_c10_c17)%list !! 0%nat
  = Some (cookie_named "c01") /\
  (m_cookies store_c01_c09 ++ m_cookies store_c10_c17)%list !! 8%nat
  = Some (cookie_named "c09") /\
  scratch_c01_c17 !! 0%nat = Some (cookie_named "c09") /\
  scratch_c01_c17 !! 9%nat = Some (cookie_named "c01") /\
  expires (cookie_named "c01") = expires (cookie_named "c09") /\
  operator_plus_gnu store_c01_c09 store_c10_c17
  = Some {| m_cookies := scratch_c01_c17; m_default_domain := "" |} /\
  operator_plus store_c01_c09 store_c10_c17
    {| m_cookies := scratch_c01_c17; m_default_domain := "" |}.
Proof.
  assert (Hgnu : operator_plus_gnu store_c01_c09 store_c10_c17
                 = Some {| m_cookies := scratch_c01_c17; m_default_domain := "" |})
    by (vm_compute; reflexivity).
  split; [vm_compute; reflexivity|]. split; [vm_compute; reflexivity|].
  split; [vm_compute; discriminate|].
  do 5 (split; [reflexivity|]).
  split; [exact Hgnu | now apply operator_plus_gnu_admissible].
Qed.

(** ** The name-to-value map of the tokenizer *)

Lemma string_lt_trans (a b c : string) :
  String.compare a b = Lt -> String.compare b c = Lt -> String.compare a c = Lt.
Proof.
  revert b c. induction a as [|x a IH]; intros [|y b] [|z c]; simpl;
    try discriminate; try reflexivity.
  unfold Ascii.compare.
  destruct (N.compare_spec (N_of_ascii x) (N_of_ascii y)) as [Hxy|Hxy|Hxy],
           (N.compare_spec (N_of_ascii y) (N_of_ascii z)) as [Hyz|Hyz|Hyz],
           (N.compare_spec (N_of_ascii x) (N_of_ascii z)) as [Hxz|Hxz|Hxz];
    try discriminate; try reflexivity; try lia.
  apply IH.
Qed.

Lemma string_gt_lt (a b : string) :
  String.compare a b = Gt -> String.compare b a = Lt.
Proof. intros H. rewrite String.compare_antisym, H. reflexivity. Qed.

Lemma map_assign_Forall (P : string * string -> Prop) (k v : string) (m : string_map) :
  (forall v', P (k, v')) -> (forall k' v1 v2, P (k', v1) -> P (k', v2)) ->
  Forall P m -> Forall P (map_assign k v m).
Proof.
  intros Hk Hv. induction 1 as [|[k' v'] m Hhd Htl IH]; simpl.
  - constructor; [apply Hk | constructor].
  - destruct (String.compare k k').
    + constructor; [eapply Hv; exact Hhd | assumption].
    + constructor; [apply Hk|]. now constructor.
    + now constructor.
Qed.

Lemma map_assign_sorted (k v : string) (m : string_map) :
  StronglySorted key_lt m -> StronglySorted key_lt (map_assign k v m).
Proof.
  induction 1 as [|[k' v'] m Hs IH Hall]; simpl.
  - constructor; constructor.
  - destruct (String.compare k k') eqn:Hc.
    + constructor; assumption.
    + constructor; [now constructor|].
      constructor; [exact Hc|].
      eapply Forall_impl; [exact Hall|].
      intros kv Hkv. unfold key_lt in *. simpl in *.
      eapply string_lt_trans; eassumption.
    + constructor; [assumption|].
      apply map_assign_Forall; [| |assumption].
      * intros v0. unfold key_lt; simpl. now apply string_gt_lt.
      * intros k0 v1 v2 H. exact H.
Qed.

Lemma string_push_back_nonempty (s : string) (c : ascii) : string_push_back s c <> "".
Proof. destruct s; discriminate. Qed.

(** ** The tokenizer *)

Section ParserFacts.
Variable is_char : ascii -> bool.
Variable is_tspecial : ascii -> bool.
Variable parse_http_date : string -> ptime -> bool * ptime.
Variable assert_enabled : bool.

#[local] Abbreviation do_step := (step is_char is_tspecial).
#[local] Abbreviation run := (tokenize is_char is_tspecial).
#[local] Abbreviation scan := (scan_attributes parse_http_date assert_enabled).
#[local] Abbreviation finish_parse := (finish parse_http_date assert_enabled).
#[local] Abbreviation parse :=
  (parse_cookie_string is_char is_tspecial parse_http_date assert_enabled).

Lemma step_bad (t : tokenizer) (c : ascii) : state t = cookie_bad -> do_step t c = t.
Proof. intros H. unfold step. now rewrite H. Qed.

(** Reading one more character at the end is one more step. *)
Lemma tokenize_snoc (str : string) (c : ascii) (t : tokenizer) :
  run (str +:+ String c "") t = do_step (run str t) c.
Proof.
  revert t. induction str as [|a str IH]; intros t; simpl.
  - destruct (state t) eqn:Hs; simpl; try reflexivity.
    symmetry. now apply step_bad.
  - destruct (state t) eqn:Hs; simpl; try apply IH.
    symmetry. now apply step_bad.
Qed.

Lemma tokenizer_init_inv : tokenizer_inv tokenizer_init.
Proof.
  split; simpl; try discriminate; try constructor.
  intros [H|[H|H]]; discriminate.
Qed.

Lemma store_pair_inv (t : tokenizer) :
  tokenizer_inv t -> name_buf t <> "" -> tokenizer_inv (store_pair t).
Proof.
  intros [Hv Hn Hs Hk] Hne. split; simpl.
  - discriminate.
  - intros [H|[H|H]]; discriminate.
  - now apply map_assign_sorted.
  - apply map_assign_Forall; [intros; exact Hne | intros ? ? ? H; exact H | assumption].
Qed.

Lemma step_inv (t : tokenizer) (c : ascii) : tokenizer_inv t -> tokenizer_inv (do_step t c).
Proof.
  intros Hinv. pose proof Hinv as [Hv Hn Hs Hk].
  unfold step. destruct (state t) eqn:Hst.
  - destruct (Ascii.eqb c " "); [assumption|].
    destruct (is_char c); split; simpl; try assumption; try discriminate;
      try (intros [H|[H|H]]; discriminate).
    intros _. apply string_push_back_nonempty.
  - destruct (Ascii.eqb c ";").
    { destruct (String.eqb (name_buf t) "secure");
        [|destruct (String.eqb (name_buf t) "httponly")];
        split; simpl; try assumption; try discriminate;
        intros [H|[H|H]]; discriminate. }
    destruct (Ascii.eqb c "=").
    { split; simpl; try assumption; try discriminate. intros _. apply Hn. now left. }
    destruct (is_tspecial c || Ascii.eqb c ":").
    { split; simpl; try assumption; try discriminate.
      intros [H|[H|H]]; discriminate. }
    destruct (is_char c || Ascii.eqb c "_"); [|assumption].
    split; simpl; try assumption; try discriminate.
    intros _. apply string_push_back_nonempty.
  - assert (Hne : name_buf t <> "") by (apply Hn; right; now left).
    destruct (Ascii.eqb c ";"); [now apply store_pair_inv|].
    destruct (Ascii.eqb c dquote || Ascii.eqb c "'"); [assumption|].
    destruct (is_char c); split; simpl; try assumption; try discriminate;
      try (intros _; apply string_push_back_nonempty);
      try (intros _; exact Hne).
  - assert (Hne : name_buf t <> "") by (apply Hn; right; now right).
    destruct (Ascii.eqb c ";" || Ascii.eqb c dquote || Ascii.eqb c "'");
      [now apply store_pair_inv|].
    destruct (is_char c); split; simpl; try assumption; try discriminate;
      try (intros _; apply string_push_back_nonempty);
      try (intros _; exact Hne).
  - assumption.
Qed.

Lemma tokenize_inv (str : string) (t : tokenizer) :
  tokenizer_inv t -> tokenizer_inv (run str t).
Proof.
  revert t. induction str as [|c str IH]; intros t Hinv; simpl; [assumption|].
  destruct (parse_state_eqb (state t) cookie_bad); [assumption|].
  apply IH. now apply step_inv.
Qed.

Lemma flush_inv (t t' : tokenizer) :
  tokenizer_inv t -> flush t = Some t' ->
  StronglySorted key_lt (tmp t') /\ Forall (fun kv => fst kv <> "") (tmp t').
Proof.
  intros [Hv Hn Hs Hk]. unfold flush.
  destruct (parse_state_eqb (state t) cookie_name && negb (empty (name_buf t))).
  { destruct (String.eqb (name_buf t) "secure");
      [|destruct (String.eqb (name_buf t) "httponly")];
      intros [= <-]; simpl; now split. }
  destruct (parse_state_eqb (state t) cookie_value && negb (empty (value_buf t))) eqn:Hc.
  { intros [= <-]; simpl. apply andb_true_iff in Hc as [Hc _].
    assert (Hst : state t = cookie_value) by (destruct (state t); try discriminate; reflexivity).
    split; [now apply map_assign_sorted|].
    apply map_assign_Forall; [|intros ? ? ? H; exact H|assumption].
    intros v0. simpl. apply Hn. now right; right. }
  destruct (parse_state_eqb (state t) cookie_bad); [discriminate|].
  intros [= Heq]. subst t'. now split.
Qed.

(** The attribute loop keeps exactly the entries whose key is not one
    of the three reserved names, in their order. *)
Lemma scan_attributes_kept (dd : string) (entries : string_map)
    (ct ct' : http_cookie) (kept : string_map) :
  scan dd entries ct = Some (ct', kept) ->
  kept = List.filter (fun kv => negb (reserved_key (fst kv))) entries.
Proof.
  revert ct ct' kept.
  induction entries as [|[k v] rest IH]; intros ct ct' kept; simpl.
  - now intros [= _ <-].
  - unfold reserved_key; simpl.
    destruct (String.eqb (to_lower_copy k) "expires"); simpl.
    { destruct (parse_http_date v (expires ct)) as [ok e].
      destruct (negb ok && assert_enabled); [discriminate|].
      apply IH. }
    destruct (String.eqb (to_lower_copy k) "domain"); simpl; [apply IH|].
    destruct (String.eqb (to_lower_copy k) "path"); simpl; [apply IH|].
    destruct (scan dd rest ct) as [[ct1 kept1]|] eqn:Hrest; [|discriminate].
    intros [= <- <-]. f_equal. eapply IH. exact Hrest.
Qed.

Lemma strongly_sorted_filter {A : Type} (R : A -> A -> Prop) (f : A -> bool) (l : list A) :
  StronglySorted R l -> StronglySorted R (List.filter f l).
Proof.
  induction 1 as [|a l Hs IH Hall]; simpl; [constructor|].
  destruct (f a); [|assumption].
  constructor; [assumption|].
  rewrite Forall_forall in *. intros x Hx.
  apply Hall. apply list_elem_of_In in Hx. apply List.filter_In in Hx as [Hx _].
  now apply list_elem_of_In.
Qed.

Lemma emit_sorted (ct : http_cookie) (kept : string_map) :
  StronglySorted key_lt kept ->
  StronglySorted (fun a b => String.compare (name a) (name b) = Lt) (emit ct kept).
Proof.
  induction 1 as [|kv kept Hs IH Hall]; simpl; constructor; [assumption|].
  induction Hall as [|kv' kept' Hhd Htl IH']; simpl; constructor.
  - exact Hhd.
  - apply IH'.
    + now apply StronglySorted_inv in Hs.
    + now apply StronglySorted_inv in IH.
Qed.

(** C10.  Whenever parse_cookie_string returns true, the records it has
    appended stand in strictly ascending byte-wise lexicographic order of
    their names, the iteration order of the map [tmp], whatever the order
    of the pairs in the string. *)
Theorem parse_emits_in_name_order (dd str : string) (cookie : list http_cookie) :
  parse_cookie_string is_char is_tspecial parse_http_date assert_enabled dd str
  = parse_true cookie ->
  StronglySorted (fun a b => String.compare (name a) (name b) = Lt) cookie.
Proof.
  unfold parse_cookie_string, finish.
  destruct (flush (run str tokenizer_init)) as [t|] eqn:Hf; [|discriminate].
  destruct (scan dd (tmp t) (cookie_tmp t)) as [[ct kept]|] eqn:Hscan;
    [|discriminate].
  intros [= <-]. apply emit_sorted.
  rewrite (scan_attributes_kept _ _ _ _ _ Hscan).
  apply strongly_sorted_filter.
  eapply (flush_inv _ _ (tokenize_inv str _ tokenizer_init_inv)). exact Hf.
Qed.

Lemma finish_not_false (dd : string) (t : tokenizer) : finish_parse dd t <> parse_false.
Proof.
  unfold finish.
  destruct (scan dd (tmp t) (cookie_tmp t)) as [[ct kept]|];
    discriminate.
Qed.

(** While the tokenizer waits for the first character of a value, the
    value collected so far is empty. *)
Lemma tokenize_value_start (str : string) (t : tokenizer) :
  (state t = cookie_value_start -> value_buf t = "") ->
  state (run str t) = cookie_value_start -> value_buf (run str t) = "".
Proof.
  revert t. induction str as [|c str IH]; intros t Ht; simpl; [exact Ht|].
  destruct (parse_state_eqb (state t) cookie_bad) eqn:Hbad; [exact Ht|].
  apply IH. unfold step.
  destruct (state t) eqn:Hst; simpl.
  - destruct (Ascii.eqb c " "); [rewrite Hst; discriminate|].
    destruct (is_char c); simpl; discriminate.
  - destruct (Ascii.eqb c ";").
    { destruct (String.eqb (name_buf t) "secure");
        [|destruct (String.eqb (name_buf t) "httponly")]; simpl; discriminate. }
    destruct (Ascii.eqb c "="); [reflexivity|].
    destruct (is_tspecial c || Ascii.eqb c ":"); [simpl; discriminate|].
    destruct (is_char c || Ascii.eqb c "_"); [simpl; discriminate|].
    rewrite Hst. discriminate.
  - destruct (Ascii.eqb c ";"); [simpl; discriminate|].
    destruct (Ascii.eqb c dquote || Ascii.eqb c "'"); [intros _; now apply Ht|].
    destruct (is_char c); simpl; discriminate.
  - destruct (Ascii.eqb c ";" || Ascii.eqb c dquote || Ascii.eqb c "'");
      [simpl; discriminate|].
    destruct (is_char c); simpl; discriminate.
  - discriminate Hbad.
Qed.

(** C8 (the code departs from the claim).  The lines after the loop
    (572-586) repeat the ';' branches of the switch only in part.  When
    the string ends in the middle of a value, or in the middle of the
    bare name secure or httponly, the outcome is the one of the same
    string with ';' appended.  When it ends in the middle of any other
    bare name, the [else state = cookie_bad] of lines 510-520 is missing:
    the name is dropped and the call goes on with the attribute map as it
    stands, so it does not return false, while the same string with ';'
    appended does return false.  When it ends right after the '=' of a
    pair, no branch applies and the pair is dropped, while the same
    string with ';' appended records the name with an empty value. *)
Theorem end_of_string_flush (dd str : string) :
  let t := tokenize is_char is_tspecial str tokenizer_init in
  let parse_string :=
    parse_cookie_string is_char is_tspecial parse_http_date assert_enabled dd in
  (state t = cookie_value -> parse_string str = parse_string (str +:+ ";")) /\
  (state t = cookie_name -> name_buf t = "secure" \/ name_buf t = "httponly" ->
     parse_string str = parse_string (str +:+ ";")) /\
  (state t = cookie_name -> name_buf t <> "secure" -> name_buf t <> "httponly" ->
     parse_string (str +:+ ";") = parse_false /\
     parse_string str = finish parse_http_date assert_enabled dd t /\
     parse_string str <> parse_false) /\
  (state t = cookie_value_start ->
     name_buf t <> "" /\
     parse_string str = finish parse_http_date assert_enabled dd t /\
     parse_string (str +:+ ";")
     = finish parse_http_date assert_enabled dd
         {| state := cookie_name_start; name_buf := ""; value_buf := "";
            tmp := map_assign (name_buf t) "" (tmp t);
            cookie_tmp := cookie_tmp t |}).
Proof.
  intros t parse_string. subst parse_string.
  pose proof (tokenize_inv str _ tokenizer_init_inv) as [Hv Hn _ _].
  pose proof (tokenize_value_start str tokenizer_init ltac:(discriminate)) as Hvs.
  fold t in Hv, Hn, Hvs.
  unfold parse_cookie_string. rewrite tokenize_snoc. fold t.
  unfold step, flush. split; [|split; [|split]].
  - intros Hst. rewrite Hst. specialize (Hv Hst). apply empty_false in Hv.
    rewrite Hv. reflexivity.
  - intros Hst [Hname|Hname]; rewrite Hst, Hname; reflexivity.
  - intros Hst Hsecure Hhttponly. rewrite Hst.
    apply String.eqb_neq in Hsecure, Hhttponly.
    assert (Hne : empty (name_buf t) = false) by (apply empty_false, Hn; now left).
    cbn [parse_state_eqb Ascii.eqb Bool.eqb andb negb].
    rewrite Hne, Hsecure, Hhttponly. cbn [negb].
    split; [reflexivity|]. split; [reflexivity | apply finish_not_false].
  - intros Hst. split; [apply Hn; right; now left|].
    rewrite Hst. cbn [parse_state_eqb Ascii.eqb Bool.eqb andb negb].
    unfold store_pair. rewrite (Hvs Hst). split; reflexivity.
Qed.

Lemma scan_attributes_abort (dd : string) (entries : string_map) (k v : string) :
  assert_enabled = true ->
  In (k, v) entries -> to_lower_copy k = "expires" ->
  (forall e, fst (parse_http_date v e) = false) ->
  forall ct, scan dd entries ct = None.
Proof.
  intros Ha Hin Hk Hv.
  induction entries as [|[k' v'] rest IH]; intros ct; simpl; [contradiction|].
  destruct Hin as [[= -> ->]|Hin].
  - rewrite Hk. simpl. specialize (Hv (expires ct)).
    destruct (parse_http_date v (expires ct)) as [ok e]. simpl in Hv.
    now rewrite Hv, Ha.
  - specialize (IH Hin).
    destruct (String.eqb (to_lower_copy k') "expires").
    { destruct (parse_http_date v' (expires ct)) as [ok e].
      destruct (negb ok && assert_enabled); [reflexivity | apply IH]. }
    destruct (String.eqb (to_lower_copy k') "domain"); [apply IH|].
    destruct (String.eqb (to_lower_copy k') "path"); [apply IH|].
    now rewrite IH.
Qed.

Lemma scan_attributes_no_abort (dd : string) (entries : string_map) :
  assert_enabled = false ->
  forall ct, exists r, scan dd entries ct = Some r.
Proof.
  intros Ha. induction entries as [|[k v] rest IH]; intros ct; simpl; [eauto|].
  destruct (String.eqb (to_lower_copy k) "expires").
  { destruct (parse_http_date v (expires ct)) as [ok e].
    destruct (negb ok && assert_enabled) eqn:Hc; [|apply IH].
    rewrite Ha, andb_false_r in Hc. discriminate. }
  destruct (String.eqb (to_lower_copy k) "domain"); [apply IH|].
  destruct (String.eqb (to_lower_copy k) "path"); [apply IH|].
  destruct (IH ct) as [[ct' kept] ->]. eauto.
Qed.

(** C7, as amended.  When the string carries an expires attribute whose
    value the date primitive rejects, parse_cookie_string does not return
    false: with the assertion compiled in the process is aborted, with
    the assertion compiled out the call returns true. *)
Theorem unparsable_expires_not_reported (dd str : string) (t : tokenizer)
    (k v : string) :
  flush (tokenize is_char is_tspecial str tokenizer_init) = Some t ->
  In (k, v) (tmp t) -> to_lower_copy k = "expires" ->
  (forall e, fst (parse_http_date v e) = false) ->
  (assert_enabled = true ->
     parse_cookie_string is_char is_tspecial parse_http_date assert_enabled dd str
     = parse_abort) /\
  (assert_enabled = false ->
     exists cookie,
       parse_cookie_string is_char is_tspecial parse_http_date assert_enabled dd str
       = parse_true cookie).
Proof.
  intros Hf Hin Hk Hv.
  unfold parse_cookie_string, finish. rewrite Hf. split.
  - intros Ha. now rewrite (scan_attributes_abort dd _ k v Ha Hin Hk Hv).
  - intros Ha. destruct (scan_attributes_no_abort dd (tmp t) Ha (cookie_tmp t))
      as [[ct kept] ->]. eauto.
Qed.
End ParserFacts.

(** ** The tokenizer on concrete strings *)

Lemma parse_emits_in_name_order_witness :
  parse_example false "b=2; a=1" = parse_true [cookie_a; cookie_b] /\
  StronglySorted (fun a b => String.compare (name a) (name b) = Lt)
    [cookie_a; cookie_b].
Proof.
  split; [reflexivity|].
  apply (parse_emits_in_name_order is_char_7bit is_tspecial_http
           parse_http_date_reject false "" "b=2; a=1").
  reflexivity.
Defined.

Lemma end_of_string_flush_witness :
  parse_example false "a=1" = parse_example false "a=1;" /\
  parse_example false "a=1; secure" = parse_example false "a=1; secure;" /\
  (parse_example false "a=1; foo;" = parse_false /\
   parse_example false "a=1; foo"
     = finish parse_http_date_reject false ""
         (tokenize is_char_7bit is_tspecial_http "a=1; foo" tokenizer_init) /\
   parse_example false "a=1; foo" <> parse_false) /\
  "a" <> "" /\
  parse_example false "a="
    = finish parse_http_date_reject false ""
        (tokenize is_char_7bit is_tspecial_http "a=" tokenizer_init) /\
  parse_example false "a=;"
    = finish parse_http_date_reject false ""
        {| state := cookie_name_start; name_buf := ""; value_buf := "";
           tmp := map_assign "a" "" []; cookie_tmp := cookie_default |}.
Proof.
  split; [|split; [|split]].
  - apply (proj1 (end_of_string_flush is_char_7bit is_tspecial_http
                    parse_http_date_reject false "" "a=1")).
    reflexivity.
  - apply (proj1 (proj2 (end_of_string_flush is_char_7bit is_tspecial_http
                           parse_http_date_reject false "" "a=1; secure"))).
    + reflexivity.
    + left. reflexivity.
  - apply (proj1 (proj2 (proj2 (end_of_string_flush is_char_7bit is_tspecial_http
                                  parse_http_date_reject false "" "a=1; foo")))).
    + reflexivity.
    + discriminate.
    + discriminate.
  - apply (proj2 (proj2 (proj2 (end_of_string_flush is_char_7bit is_tspecial_http
                                  parse_http_date_reject false "" "a=")))).
    reflexivity.
Defined.

(** What the calls of the example return.  The string "a=1; foo" ends in
    the middle of the bare name foo and the call returns true with the
    record a=1, while "a=1; foo;" makes it return false; the string "a="
    ends right after the '=' and the call returns true with no record at
    all, while "a=;" makes it return the record named a with an empty
    value. *)
Lemma pending_bare_name_is_dropped :
  parse_example false "a=1; foo" = parse_true [cookie_a] /\
  parse_example true "a=1; foo" = parse_true [cookie_a] /\
  parse_example false "a=1; foo;" = parse_false /\
  parse_example false "a=1; foo" <> parse_example false ("a=1; foo" +:+ ";") /\
  parse_example false "a=" = parse_true [] /\
  parse_example false "a=;" = parse_true [cookie_at "a" "" not_a_date_time].
Proof. repeat split. discriminate. Qed.

Lemma unparsable_expires_not_reported_witness :
  parse_example true "a=1; expires=x" = parse_abort /\
  exists cookie, parse_example false "a=1; expires=x" = parse_true cookie.
Proof.
  split.
  - apply (proj1 (unparsable_expires_not_reported is_char_7bit is_tspecial_http
                    parse_http_date_reject true "" "a=1; expires=x"
                    _ "expires" "x" ltac:(vm_compute; reflexivity)
                    ltac:(right; left; reflexivity)
                    ltac:(vm_compute; reflexivity) ltac:(reflexivity))).
    reflexivity.
  - apply (proj2 (unparsable_expires_not_reported is_char_7bit is_tspecial_http
                    parse_http_date_reject false "" "a=1; expires=x"
                    _ "expires" "x" ltac:(vm_compute; reflexivity)
                    ltac:(right; left; reflexivity)
                    ltac:(vm_compute; reflexivity) ltac:(reflexivity))).
    reflexivity.
Defined.

(** C7 as stated fails: on "a=1; expires=x", whose date is rejected, the
    call aborts the process when the assertion is compiled in, and
    returns true with the record a=1 when it is compiled out; in neither
    case does it return false. *)
Lemma unparsable_expires_aborts_or_succeeds :
  parse_example true "a=1; expires=x" = parse_abort /\
  parse_example false "a=1; expires=x" = parse_true [cookie_a] /\
  (forall assert_enabled, parse_example assert_enabled "a=1; expires=x" <> parse_false).
Proof. repeat split. intros []; discriminate. Qed.

(** ** Decimal numbers *)

Lemma digit_char_isdigit (k : Z) :
  0 <= k < 10 -> isdigit (digit_char k) = true /\ digit_value (digit_char k) = k.
Proof.
  intros Hk.
  assert (H : k = 0 \/ k = 1 \/ k = 2 \/ k = 3 \/ k = 4 \/ k = 5 \/ k = 6
              \/ k = 7 \/ k = 8 \/ k = 9) by lia.
  repeat (destruct H as [->|H]; [split; reflexivity|]). subst k. split; reflexivity.
Qed.

Lemma string_length_app (a b : string) :
  String.length (a +:+ b) = (String.length a + String.length b)%nat.
Proof. induction a as [|c a IH]; simpl; [reflexivity | now rewrite IH]. Qed.

Lemma all_chars_app (p : ascii -> bool) (a b : string) :
  all_chars p (a +:+ b) = all_chars p a && all_chars p b.
Proof.
  induction a as [|c a IH]; simpl; [reflexivity|].
  now rewrite IH, andb_assoc.
Qed.

Lemma all_chars_impl (p q : ascii -> bool) (s : string) :
  (forall c, p c = true -> q c = true) -> all_chars p s = true -> all_chars q s = true.
Proof.
  intros Hpq. induction s as [|c s IH]; simpl; [reflexivity|].
  rewrite !andb_true_iff. intros [Hc Hs]. split; [now apply Hpq | now apply IH].
Qed.

(** The digits written for [n] read back as [n]. *)
Lemma decimal_digits_spec (fuel : nat) :
  forall (n : Z) (acc : string),
    0 <= n < 2 ^ Z.of_nat fuel ->
    exists ds,
      decimal_digits fuel n acc = ds +:+ acc /\
      all_chars isdigit ds = true /\
      (fuel <> O -> ds <> "") /\
      forall (a : Z) (rest : string),
        parse_digits (ds +:+ rest) a
        = parse_digits rest (a * 10 ^ Z.of_nat (String.length ds) + n).
Proof.
  induction fuel as [|fuel IH]; intros n acc Hn.
  - exists "". simpl. repeat split; [congruence|].
    intros a rest. f_equal. change (2 ^ Z.of_nat 0) with 1 in Hn. lia.
  - simpl decimal_digits.
    assert (Hmod : 0 <= n mod 10 < 10) by (apply Z.mod_pos_bound; lia).
    destruct (digit_char_isdigit _ Hmod) as [Hd Hval].
    destruct (n / 10 =? 0) eqn:Hq.
    + apply Z.eqb_eq in Hq.
      exists (String (digit_char (n mod 10)) ""). simpl.
      rewrite Hd. repeat split; [discriminate|].
      intros a rest. rewrite Hval. f_equal.
      pose proof (Z.div_mod n 10 ltac:(lia)). lia.
    + apply Z.eqb_neq in Hq.
      assert (Hdiv : 0 <= n / 10 < 2 ^ Z.of_nat fuel).
      { split; [apply Z.div_pos; lia|].
        apply Z.div_lt_upper_bound; [lia|].
        rewrite Nat2Z.inj_succ, Z.pow_succ_r in Hn by lia. lia. }
      destruct (IH (n / 10) (String (digit_char (n mod 10)) acc) Hdiv)
        as (ds & Heq & Hall & _ & Hparse).
      exists (ds +:+ String (digit_char (n mod 10)) "").
      rewrite Heq, string_app_assoc. simpl. split; [reflexivity|].
      split; [rewrite all_chars_app; simpl; now rewrite Hall, Hd|].
      split; [intros _; destruct ds; discriminate|].
      intros a rest. rewrite string_app_assoc. simpl.
      rewrite Hparse. simpl. rewrite Hd, Hval. f_equal.
      rewrite string_length_app. simpl String.length.
      rewrite Nat2Z.inj_add. change (Z.of_nat 1) with 1.
      rewrite Z.pow_add_r by lia. change (10 ^ 1) with 10.
      pose proof (Z.div_mod n 10 ltac:(lia)). lia.
Qed.

Lemma log2_fuel (n : Z) :
  0 <= n -> 0 <= n < 2 ^ Z.of_nat (S (Z.to_nat (Z.log2 n))).
Proof.
  intros Hn. split; [assumption|].
  rewrite Nat2Z.inj_succ, Z2Nat.id by apply Z.log2_nonneg.
  destruct (Z.eq_dec n 0) as [->|Hne]; [reflexivity|].
  apply Z.log2_spec. lia.
Qed.

Lemma isdigit_field_char (c : ascii) : isdigit c = true -> field_char c = true.
Proof.
  unfold isdigit, field_char. intros H.
  destruct (Ascii.eqb_spec c tab) as [->|_]; [discriminate|].
  destruct (Ascii.eqb_spec c newline) as [->|_]; [discriminate|]. reflexivity.
Qed.

Lemma isdigit_not_space (c : ascii) : isdigit c = true -> isspace c = false.
Proof.
  unfold isdigit, isspace. cbv zeta.
  rewrite andb_true_iff, !N.leb_le. intros [H1 H2].
  apply orb_false_iff. split; [apply N.eqb_neq; lia|].
  apply andb_false_iff. right. apply N.leb_gt. lia.
Qed.

Lemma atol_digits (c : ascii) (s : string) :
  isdigit c = true ->
  atol (String c s) = Z.max LONG_MIN (Z.min LONG_MAX (parse_digits (String c s) 0)).
Proof.
  intros Hc. unfold atol. cbn [skip_space]. rewrite (isdigit_not_space c Hc).
  destruct c as [[] [] [] [] [] [] [] []]; try discriminate Hc; reflexivity.
Qed.

(** Reading back what was printed. *)
Lemma atol_time_t_to_string (t : Z) :
  LONG_MIN <= t <= LONG_MAX ->
  atol (time_t_to_string t) = t /\ plain_field (time_t_to_string t) = true.
Proof.
  intros Ht. unfold time_t_to_string.
  destruct (t <? 0) eqn:Hneg.
  - apply Z.ltb_lt in Hneg.
    assert (Habs : Z.abs t = - t) by lia. rewrite Habs.
    destruct (decimal_digits_spec _ (- t) "" (log2_fuel (- t) ltac:(lia)))
      as (ds & Heq & Hall & Hne & Hparse).
    rewrite Heq, string_app_nil_r. split.
    + unfold atol. cbn [skip_space]. change (isspace "-") with false. cbv iota.
      specialize (Hparse 0 ""). rewrite string_app_nil_r in Hparse.
      rewrite Hparse. simpl parse_digits. lia.
    + unfold plain_field. simpl.
      now apply (all_chars_impl isdigit field_char ds isdigit_field_char).
  - apply Z.ltb_ge in Hneg.
    assert (Habs : Z.abs t = t) by lia. rewrite Habs.
    destruct (decimal_digits_spec _ t "" (log2_fuel t Hneg))
      as (ds & Heq & Hall & Hne & Hparse).
    rewrite Heq, string_app_nil_r.
    specialize (Hne ltac:(discriminate)).
    destruct ds as [|c ds]; [contradiction|]. split.
    + simpl in Hall. apply andb_true_iff in Hall as [Hc _].
      rewrite (atol_digits c ds Hc).
      specialize (Hparse 0 ""). rewrite string_app_nil_r in Hparse.
      rewrite Hparse. simpl parse_digits. lia.
    + unfold plain_field. change (all_chars field_char (String c ds) = true).
      now apply (all_chars_impl isdigit field_char _ isdigit_field_char).
Qed.

(** ** Lines, trimming and splitting *)

Lemma plain_field_inv (s : string) :
  plain_field s = true ->
  exists c s', s = String c s' /\ field_char c = true /\ all_chars field_char s' = true.
Proof.
  unfold plain_field. destruct s as [|c s']; simpl; [discriminate|].
  rewrite andb_true_iff. intros [Hc Hs]. eauto.
Qed.

Lemma field_char_not_tab (c : ascii) : field_char c = true -> Ascii.eqb c tab = false.
Proof. unfold field_char. destruct (Ascii.eqb c tab); [discriminate | reflexivity]. Qed.

Lemma field_char_not_newline (c : ascii) :
  field_char c = true -> Ascii.eqb c newline = false.
Proof.
  unfold field_char. destruct (Ascii.eqb c newline); [|reflexivity].
  now rewrite andb_false_r.
Qed.

Lemma getlines_plain (s : string) :
  all_chars (fun c => negb (Ascii.eqb c newline)) s = true -> getlines s = [s].
Proof.
  induction s as [|c s IH]; simpl; [reflexivity|].
  rewrite andb_true_iff. intros [Hc Hs].
  apply negb_true_iff in Hc. rewrite Hc, (IH Hs). reflexivity.
Qed.

Lemma getlines_app_newline (a b : string) :
  all_chars (fun c => negb (Ascii.eqb c newline)) a = true ->
  getlines (a +:+ String newline b) = a :: getlines b.
Proof.
  induction a as [|c a IH]; simpl; [reflexivity|].
  rewrite andb_true_iff. intros [Hc Ha].
  apply negb_true_iff in Hc. rewrite Hc, (IH Ha). reflexivity.
Qed.

Lemma split_tab_last (a : string) :
  all_chars field_char a = true -> split_tab false a = [a].
Proof.
  induction a as [|c a IH]; simpl; [reflexivity|].
  rewrite andb_true_iff. intros [Hc Ha].
  rewrite (field_char_not_tab c Hc), (IH Ha). reflexivity.
Qed.

Lemma split_tab_field (a b : string) :
  all_chars field_char a = true ->
  split_tab false (a +:+ String tab b) = a :: split_tab true b.
Proof.
  induction a as [|c a IH]; simpl; [reflexivity|].
  rewrite andb_true_iff. intros [Hc Ha].
  rewrite (field_char_not_tab c Hc), (IH Ha). reflexivity.
Qed.

Lemma split_tab_after_sep (c : ascii) (s : string) :
  field_char c = true -> split_tab true (String c s) = split_tab false (String c s).
Proof. intros Hc. simpl. now rewrite (field_char_not_tab c Hc). Qed.

Lemma joined_starts (sep : ascii) (c : ascii) (s : string) (rest : list string) :
  exists s', joined sep (String c s) rest = String c s'.
Proof. destruct rest as [|r rest]; simpl; eauto. Qed.

(** Splitting a line of plain fields separated by single tabs gives the
    fields back. *)
Lemma split_joined (first : string) (rest : list string) :
  plain_field first = true -> Forall (fun s => plain_field s = true) rest ->
  boost_split (joined tab first rest) = first :: rest.
Proof.
  unfold boost_split. revert first.
  induction rest as [|s rest IH]; intros first Hfirst Hrest; simpl.
  - apply split_tab_last. unfold plain_field in Hfirst.
    now apply andb_true_iff in Hfirst as [_ H].
  - apply Forall_cons in Hrest as [Hs Hrest].
    rewrite split_tab_field
      by (unfold plain_field in Hfirst; now apply andb_true_iff in Hfirst as [_ H]).
    f_equal. destruct (plain_field_inv s Hs) as (c & s' & -> & Hc & _).
    destruct (joined_starts tab c s' rest) as [s'' Hj].
    rewrite Hj, (split_tab_after_sep c s'' Hc), <- Hj.
    now apply IH.
Qed.

Lemma each_followed_by_joined (sep : ascii) (first : string) (rest : list string) :
  each_followed_by sep (first :: rest) = joined sep first rest +:+ String sep "".
Proof.
  revert first. induction rest as [|s rest IH]; intros first; simpl.
  - reflexivity.
  - rewrite string_app_assoc. simpl. do 2 f_equal. apply IH.
Qed.

Lemma trim_right_tab (s : string) : trim_right (s +:+ String tab "") = trim_right s.
Proof. induction s as [|c s IH]; simpl; [reflexivity | now rewrite IH]. Qed.

Lemma trim_right_clean (s : string) : ends_clean s = true -> trim_right s = s.
Proof.
  induction s as [|c s IH]; [discriminate|].
  destruct s as [|c' s'].
  - simpl. intros H. apply negb_true_iff in H. now rewrite H.
  - intros H. change (ends_clean (String c' s') = true) in H.
    change (trim_right (String c (String c' s')))
      with (match trim_right (String c' s') with
            | EmptyString => if isspace c then EmptyString else String c EmptyString
            | t => String c t
            end).
    now rewrite (IH H).
Qed.

Lemma ends_clean_app (a : string) (c : ascii) (b : string) :
  ends_clean (a +:+ String c b) = ends_clean (String c b).
Proof.
  induction a as [|x a IH]; [reflexivity|].
  change (String x a +:+ String c b) with (String x (a +:+ String c b)).
  destruct a as [|y a]; [reflexivity|].
  change (String y a +:+ String c b) with (String y (a +:+ String c b)) in *.
  exact IH.
Qed.

Lemma ends_clean_joined (sep : ascii) (first : string) (init : list string)
    (v : string) :
  Forall (fun s => s <> "") (init ++ [v]) ->
  ends_clean (joined sep first (init ++ [v])) = ends_clean v.
Proof.
  revert first. induction init as [|s init IH]; intros first Hne.
  - apply Forall_cons in Hne as [Hv _]. simpl.
    rewrite ends_clean_app. destruct v; [contradiction | reflexivity].
  - change (joined sep first ((s :: init) ++ [v])%list)
      with (first +:+ String sep (joined sep s (init ++ [v])%list)).
    rewrite ends_clean_app.
    change ((s :: init) ++ [v])%list with (s :: (init ++ [v]))%list in Hne.
    apply Forall_cons in Hne as [Hs Hne].
    destruct s as [|c s']; [contradiction|].
    destruct (joined_starts sep c s' (init ++ [v])%list) as [s'' Hj].
    change (ends_clean (String sep (joined sep (String c s') (init ++ [v])%list)))
      with (match joined sep (String c s') (init ++ [v])%list with
            | EmptyString => negb (isspace sep)
            | String _ _ => ends_clean (joined sep (String c s') (init ++ [v])%list)
            end).
    rewrite Hj, <- Hj. now apply IH.
Qed.

(** ** Reading back what save_to_file wrote *)

Lemma load_lines_skip (l : string) (rest : list string) (c : cookies) :
  empty (trim l) || starts_with_hash (trim l) = true ->
  load_lines (l :: rest) c = load_lines rest c.
Proof. intros H. simpl. now rewrite H. Qed.

(** The comment block at the head of the file is skipped. *)
Lemma load_lines_memo (line : string) (c : cookies) :
  all_chars (fun c => negb (Ascii.eqb c newline)) line = true ->
  load_lines (getlines (memo +:+ line)) c = load_lines [line] c.
Proof.
  intros Hline.
  change (memo +:+ line)
    with ("# Netscape HTTP Cookie File" +:+ String newline
          ("# http://curl.haxx.se/docs/http-cookies.html" +:+ String newline
           ("# This file was generated by libcurl! Edit at your own risk."
              +:+ String newline ("" +:+ String newline line)))).
  rewrite !getlines_app_newline by reflexivity.
  rewrite (getlines_plain line Hline).
  rewrite !load_lines_skip by reflexivity. reflexivity.
Qed.

Lemma all_chars_each_followed_by (fields : list string) :
  Forall (fun s => plain_field s = true) fields ->
  all_chars (fun c => negb (Ascii.eqb c newline)) (each_followed_by tab fields) = true.
Proof.
  induction 1 as [|s fields Hs _ IH]; simpl; [reflexivity|].
  rewrite all_chars_app. simpl. rewrite IH, andb_true_r.
  unfold plain_field in Hs. apply andb_true_iff in Hs as [_ Hs].
  apply (all_chars_impl field_char); [|exact Hs].
  intros c Hc. now rewrite (field_char_not_newline c Hc).
Qed.

(** boost::trim takes the final tab off a written record and nothing
    else. *)
Lemma trim_saved_record (first : string) (init : list string) (v : string) :
  starts_clean first = true -> Forall (fun s => s <> "") (init ++ [v]) ->
  ends_clean v = true ->
  trim (each_followed_by tab (first :: init ++ [v])) = joined tab first (init ++ [v]).
Proof.
  intros Hfirst Hne Hv.
  rewrite each_followed_by_joined. unfold trim. rewrite trim_right_tab.
  rewrite trim_right_clean by (now rewrite ends_clean_joined).
  destruct first as [|c first]; [discriminate|].
  destruct (joined_starts tab c first (init ++ [v])) as [s' ->].
  simpl in Hfirst. apply andb_true_iff in Hfirst as [Hc _].
  apply negb_true_iff in Hc. simpl. now rewrite Hc.
Qed.

Lemma plain_field_nonempty (s : string) : plain_field s = true -> s <> "".
Proof. destruct s; [discriminate | discriminate]. Qed.

(** C3, as amended.  A store of one record whose domain, path, name and
    value are non-empty and free of tabs and newlines, whose domain does
    not begin with white space or '#', whose value does not end with
    white space, and which expires at a time within the years 1400 to
    9999 of boost's calendar, is written to a file from which
    load_from_file appends exactly one record: it has the same domain,
    path, secure flag, name and value, and it expires at the same time
    cut down to whole seconds. *)
Theorem load_after_save_one_record (file_size : Z) (default_domain : string)
    (c target : cookies) (cookie : http_cookie) (ticks : Z) :
  m_cookies c = [cookie] ->
  plain_field (domain cookie) = true -> starts_clean (domain cookie) = true ->
  plain_field (path cookie) = true ->
  plain_field (name cookie) = true ->
  plain_field (value cookie) = true -> ends_clean (value cookie) = true ->
  expires cookie = time_at ticks ->
  within_dates (ticks / ticks_per_second) = true ->
  exists file,
    save_to_file true file_size default_domain c = save_done file /\
    load_from_file (Some file) target
    = load_done (push_back (reloaded cookie ticks) target) /\
    ptime_to_time_t (expires (reloaded cookie ticks))
    = ptime_to_time_t (expires cookie).
Proof.
  intros Hc Hdom Hstart Hpath Hname Hvalue Hend Hexp Hdates.
  assert (Hrange : LONG_MIN <= ticks / ticks_per_second <= LONG_MAX).
  { unfold within_dates, MIN_DATE_TIME, MAX_DATE_TIME in Hdates.
    apply andb_true_iff in Hdates as [Hlo Hhi].
    apply Z.leb_le in Hlo, Hhi. unfold LONG_MIN, LONG_MAX. lia. }
  destruct (atol_time_t_to_string _ Hrange) as [Hatol Htime].
  set (fields := cookie_fields default_domain cookie).
  assert (Hfields : fields
            = domain cookie
              :: ["TRUE"; path cookie; if secure cookie then "TRUE" else "FALSE";
                  time_t_to_string (ticks / ticks_per_second); name cookie]
              ++ [value cookie]).
  { unfold fields, cookie_fields. rewrite Hexp. simpl.
    destruct (domain cookie); [discriminate Hdom | reflexivity]. }
  assert (Hsec : plain_field (if secure cookie then "TRUE" else "FALSE") = true)
    by (destruct (secure cookie); reflexivity).
  assert (Hplain : Forall (fun s => plain_field s = true) fields).
  { rewrite Hfields. repeat (constructor; [assumption || reflexivity|]). constructor. }
  assert (Hline : all_chars (fun c => negb (Ascii.eqb c newline))
                    (each_followed_by tab fields) = true)
    by now apply all_chars_each_followed_by.
  assert (Htrim : trim (each_followed_by tab fields)
                  = joined tab (domain cookie)
                      (["TRUE"; path cookie; if secure cookie then "TRUE" else "FALSE";
                        time_t_to_string (ticks / ticks_per_second); name cookie]
                       ++ [value cookie])).
  { rewrite Hfields. apply trim_saved_record; [assumption| |assumption].
    rewrite Hfields in Hplain. apply Forall_cons in Hplain as [_ Hplain].
    eapply Forall_impl; [exact Hplain|]. intros s. apply plain_field_nonempty. }
  assert (Hload : load_lines [each_followed_by tab fields] target
                  = load_done (push_back (reloaded cookie ticks) target)).
  { cbn [load_lines]. rewrite Htrim.
    destruct (domain cookie) as [|d0 dom] eqn:Hd; [discriminate Hdom|].
    destruct (joined_starts tab d0 dom
                (["TRUE"; path cookie; if secure cookie then "TRUE" else "FALSE";
                  time_t_to_string (ticks / ticks_per_second); name cookie]
                 ++ [value cookie])) as [s' Hj].
    rewrite Hj. cbn [empty starts_with_hash orb].
    simpl in Hstart. apply andb_true_iff in Hstart as [_ Hhash].
    apply negb_true_iff in Hhash. rewrite Hhash. rewrite <- Hj.
    unfold decode_line. rewrite split_joined.
    - cbn. rewrite Hatol, Hdates. unfold reloaded, from_time_t. rewrite Hd.
      destruct (secure cookie); reflexivity.
    - assumption.
    - rewrite Hfields in Hplain. now apply Forall_cons in Hplain as [_ Hplain]. }
  exists ((if file_size =? 0 then memo else "") +:+ each_followed_by tab fields).
  split; [|split].
  - unfold save_to_file. rewrite Hc. cbn [negb fold_left].
    rewrite save_cookie_fields.
    destruct (file_size =? 0); reflexivity.
  - unfold load_from_file. destruct (file_size =? 0).
    + now rewrite load_lines_memo.
    + cbn [String.append]. now rewrite (getlines_plain _ Hline).
  - unfold reloaded. rewrite Hexp. simpl.
    rewrite Z.div_mul by (unfold ticks_per_second; lia). reflexivity.
Qed.

Lemma load_after_save_one_record_witness :
  exists file,
    save_to_file true 0 "" store_n = save_done file /\
    load_from_file (Some file) cookies_new
    = load_done (push_back (reloaded cookie_n 100000000) cookies_new) /\
    ptime_to_time_t (expires (reloaded cookie_n 100000000))
    = ptime_to_time_t (expires cookie_n).
Proof.
  apply (load_after_save_one_record 0 "" store_n cookies_new cookie_n 100000000);
    reflexivity.
Defined.

(** C3 as stated fails.  The record of [store_session] has no expiry; it
    is written with 0 in the expires field and read back as expiring at
    the epoch, so the expiry read back is not the one of the store.  The
    record made by operator()("a", "1") has an empty domain and an empty
    path: of its line only five fields are left after trimming and
    splitting, and the reader indexes past them. *)
Lemma load_after_save_changes_expires :
  save_to_file true 0 "" store_session = save_done (memo +:+ store_session_text) /\
  load_from_file (Some (memo +:+ store_session_text)) cookies_new
  = load_done
      {| m_cookies := [ {| name := "n"; value := "v"; domain := "d"; path := "/";
                           expires := time_at 0;
                           httponly := false; secure := false |} ];
         m_default_domain := "" |} /\
  expires cookie_session = not_a_date_time /\
  save_then_load store_session <> Some (load_done store_session) /\
  save_then_load store_a = Some (load_out_of_range cookies_new).
Proof. repeat split. discriminate. Qed.

(** With the tab that ends each record, two records share one line, and
    only the first of them is read back. *)
Lemma load_after_save_two_records :
  m_cookies store_n_m = [cookie_n; cookie_m] /\
  save_then_load store_n_m
  = Some (load_done (push_back (reloaded cookie_n 100000000) cookies_new)).
Proof. split; reflexivity. Qed.

(** ** Names of stored records *)

Lemma trim_left_starts (s : string) :
  trim_left s = "" \/ exists c s', trim_left s = String c s' /\ isspace c = false.
Proof.
  induction s as [|c s IH]; simpl; [now left|].
  destruct (isspace c) eqn:Hc; [exact IH | right; eauto].
Qed.

Lemma trim_right_ends (s : string) :
  trim_right s = "" \/ ends_clean (trim_right s) = true.
Proof.
  induction s as [|c s IH]; simpl; [now left|].
  destruct (trim_right s) as [|c' t] eqn:Ht.
  - destruct (isspace c) eqn:Hc; [now left | right; simpl; now rewrite Hc].
  - right. destruct IH as [IH|IH]; [discriminate | exact IH].
Qed.

Lemma trim_left_ends (s : string) :
  ends_clean s = true -> ends_clean (trim_left s) = true.
Proof.
  induction s as [|c s IH]; [discriminate|].
  intros H. cbn [trim_left]. destruct (isspace c) eqn:Hc; [|exact H].
  destruct s as [|c' s']; [simpl in H; now rewrite Hc in H|].
  apply IH. exact H.
Qed.

(** A trimmed line is empty, or begins and ends with something else than
    white space. *)
Lemma trim_shape (l : string) :
  trim l = "" \/
  (exists c s', trim l = String c s' /\ isspace c = false) /\ ends_clean (trim l) = true.
Proof.
  unfold trim. destruct (trim_right_ends l) as [->|Hends]; [now left|].
  destruct (trim_left_starts (trim_right l)) as [H|H].
  - apply trim_left_ends in Hends. rewrite H in Hends. discriminate.
  - right. split; [exact H | now apply trim_left_ends].
Qed.

Lemma tab_isspace (c : ascii) : Ascii.eqb c tab = true -> isspace c = true.
Proof. intros H. apply Ascii.eqb_eq in H. now subst c. Qed.

(** With token_compress_on only the first and the last token can be
    empty, and only next to a leading or trailing tab. *)
Lemma split_tab_tokens (s : string) :
  ends_clean s = true ->
  Forall (fun t => t <> "") (split_tab true s) /\
  exists t ts, split_tab false s = t :: ts /\ Forall (fun t => t <> "") ts /\
    (forall c s', s = String c s' -> Ascii.eqb c tab = false -> t <> "").
Proof.
  induction s as [|c s IH]; [discriminate|].
  intros Hends. cbn [split_tab].
  destruct (Ascii.eqb c tab) eqn:Hc.
  - destruct s as [|c' s'].
    { simpl in Hends. now rewrite (tab_isspace c Hc) in Hends. }
    destruct (IH Hends) as [Htrue _]. split; [exact Htrue|].
    exists "", (split_tab true (String c' s')). split; [reflexivity|].
    split; [exact Htrue|]. intros c0 s0 [= -> _] H. congruence.
  - destruct s as [|c' s'].
    { simpl. split; [repeat constructor; discriminate|].
      exists (String c ""), []. repeat split; [constructor | discriminate]. }
    destruct (IH Hends) as [_ (t & ts & Hsplit & Hts & _)]. rewrite Hsplit.
    split; [constructor; [discriminate | exact Hts]|].
    exists (String c t), ts. repeat split; [exact Hts | discriminate].
Qed.

(** What a line that decodes looks like. *)
Lemma decode_line_decoded (line : string) (cookie : http_cookie) :
  decode_line line = decoded cookie ->
  exists s0 s2 s3 s4 s5 s6,
    boost_split line !! 0%nat = Some s0 /\ boost_split line !! 2%nat = Some s2 /\
    boost_split line !! 3%nat = Some s3 /\ boost_split line !! 4%nat = Some s4 /\
    boost_split line !! 5%nat = Some s5 /\ boost_split line !! 6%nat = Some s6 /\
    within_dates (atol s4) = true /\
    cookie = {| name := s5; value := s6; domain := s0; path := s2;
                expires := from_time_t (atol s4); httponly := false;
                secure := if String.eqb s3 "TRUE" then true else false |}.
Proof.
  unfold decode_line.
  destruct (boost_split line !! 4%nat) as [s4|]; [|discriminate].
  destruct (boost_split line !! 0%nat) as [s0|]; [|discriminate].
  destruct (boost_split line !! 2%nat) as [s2|]; [|discriminate].
  destruct (boost_split line !! 3%nat) as [s3|]; [|discriminate].
  destruct (within_dates (atol s4)) eqn:Hdates; [|discriminate]. cbn [negb].
  destruct (boost_split line !! 5%nat) as [s5|]; [|discriminate].
  destruct (boost_split line !! 6%nat) as [s6|]; [|discriminate].
  intros [= <-]. exists s0, s2, s3, s4, s5, s6. repeat split. exact Hdates.
Qed.

Lemma decode_line_named (l : string) (cookie : http_cookie) :
  trim l <> "" -> decode_line (trim l) = decoded cookie -> name cookie <> "".
Proof.
  intros Hne. destruct (trim_shape l) as [H|[(c & s' & Hshape & Hc) Hends]];
    [contradiction|].
  destruct (split_tab_tokens _ Hends) as [_ (t & ts & Hsplit & Hts & Ht)].
  assert (Hall : Forall (fun t => t <> "") (boost_split (trim l))).
  { unfold boost_split. rewrite Hsplit. constructor; [|exact Hts].
    eapply Ht; [exact Hshape|].
    destruct (Ascii.eqb c tab) eqn:Htab; [|reflexivity].
    now rewrite (tab_isspace c Htab) in Hc. }
  intros Hd.
  destruct (decode_line_decoded _ _ Hd)
    as (s0 & s2 & s3 & s4 & s5 & s6 & _ & _ & _ & _ & H5 & _ & _ & ->).
  simpl. rewrite Forall_forall in Hall. apply Hall.
  eapply list_elem_of_lookup_2. exact H5.
Qed.

Lemma push_back_named (r : http_cookie) (c : cookies) :
  name r <> "" -> all_named (m_cookies c) -> all_named (m_cookies (push_back r c)).
Proof.
  intros Hr Hc. unfold all_named, push_back; simpl.
  apply Forall_app. split; [exact Hc | now constructor].
Qed.

Lemma load_lines_named (lines : list string) (c c' : cookies) :
  load_lines lines c = load_done c' ->
  all_named (m_cookies c) -> all_named (m_cookies c').
Proof.
  revert c. induction lines as [|l rest IH]; intros c; simpl.
  - now intros [= <-].
  - destruct (empty (trim l)) eqn:He; simpl; [apply IH|].
    destruct (starts_with_hash (trim l)); [apply IH|].
    destruct (decode_line (trim l)) as [cookie| |] eqn:Hd;
      [|discriminate|discriminate].
    intros Hload Hc. eapply IH; [exact Hload|].
    apply push_back_named; [|exact Hc].
    eapply decode_line_named; [|exact Hd]. now apply empty_false.
Qed.

Lemma remove_copy_if_into_named (l : list http_cookie) (ret ret' : cookies) :
  remove_copy_if_into l ret = Some ret' ->
  all_named l -> all_named (m_cookies ret) -> all_named (m_cookies ret').
Proof.
  revert ret. induction l as [|x l IH]; intros ret; simpl.
  - now intros [= <-].
  - unfold admit_step.
    destruct (cookie_not_megerable x ret) as [[]|]; simpl; [| |discriminate];
      intros Hwalk Hl Hret; apply Forall_cons in Hl as [Hx Hl];
      (eapply IH; [exact Hwalk | exact Hl |]); [exact Hret|].
    now apply push_back_named.
Qed.

Lemma operator_plus_named (lhs rhs ret : cookies) :
  operator_plus lhs rhs ret ->
  all_named (m_cookies lhs) -> all_named (m_cookies rhs) ->
  all_named (m_cookies ret).
Proof.
  intros (scratch & [Hperm _] & Hwalk) Hl Hr.
  eapply remove_copy_if_into_named; [exact Hwalk| |constructor].
  unfold all_named. rewrite <- Hperm. apply Forall_app. now split.
Qed.

Section OperationFacts.
Variable is_char : ascii -> bool.
Variable is_tspecial : ascii -> bool.
Variable parse_http_date : string -> ptime -> bool * ptime.
Variable assert_enabled : bool.

(** The records parse_cookie_string emits are named after the keys of
    the map, and a key is never empty. *)
Lemma parse_cookie_string_named (dd str : string) (cookie : list http_cookie) :
  parse_cookie_string is_char is_tspecial parse_http_date assert_enabled dd str
  = parse_true cookie ->
  all_named cookie.
Proof.
  unfold parse_cookie_string, finish.
  destruct (flush (tokenize is_char is_tspecial str tokenizer_init))
    as [t|] eqn:Hf; [|discriminate].
  destruct (scan_attributes parse_http_date assert_enabled dd (tmp t) (cookie_tmp t))
    as [[ct kept]|] eqn:Hscan; [|discriminate].
  intros [= <-].
  destruct (flush_inv _ _ (tokenize_inv is_char is_tspecial str _ tokenizer_init_inv) Hf)
    as [_ Hkeys].
  rewrite (scan_attributes_kept _ _ _ _ _ _ _ Hscan).
  unfold all_named, emit. clear Hscan Hf.
  induction Hkeys as [|kv m Hkv _ IH]; simpl; [constructor|].
  destruct (negb (reserved_key (fst kv))); [|exact IH].
  simpl. constructor; [exact Hkv | exact IH].
Qed.

Lemma fold_push_back_named (l : list http_cookie) (c : cookies) :
  all_named l -> all_named (m_cookies c) ->
  all_named (m_cookies (fold_left (fun acc i => push_back i acc) l c)).
Proof.
  revert c. induction l as [|x l IH]; intros c Hl Hc; simpl; [exact Hc|].
  apply Forall_cons in Hl as [Hx Hl]. apply IH; [exact Hl|].
  now apply push_back_named.
Qed.

Lemma performs_named (c c' : cookies) (op : operation) :
  performs is_char is_tspecial parse_http_date assert_enabled c op c' ->
  operation_named op -> all_named (m_cookies c) -> all_named (m_cookies c').
Proof.
  intros Hp Hop Hc. destruct Hp as [n v|cookie|str c' Hs|file c' Hl|rhs ret Hplus];
    simpl in Hop.
  - now apply push_back_named.
  - now apply push_back_named.
  - unfold insert_string in Hs.
    destruct (parse_cookie_string is_char is_tspecial parse_http_date assert_enabled
                (m_default_domain c) str) as [| |cookie] eqn:Hparse;
      [discriminate| |]; injection Hs as <-; [exact Hc|].
    apply fold_push_back_named; [|exact Hc].
    eapply parse_cookie_string_named. exact Hparse.
  - destruct file as [content|]; [|discriminate]. simpl in Hl.
    eapply load_lines_named; eassumption.
  - eapply operator_plus_named; eassumption.
Qed.

(** What remains of C9: as long as the names handed to the two direct
    insertion members are not empty (and the containers merged in hold
    named records only), every container reached from a fresh one by
    insertion, parsing, loading and merging holds named records only. *)
Lemma reaches_named (ops : list operation) (c : cookies) :
  reaches is_char is_tspecial parse_http_date assert_enabled ops c ->
  Forall operation_named ops -> all_named (m_cookies c).
Proof.
  induction 1 as [|ops c op c' Hreach IH Hp]; intros Hops; [constructor|].
  apply Forall_app in Hops as [Hops Hop]. apply Forall_cons in Hop as [Hop _].
  eapply performs_named; [exact Hp | exact Hop | now apply IH].
Qed.
End OperationFacts.

(** * Further properties of the members *)

(** ** Lookup *)

Lemma same_key_full_key (i key : http_cookie) :
  same_key i key = true <-> full_key i = full_key key.
Proof.
  unfold same_key, full_key. rewrite !andb_true_iff, !String.eqb_eq.
  split; [intros [[-> ->] ->]; reflexivity | intros [= -> -> ->]; auto].
Qed.

(** X1.  find(name) returns the first record with that name: nothing
    before it in the container bears the name; it returns end() exactly
    when no record bears it. *)
Theorem find_name_first (key : string) (l : list http_cookie) :
  match find_name key l with
  | Some r =>
      exists before after,
        l = (before ++ r :: after)%list /\ name r = key /\
        Forall (fun x => name x <> key) before
  | None => Forall (fun x => name x <> key) l
  end.
Proof.
  induction l as [|i rest IH]; simpl; [constructor|].
  destruct (String.eqb_spec (name i) key) as [Heq|Hne].
  - exists [], rest. repeat split; [exact Heq | constructor].
  - destruct (find_name key rest) as [r|].
    + destruct IH as (before & after & -> & Hr & Hb).
      exists (i :: before), after. repeat split; [exact Hr | now constructor].
    + now constructor.
Qed.

(** X2.  find(cookie) returns the first record with the same name,
    domain and path as the argument, and end() exactly when there is
    none. *)
Theorem find_key_first (key : http_cookie) (l : list http_cookie) :
  match find_key key l with
  | Some r =>
      exists before after,
        l = (before ++ r :: after)%list /\ full_key r = full_key key /\
        Forall (fun x => full_key x <> full_key key) before
  | None => Forall (fun x => full_key x <> full_key key) l
  end.
Proof.
  induction l as [|i rest IH]; simpl; [constructor|].
  destruct (same_key i key) eqn:Hk.
  - apply same_key_full_key in Hk.
    exists [], rest. repeat split; [exact Hk | constructor].
  - assert (Hne : full_key i <> full_key key).
    { intros H. apply same_key_full_key in H. congruence. }
    destruct (find_key key rest) as [r|].
    + destruct IH as (before & after & -> & Hr & Hb).
      exists (i :: before), after. repeat split; [exact Hr | now constructor].
    + now constructor.
Qed.

Lemma value_of_app (key : string) (l k : list http_cookie) :
  value_of key (l ++ k)%list
  = if empty (value_of key l) then value_of key k else value_of key l.
Proof.
  induction l as [|i rest IH]; simpl; [reflexivity|].
  destruct (String.eqb (name i) key && negb (empty (value i))) eqn:Hc; [|exact IH].
  apply andb_true_iff in Hc as [_ Hc]. apply negb_true_iff in Hc. now rewrite Hc.
Qed.

(** X3.  operator[] returns the value of the first record that bears the
    name and has a non-empty value, passing over records of that name
    whose value is empty; it returns the empty string exactly when every
    record of that name has an empty value. *)
Theorem value_of_first_nonempty (key : string) (l : list http_cookie) :
  match value_of key l with
  | EmptyString => Forall (fun x => name x = key -> value x = "") l
  | String _ _ =>
      exists before r after,
        l = (before ++ r :: after)%list /\ name r = key /\ value r = value_of key l /\
        Forall (fun x => name x = key -> value x = "") before
  end.
Proof.
  induction l as [|i rest IH]; simpl; [constructor|].
  destruct (String.eqb_spec (name i) key) as [Heq|Hne]; simpl.
  - destruct (value i) as [|c v] eqn:Hv; simpl.
    + destruct (value_of key rest) as [|c' v'] eqn:Hrest.
      * constructor; [intros _; exact Hv | exact IH].
      * destruct IH as (before & r & after & -> & Hr & Hval & Hb).
        exists (i :: before), r, after. repeat split; try assumption.
        constructor; [intros _; exact Hv | exact Hb].
    + exists [], i, rest. repeat split; [exact Heq | exact Hv | constructor].
  - destruct (value_of key rest) as [|c' v'] eqn:Hrest.
    + constructor; [intros H; contradiction | exact IH].
    + destruct IH as (before & r & after & -> & Hr & Hval & Hb).
      exists (i :: before), r, after. repeat split; try assumption.
      constructor; [intros H; contradiction | exact Hb].
Qed.

(** X4.  After c(n, v), operator[] answers as before for every key that
    already had a non-empty value, the key n included: the first value
    wins.  For a key without one it answers v if the key is n and the
    empty string otherwise. *)
Theorem value_of_after_insert (n v key : string) (c : cookies) :
  value_of key (m_cookies (insert_name_value n v c))
  = if empty (value_of key (m_cookies c))
    then (if String.eqb n key then v else "")
    else value_of key (m_cookies c).
Proof.
  unfold insert_name_value, push_back. cbn [m_cookies].
  rewrite value_of_app. destruct (empty (value_of key (m_cookies c))); [|reflexivity].
  simpl. destruct (String.eqb n key); [|reflexivity].
  destruct v; reflexivity.
Qed.

(** ** Removal by name, continued *)

Section RemoveIfFront.
Context {A : Type} (assigned_from : A -> A) (pred : A -> bool).

Lemma find_if_spec (l : list A) :
  match find_if pred l with
  | Some k =>
      List.filter (fun x => negb (pred x)) (take k l) = take k l /\
      exists x, l !! k = Some x /\ pred x = true
  | None => List.filter (fun x => negb (pred x)) l = l
  end.
Proof.
  induction l as [|a l IH]; simpl; [reflexivity|].
  destruct (pred a) eqn:Ha; simpl.
  - split; [reflexivity | eauto].
  - destruct (find_if pred l) as [k|]; simpl.
    + destruct IH as [Hf Hx]. rewrite Ha. simpl. split; [now rewrite Hf | exact Hx].
    + now rewrite IH.
Qed.

Lemma filter_snoc (f : A -> bool) (l : list A) (x : A) :
  List.filter f (l ++ [x])%list
  = (List.filter f l ++ (if f x then [x] else []))%list.
Proof. rewrite List.filter_app. reflexivity. Qed.

(** The loop keeps the survivors of the part it has walked at the front
    of the vector and leaves the part ahead of it alone. *)
Lemma remove_if_loop_front (l : list A) (cnt first result : nat) (v : list A) :
  length v = length l -> (first + cnt)%nat = length l -> (result < first)%nat ->
  take result v = List.filter (fun x => negb (pred x)) (take first l) ->
  drop first v = drop first l ->
  let out := remove_if_loop assigned_from pred cnt first result v in
  take (snd out) (fst out) = List.filter (fun x => negb (pred x)) l /\
  snd out = length (List.filter (fun x => negb (pred x)) l).
Proof.
  revert first result v.
  induction cnt as [|cnt IH]; intros first result v Hlen Hcnt Hlt Htake Hdrop.
  - simpl. replace first with (length l) in Htake by lia.
    rewrite firstn_all in Htake. split; [exact Htake|].
    rewrite <- Htake, length_take. lia.
  - cbn [remove_if_loop].
    assert (Hfirst : (first < length l)%nat) by lia.
    destruct (lookup_lt_is_Some_2 l first Hfirst) as [x Hx].
    assert (Hvx : v !! first = Some x).
    { rewrite <- (Nat.add_0_r first), <- lookup_drop, Hdrop, lookup_drop.
      now rewrite Nat.add_0_r. }
    rewrite Hvx.
    destruct (pred x) eqn:Hp; simpl.
    + apply IH; try lia; try assumption.
      * rewrite (take_S_r l first x Hx), filter_snoc, Hp. simpl.
        now rewrite app_nil_r.
      * replace (S first) with (first + 1)%nat by lia.
        now rewrite <- !drop_drop, Hdrop.
    + apply IH; try lia.
      * now rewrite !length_insert.
      * rewrite (take_S_r l first x Hx), filter_snoc, Hp. simpl.
        rewrite take_insert_ge by lia.
        rewrite (take_S_r _ result x).
        -- now rewrite take_insert_ge, Htake by lia.
        -- apply list_lookup_insert_eq. lia.
      * rewrite !drop_insert_lt by lia.
        replace (S first) with (first + 1)%nat by lia.
        now rewrite <- !drop_drop, Hdrop.
Qed.

Lemma remove_if_front (l : list A) :
  take (snd (remove_if assigned_from pred l)) (fst (remove_if assigned_from pred l))
  = List.filter (fun x => negb (pred x)) l /\
  snd (remove_if assigned_from pred l)
  = length (List.filter (fun x => negb (pred x)) l).
Proof.
  unfold remove_if. pose proof (find_if_spec l) as Hspec.
  destruct (find_if pred l) as [k|].
  - destruct Hspec as [Hf (x & Hx & Hp)].
    pose proof (lookup_lt_Some _ _ _ Hx) as Hk.
    apply remove_if_loop_front; try lia; try reflexivity.
    rewrite (take_S_r l k x Hx), filter_snoc, Hp. simpl.
    now rewrite app_nil_r, Hf.
  - simpl. rewrite firstn_all, Hspec. auto.
Qed.
End RemoveIfFront.

Lemma filter_split_length {A : Type} (f : A -> bool) (l : list A) :
  length l
  = (length (List.filter (fun x => negb (f x)) l) + length (List.filter f l))%nat.
Proof.
  induction l as [|x l IH]; simpl; [reflexivity|].
  destruct (f x); simpl; lia.
Qed.

(** X5.  remove_cookie moves the records that do not bear the name to
    the front of the vector, in their order; they are the part of the
    vector that ends where the iterator returned by std::remove_if (and
    thrown away) points.  The vector keeps its length, so behind them
    stand as many left-over records as were to be removed. *)
Theorem remove_cookie_front (assigned_from : http_cookie -> http_cookie)
    (n : string) (c : cookies) :
  take (length (not_named n (m_cookies c)))
       (m_cookies (remove_cookie assigned_from n c))
  = not_named n (m_cookies c) /\
  snd (remove_if assigned_from (http_cookie_is_same_name n) (m_cookies c))
  = length (not_named n (m_cookies c)) /\
  (length (m_cookies (remove_cookie assigned_from n c))
   = length (not_named n (m_cookies c))
     + length (List.filter (http_cookie_is_same_name n) (m_cookies c)))%nat.
Proof.
  destruct (remove_if_front assigned_from (http_cookie_is_same_name n) (m_cookies c))
    as [Htake Hsnd].
  unfold remove_cookie, not_named. cbn [m_cookies].
  split; [now rewrite <- Hsnd|]. split; [exact Hsnd|].
  rewrite remove_if_length. apply filter_split_length.
Qed.

(** ** The cookie file reader, continued *)

Lemma extend_nil (c : cookies) : extend c [] = c.
Proof. destruct c. unfold extend. simpl. now rewrite app_nil_r. Qed.

Lemma extend_push_back (c : cookies) (r : http_cookie) (added : list http_cookie) :
  extend (push_back r c) added = extend c (r :: added).
Proof. unfold extend, push_back. simpl. now rewrite <- app_assoc. Qed.

Lemma decode_line_shape (l : string) (cookie : http_cookie) :
  trim l <> "" -> decode_line (trim l) = decoded cookie -> loaded_shape cookie.
Proof.
  intros Hne. destruct (trim_shape l) as [H|[(c & s' & Hshape & Hc) Hends]];
    [contradiction|].
  destruct (split_tab_tokens _ Hends) as [_ (t & ts & Hsplit & Hts & Ht)].
  assert (Hall : Forall (fun t => t <> "") (boost_split (trim l))).
  { unfold boost_split. rewrite Hsplit. constructor; [|exact Hts].
    eapply Ht; [exact Hshape|].
    destruct (Ascii.eqb c tab) eqn:Htab; [|reflexivity].
    now rewrite (tab_isspace c Htab) in Hc. }
  rewrite Forall_forall in Hall. intros Hd.
  destruct (decode_line_decoded _ _ Hd)
    as (s0 & s2 & s3 & s4 & s5 & s6 & H0 & H2 & _ & _ & H5 & H6 & _ & ->).
  unfold loaded_shape. simpl.
  repeat split; try reflexivity;
    apply Hall; eapply list_elem_of_lookup_2; eassumption.
Qed.

Lemma load_lines_appends (lines : list string) (c : cookies) :
  exists added,
    (load_lines lines c = load_done (extend c added) \/
     load_lines lines c = load_out_of_range (extend c added) \/
     load_lines lines c = load_bad_date (extend c added)) /\
    Forall loaded_shape added.
Proof.
  revert c. induction lines as [|l rest IH]; intros c; simpl.
  - exists []. rewrite extend_nil. split; [now left | constructor].
  - destruct (empty (trim l)) eqn:He; simpl; [apply IH|].
    destruct (starts_with_hash (trim l)); [apply IH|].
    destruct (decode_line (trim l)) as [cookie| |] eqn:Hd.
    + destruct (IH (push_back cookie c)) as (added & Hload & Hshape).
      exists (cookie :: added). rewrite <- extend_push_back. split; [exact Hload|].
      constructor; [|exact Hshape].
      eapply decode_line_shape; [|exact Hd]. now apply empty_false.
    + exists []. rewrite extend_nil. split; [right; now left | constructor].
    + exists []. rewrite extend_nil. split; [right; now right | constructor].
Qed.

(** X6.  load_from_file only appends.  Whatever the file holds, the
    records that were in the container stay where they are and the
    default domain is untouched, whether the call returns, a short line
    sends it past the end of split_vec, or a time stamp outside the
    calendar makes line 260 throw. *)
Theorem load_from_file_appends (content : string) (c : cookies) :
  exists added,
    load_from_file (Some content) c = load_done (extend c added) \/
    load_from_file (Some content) c = load_out_of_range (extend c added) \/
    load_from_file (Some content) c = load_bad_date (extend c added).
Proof.
  destruct (load_lines_appends (getlines content) c) as (added & H & _).
  exists added. exact H.
Qed.

(** X7.  Every record load_from_file appends has httponly false and an
    expiry that is set (a 0 in the file becomes the epoch, never "no
    expiry"), and its name, value, domain and path are not empty. *)
Theorem load_from_file_record_shape (content : string) (c c' : cookies) :
  load_from_file (Some content) c = load_done c' ->
  exists added, c' = extend c added /\ Forall loaded_shape added.
Proof.
  simpl. intros Hload.
  destruct (load_lines_appends (getlines content) c)
    as (added & [H|[H|H]] & Hshape);
    rewrite H in Hload; [|discriminate|discriminate].
  injection Hload as <-. eauto.
Qed.

Lemma load_from_file_record_shape_witness :
  exists added,
    {| m_cookies := [reloaded cookie_n 100000000]; m_default_domain := "" |}
    = extend cookies_new added /\ Forall loaded_shape added.
Proof.
  apply (load_from_file_record_shape (memo +:+ store_n_text) cookies_new).
  reflexivity.
Defined.

(** The seconds a line carries in its fifth field. *)
Lemma decode_line_defined (line : string) :
  (exists cookie, decode_line line = decoded cookie)
  <-> (7 <= length (boost_split line))%nat /\
      exists s4, boost_split line !! 4%nat = Some s4 /\ within_dates (atol s4) = true.
Proof.
  split.
  - intros [cookie H].
    destruct (decode_line_decoded _ _ H)
      as (s0 & s2 & s3 & s4 & s5 & s6 & _ & _ & _ & H4 & _ & H6 & Hdates & _).
    split; [apply lookup_lt_Some in H6; lia | eauto].
  - intros [Hlen (s4 & H4 & Hdates)]. unfold decode_line. rewrite H4, Hdates.
    destruct (lookup_lt_is_Some_2 (boost_split line) 0) as [s0 ->]; [lia|].
    destruct (lookup_lt_is_Some_2 (boost_split line) 2) as [s2 ->]; [lia|].
    destruct (lookup_lt_is_Some_2 (boost_split line) 3) as [s3 ->]; [lia|].
    destruct (lookup_lt_is_Some_2 (boost_split line) 5) as [s5 ->]; [lia|].
    destruct (lookup_lt_is_Some_2 (boost_split line) 6) as [s6 ->]; [lia|].
    simpl. eauto.
Qed.

Lemma decode_line_past_end (line : string) :
  decode_line line = decode_past_end -> (length (boost_split line) < 7)%nat.
Proof.
  unfold decode_line.
  destruct (boost_split line !! 4%nat) as [s4|] eqn:H4;
    [|intros _; apply lookup_ge_None in H4; lia].
  destruct (lookup_lt_is_Some_2 (boost_split line) 0) as [s0 ->];
    [apply lookup_lt_Some in H4; lia|].
  destruct (lookup_lt_is_Some_2 (boost_split line) 2) as [s2 ->];
    [apply lookup_lt_Some in H4; lia|].
  destruct (lookup_lt_is_Some_2 (boost_split line) 3) as [s3 ->];
    [apply lookup_lt_Some in H4; lia|].
  destruct (within_dates (atol s4)); [|discriminate]. cbn [negb].
  destruct (boost_split line !! 5%nat) as [s5|] eqn:H5;
    [|intros _; apply lookup_ge_None in H5; lia].
  destruct (boost_split line !! 6%nat) as [s6|] eqn:H6;
    [discriminate | intros _; apply lookup_ge_None in H6; lia].
Qed.

(** X8.  When load_from_file runs to its end, every line of the file that
    is neither blank nor a comment has split into at least seven fields;
    and it does run to its end when every such line has at least seven
    fields and, in the fifth, seconds that fall within the calendar (the
    years 1400 to 9999).  Fields after the seventh are ignored.  The last
    part is the file of two lines, the second of which carries the first
    second of the year 10000: its seven fields do not save the call, which
    ends at line 260 with the first record appended. *)
Theorem load_from_file_returns (content : string) (c : cookies) :
  ((exists c', load_from_file (Some content) c = load_done c') ->
   Forall (fun l => line_skipped l = true \/
                    (7 <= length (boost_split (trim l)))%nat)
          (getlines content)) /\
  (Forall (fun l => line_skipped l = true \/
                    ((7 <= length (boost_split (trim l)))%nat /\
                     exists s4, boost_split (trim l) !! 4%nat = Some s4 /\
                                within_dates (atol s4) = true))
          (getlines content) ->
   exists c', load_from_file (Some content) c = load_done c') /\
  load_from_file (Some late_date_file) cookies_new
  = load_bad_date (push_back (reloaded cookie_n 100000000) cookies_new).
Proof.
  split; [|split; [|reflexivity]]; simpl;
    generalize (getlines content) as lines; intros lines; revert c;
    induction lines as [|l rest IH]; intros c; simpl.
  - constructor.
  - fold (line_skipped l). intros Hdone. constructor.
    + destruct (line_skipped l) eqn:Hskip; [now left|]. right.
      destruct (decode_line (trim l)) as [cookie| |] eqn:Hd;
        [|destruct Hdone; discriminate|destruct Hdone; discriminate].
      apply (decode_line_defined (trim l)). eauto.
    + destruct (line_skipped l); [now apply (IH c)|].
      destruct (decode_line (trim l)) as [cookie| |];
        [now apply (IH (push_back cookie c))
        |destruct Hdone; discriminate|destruct Hdone; discriminate].
  - eauto.
  - fold (line_skipped l). intros Hall. apply Forall_cons in Hall as [Hl Hrest].
    destruct (line_skipped l) eqn:Hskip; [now apply IH|].
    destruct Hl as [Hl|Hl]; [discriminate|].
    apply (decode_line_defined (trim l)) in Hl as [cookie ->]. now apply IH.
Qed.

(** ** The tokenizer, continued *)

Section ParserMore.
Variable is_char : ascii -> bool.
Variable is_tspecial : ascii -> bool.
Variable parse_http_date : string -> ptime -> bool * ptime.
Variable assert_enabled : bool.

Lemma parse_cookie_string_inv (dd str : string) (cookie : list http_cookie) :
  parse_cookie_string is_char is_tspecial parse_http_date assert_enabled dd str
  = parse_true cookie ->
  exists t ct,
    flush (tokenize is_char is_tspecial str tokenizer_init) = Some t /\
    StronglySorted key_lt (tmp t) /\ Forall (fun kv => fst kv <> "") (tmp t) /\
    cookie = emit ct (List.filter (fun kv => negb (reserved_key (fst kv))) (tmp t)).
Proof.
  unfold parse_cookie_string, finish.
  destruct (flush (tokenize is_char is_tspecial str tokenizer_init))
    as [t|] eqn:Hf; [|discriminate].
  destruct (scan_attributes parse_http_date assert_enabled dd (tmp t) (cookie_tmp t))
    as [[ct kept]|] eqn:Hscan; [|discriminate].
  intros [= <-].
  destruct (flush_inv _ _ (tokenize_inv is_char is_tspecial str _ tokenizer_init_inv) Hf)
    as [Hsorted Hkeys].
  exists t, ct. rewrite (scan_attributes_kept _ _ _ _ _ _ _ Hscan). auto.
Qed.

(** X9.  No record parse_cookie_string emits is named after one of the
    attributes expires, domain and path, in whatever case they are
    written, and none has an empty name. *)
Theorem parse_names_are_not_attributes (dd str : string) (cookie : list http_cookie) :
  parse_cookie_string is_char is_tspecial parse_http_date assert_enabled dd str
  = parse_true cookie ->
  Forall (fun r => name r <> "" /\
                   to_lower_copy (name r) <> "expires" /\
                   to_lower_copy (name r) <> "domain" /\
                   to_lower_copy (name r) <> "path") cookie.
Proof.
  intros H. destruct (parse_cookie_string_inv _ _ _ H) as (t & ct & _ & _ & Hkeys & ->).
  clear H. unfold emit.
  induction Hkeys as [|kv m Hkv _ IH]; simpl; [constructor|].
  destruct (reserved_key (fst kv)) eqn:Hr; simpl; [exact IH|].
  constructor; [|exact IH]. simpl. split; [exact Hkv|].
  unfold reserved_key in Hr. apply orb_false_iff in Hr as [Hr Hpath].
  apply orb_false_iff in Hr as [Hexp Hdom].
  apply String.eqb_neq in Hexp, Hdom, Hpath. auto.
Qed.

(** X10.  The records of one call bear pairwise different names: of
    several pairs with the same name in the string only one record is
    made. *)
Theorem parse_names_are_distinct (dd str : string) (cookie : list http_cookie) :
  parse_cookie_string is_char is_tspecial parse_http_date assert_enabled dd str
  = parse_true cookie ->
  NoDup (map name cookie).
Proof.
  intros H. destruct (parse_cookie_string_inv _ _ _ H) as (t & ct & _ & Hs & _ & ->).
  clear H. apply (strongly_sorted_filter key_lt
                    (fun kv => negb (reserved_key (fst kv)))) in Hs.
  unfold emit. induction Hs as [|kv m Hs IH Hall]; simpl; constructor; [|exact IH].
  intros Hin. apply list_elem_of_In, in_map_iff in Hin as (r & Hname & Hr).
  apply in_map_iff in Hr as (kv' & <- & Hkv'). simpl in Hname.
  rewrite Forall_forall in Hall. apply list_elem_of_In, Hall in Hkv'.
  unfold key_lt in Hkv'. rewrite Hname in Hkv'.
  pose proof (String.compare_antisym (fst kv) (fst kv)) as Ha.
  rewrite Hkv' in Ha. discriminate.
Qed.

(** X11.  The records of one call agree on domain, path, expires,
    httponly and secure: the attributes of the string apply to every pair
    in it, to those written before the attribute as to those after. *)
Theorem parse_records_share_attributes (dd str : string) (cookie : list http_cookie) :
  parse_cookie_string is_char is_tspecial parse_http_date assert_enabled dd str
  = parse_true cookie ->
  forall r1 r2, In r1 cookie -> In r2 cookie ->
    shared_attributes r1 = shared_attributes r2.
Proof.
  intros H. destruct (parse_cookie_string_inv _ _ _ H) as (t & ct & _ & _ & _ & ->).
  intros r1 r2 H1 H2. unfold emit in *.
  apply in_map_iff in H1 as (kv1 & <- & _), H2 as (kv2 & <- & _). reflexivity.
Qed.

Lemma tokenize_bad (str : string) (t : tokenizer) :
  state t = cookie_bad -> tokenize is_char is_tspecial str t = t.
Proof. intros H. destruct str; simpl; [reflexivity | now rewrite H]. Qed.

Lemma tokenize_app (s1 s2 : string) (t : tokenizer) :
  tokenize is_char is_tspecial (s1 +:+ s2) t
  = tokenize is_char is_tspecial s2 (tokenize is_char is_tspecial s1 t).
Proof.
  revert t. induction s1 as [|c s1 IH]; intros t; simpl; [reflexivity|].
  destruct (parse_state_eqb (state t) cookie_bad) eqn:Hb; [|apply IH].
  symmetry. apply tokenize_bad. destruct (state t); try discriminate; reflexivity.
Qed.

Lemma fold_push_back_extend (l : list http_cookie) (c : cookies) :
  fold_left (fun acc i => push_back i acc) l c = extend c l.
Proof.
  revert c. induction l as [|x l IH]; intros c; simpl.
  - now rewrite extend_nil.
  - now rewrite IH, extend_push_back.
Qed.

(** X12.  Once the tokenizer is in the state cookie_bad nothing that
    follows in the string is looked at: parse_cookie_string returns
    false, and operator()(str) leaves the container as it was. *)
Theorem bad_prefix_rejects (s1 s2 : string) (c : cookies) :
  state (tokenize is_char is_tspecial s1 tokenizer_init) = cookie_bad ->
  parse_cookie_string is_char is_tspecial parse_http_date assert_enabled
    (m_default_domain c) (s1 +:+ s2) = parse_false /\
  insert_string is_char is_tspecial parse_http_date assert_enabled (s1 +:+ s2) c
  = Some c.
Proof.
  intros Hbad.
  assert (Hp : parse_cookie_string is_char is_tspecial parse_http_date assert_enabled
                 (m_default_domain c) (s1 +:+ s2) = parse_false).
  { unfold parse_cookie_string. rewrite tokenize_app, (tokenize_bad s2 _ Hbad).
    unfold flush. now rewrite Hbad. }
  split; [exact Hp|]. unfold insert_string. now rewrite Hp.
Qed.

(** X13.  operator()(str) only appends: when it returns, the records
    that were in the container are still there, in place, followed by
    exactly the records parse_cookie_string made of the string with the
    container's default domain, in the order of their names (none when
    the parse returned false), and the default domain is untouched. *)
Theorem insert_string_appends (str : string) (c c' : cookies) :
  insert_string is_char is_tspecial parse_http_date assert_enabled str c = Some c' ->
  exists added,
    c' = extend c added /\
    StronglySorted (fun a b => String.compare (name a) (name b) = Lt) added /\
    (parse_cookie_string is_char is_tspecial parse_http_date assert_enabled
       (m_default_domain c) str = parse_true added \/
     parse_cookie_string is_char is_tspecial parse_http_date assert_enabled
       (m_default_domain c) str = parse_false /\ added = []).
Proof.
  unfold insert_string.
  destruct (parse_cookie_string is_char is_tspecial parse_http_date assert_enabled
              (m_default_domain c) str) as [| |cookie] eqn:Hparse; [discriminate| |].
  - intros [= <-]. exists []. rewrite extend_nil.
    split; [reflexivity|]. split; [constructor | now right].
  - intros [= <-]. exists cookie. rewrite fold_push_back_extend.
    split; [reflexivity|]. split; [|now left].
    destruct (parse_cookie_string_inv _ _ _ Hparse) as (t & ct & _ & Hs & _ & ->).
    apply emit_sorted. now apply strongly_sorted_filter.
Qed.

Lemma step_cookie_tmp (t : tokenizer) (c : ascii) :
  domain (cookie_tmp (step is_char is_tspecial t c)) = domain (cookie_tmp t) /\
  path (cookie_tmp (step is_char is_tspecial t c)) = path (cookie_tmp t) /\
  expires (cookie_tmp (step is_char is_tspecial t c)) = expires (cookie_tmp t).
Proof.
  unfold step. destruct (state t).
  - destruct (Ascii.eqb c " "); [auto|]. destruct (is_char c); auto.
  - destruct (Ascii.eqb c ";").
    { destruct (String.eqb (name_buf t) "secure");
        [|destruct (String.eqb (name_buf t) "httponly")]; auto. }
    destruct (Ascii.eqb c "="); [auto|].
    destruct (is_tspecial c || Ascii.eqb c ":"); [auto|].
    destruct (is_char c || Ascii.eqb c "_"); auto.
  - destruct (Ascii.eqb c ";"); [auto|].
    destruct (Ascii.eqb c dquote || Ascii.eqb c "'"); [auto|].
    destruct (is_char c); auto.
  - destruct (Ascii.eqb c ";" || Ascii.eqb c dquote || Ascii.eqb c "'"); [auto|].
    destruct (is_char c); auto.
  - auto.
Qed.

Lemma tokenize_cookie_tmp (str : string) (t : tokenizer) :
  domain (cookie_tmp (tokenize is_char is_tspecial str t)) = domain (cookie_tmp t) /\
  path (cookie_tmp (tokenize is_char is_tspecial str t)) = path (cookie_tmp t) /\
  expires (cookie_tmp (tokenize is_char is_tspecial str t)) = expires (cookie_tmp t).
Proof.
  revert t. induction str as [|c str IH]; intros t; simpl; [auto|].
  destruct (parse_state_eqb (state t) cookie_bad); [auto|].
  destruct (IH (step is_char is_tspecial t c)) as (Hd & Hp & He).
  destruct (step_cookie_tmp t c) as (Hd' & Hp' & He').
  rewrite Hd, Hp, He. auto.
Qed.

Lemma flush_domain (t t' : tokenizer) :
  flush t = Some t' -> domain (cookie_tmp t') = domain (cookie_tmp t).
Proof.
  unfold flush.
  destruct (parse_state_eqb (state t) cookie_name && negb (empty (name_buf t))).
  { destruct (String.eqb (name_buf t) "secure");
      [|destruct (String.eqb (name_buf t) "httponly")]; now intros [= <-]. }
  destruct (parse_state_eqb (state t) cookie_value && negb (empty (value_buf t))).
  { now intros [= <-]. }
  destruct (parse_state_eqb (state t) cookie_bad); [discriminate|].
  now intros [= <-].
Qed.

Lemma scan_attributes_domain (dd : string) (entries : string_map)
    (ct ct' : http_cookie) (kept : string_map) :
  Forall (fun kv => to_lower_copy (fst kv) <> "domain") entries ->
  scan_attributes parse_http_date assert_enabled dd entries ct = Some (ct', kept) ->
  domain ct' = domain ct.
Proof.
  intros Hno. revert ct ct' kept.
  induction Hno as [|[k v] rest Hk _ IH]; intros ct ct' kept; simpl.
  - now intros [= <- _].
  - simpl in Hk. apply String.eqb_neq in Hk. rewrite Hk.
    destruct (String.eqb (to_lower_copy k) "expires").
    { destruct (parse_http_date v (expires ct)) as [ok e].
      destruct (negb ok && assert_enabled); [discriminate|].
      intros H. now rewrite (IH _ _ _ H). }
    destruct (String.eqb (to_lower_copy k) "path").
    { intros H. now rewrite (IH _ _ _ H). }
    destruct (scan_attributes parse_http_date assert_enabled dd rest ct)
      as [[ct1 kept1]|] eqn:Hrest; [|discriminate].
    intros [= <- _]. eapply IH. exact Hrest.
Qed.

(** X14.  The default domain is used only for a domain attribute that is
    given with an empty value.  When the string has no domain attribute
    at all, every record it yields has an empty domain, whatever the
    default domain of the container. *)
Theorem no_domain_attribute_no_default (dd str : string) (t : tokenizer)
    (cookie : list http_cookie) :
  flush (tokenize is_char is_tspecial str tokenizer_init) = Some t ->
  Forall (fun kv => to_lower_copy (fst kv) <> "domain") (tmp t) ->
  parse_cookie_string is_char is_tspecial parse_http_date assert_enabled dd str
  = parse_true cookie ->
  Forall (fun r => domain r = "") cookie.
Proof.
  intros Hf Hno. unfold parse_cookie_string, finish. rewrite Hf.
  destruct (scan_attributes parse_http_date assert_enabled dd (tmp t) (cookie_tmp t))
    as [[ct kept]|] eqn:Hscan; [|discriminate].
  intros [= <-].
  assert (Hd : domain ct = "").
  { rewrite (scan_attributes_domain _ _ _ _ _ Hno Hscan), (flush_domain _ _ Hf).
    now destruct (tokenize_cookie_tmp str tokenizer_init) as [-> _]. }
  unfold emit. apply Forall_forall. intros r Hr.
  apply list_elem_of_In, in_map_iff in Hr as (kv & <- & _). exact Hd.
Qed.
End ParserMore.

(** ** Merging, continued *)

Lemma find_key_none (x : http_cookie) (l : list http_cookie) :
  find_key x l = None -> ~ In (full_key x) (map full_key l).
Proof.
  induction l as [|i rest IH]; simpl; [tauto|].
  destruct (same_key i x) eqn:Hk; [discriminate|].
  intros H [Heq|Hin]; [|now apply IH].
  apply same_key_full_key in Heq. congruence.
Qed.

Lemma find_key_some (x : http_cookie) (l : list http_cookie) (r : http_cookie) :
  find_key x l = Some r -> In r l /\ full_key r = full_key x.
Proof.
  induction l as [|i rest IH]; simpl; [discriminate|].
  destruct (same_key i x) eqn:Hk.
  - intros [= <-]. apply same_key_full_key in Hk. auto.
  - intros H. destruct (IH H). auto.
Qed.

Lemma find_name_some (key : string) (l : list http_cookie) (r : http_cookie) :
  find_name key l = Some r -> In r l.
Proof.
  induction l as [|i rest IH]; simpl; [discriminate|].
  destruct (String.eqb (name i) key); [intros [= <-]; auto | auto].
Qed.

(** One step of the walk appends the candidate or leaves the result
    alone, and it can leave it alone only if the full key is there. *)
Lemma admit_step_cases (ret : cookies) (x : http_cookie) :
  admit_step ret x = Some (push_back x ret) \/
  (admit_step ret x = Some ret /\ exists r, find_key x (m_cookies ret) = Some r).
Proof.
  unfold admit_step, cookie_not_megerable, cookie_megerable.
  destruct (find_key x (m_cookies ret)) as [same|] eqn:Hk; [|now left].
  destruct (find_key_find_name _ _ _ Hk) as [it ->].
  destruct (empty (value x)); simpl; [right; eauto|].
  destruct (empty (value it)); simpl; [now left|].
  destruct (ptime_le (expires x) (expires it)); simpl; [right; eauto | now left].
Qed.

Lemma admit_step_reject (ret : cookies) (x same it : http_cookie) :
  find_key x (m_cookies ret) = Some same ->
  find_name (name x) (m_cookies ret) = Some it ->
  value it <> "" -> ptime_lt (expires it) (expires x) = false ->
  admit_step ret x = Some ret.
Proof.
  intros Hk Hit Hv Hlt.
  unfold admit_step, cookie_not_megerable, cookie_megerable. rewrite Hk, Hit.
  destruct (empty (value x)); simpl; [reflexivity|].
  apply empty_false in Hv. rewrite Hv. unfold ptime_le. now rewrite Hlt.
Qed.

(** The walk appends to the result a selection of the candidates, in
    their order. *)
Lemma remove_copy_if_into_sublist (l : list http_cookie) (ret ret' : cookies) :
  remove_copy_if_into l ret = Some ret' ->
  exists added, ret' = extend ret added /\ sublist added l.
Proof.
  revert ret. induction l as [|x l IH]; intros ret; simpl.
  - intros [= <-]. exists []. now rewrite extend_nil.
  - destruct (admit_step_cases ret x) as [Hs|[Hs _]]; rewrite Hs; simpl; intros Hwalk;
      destruct (IH _ Hwalk) as (added & -> & Hsub).
    + exists (x :: added). rewrite extend_push_back. split; [reflexivity|].
      now apply sublist_skip.
    + exists added. split; [reflexivity | now apply sublist_cons].
Qed.

Lemma sublist_In {A : Type} (k l : list A) (x : A) : sublist k l -> In x k -> In x l.
Proof.
  induction 1 as [|y k l _ IH|y k l _ IH]; simpl; [tauto| |]; intuition.
Qed.

Lemma sublist_strongly_sorted {A : Type} (R : A -> A -> Prop) (k l : list A) :
  sublist k l -> StronglySorted R l -> StronglySorted R k.
Proof.
  induction 1 as [|y k l Hsub IH|y k l Hsub IH]; intros Hs.
  - constructor.
  - apply StronglySorted_inv in Hs as [Hs Hall]. constructor; [now apply IH|].
    rewrite Forall_forall in *. intros x Hx. apply Hall.
    apply list_elem_of_In. eapply sublist_In; [exact Hsub|]. now apply list_elem_of_In.
  - apply StronglySorted_inv in Hs as [Hs _]. now apply IH.
Qed.

Lemma lookup_strongly_sorted {A : Type} (R : A -> A -> Prop) (l : list A) :
  (forall (i j : nat) (x y : A),
      (i < j)%nat -> l !! i = Some x -> l !! j = Some y -> R x y) ->
  StronglySorted R l.
Proof.
  induction l as [|a l IH]; intros H; constructor.
  - apply IH. intros i j x y Hij Hi Hj. apply (H (S i) (S j)); [lia|exact Hi|exact Hj].
  - apply Forall_forall. intros y Hy.
    apply list_elem_of_lookup in Hy as [j Hj].
    apply (H 0%nat (S j)); [lia|reflexivity|exact Hj].
Qed.

Lemma sorted_scratch_strongly (lhs rhs : cookies) (scratch : list http_cookie) :
  sorted_scratch lhs rhs scratch -> StronglySorted expires_ge scratch.
Proof.
  intros [_ Hsorted]. apply lookup_strongly_sorted.
  intros i j x y Hij Hi Hj. apply ptime_not_lt_ge. eapply Hsorted; eassumption.
Qed.

(** X15.  operator+ invents nothing: the records of the result are
    records of the operands, none taken more often than the operands hold
    it, so the result is never longer than the two operands together. *)
Theorem operator_plus_selects (lhs rhs ret : cookies) :
  operator_plus lhs rhs ret ->
  m_cookies ret ⊆+ (m_cookies lhs ++ m_cookies rhs)%list /\
  (forall r, In r (m_cookies ret) -> In r (m_cookies lhs) \/ In r (m_cookies rhs)) /\
  (length (m_cookies ret) <= length (m_cookies lhs) + length (m_cookies rhs))%nat.
Proof.
  intros (scratch & [Hperm _] & Hwalk).
  destruct (remove_copy_if_into_sublist _ _ _ Hwalk) as (added & -> & Hsub).
  assert (Hsubm : added ⊆+ (m_cookies lhs ++ m_cookies rhs)%list).
  { rewrite Hperm. now apply sublist_submseteq. }
  cbn [extend m_cookies cookies_new app]. split; [exact Hsubm|]. split.
  - intros r Hr. apply in_app_or. apply list_elem_of_In.
    eapply elem_of_submseteq; [|exact Hsubm]. now apply list_elem_of_In.
  - apply submseteq_length in Hsubm. now rewrite length_app in Hsubm.
Qed.

Lemma operator_plus_selects_witness :
  [cookie_at "y" "2" (time_at 5); cookie_at "x" "1" (time_at 5)]
    ⊆+ (m_cookies store_x ++ m_cookies store_y)%list /\
  (forall r, In r [cookie_at "y" "2" (time_at 5); cookie_at "x" "1" (time_at 5)] ->
             In r (m_cookies store_x) \/ In r (m_cookies store_y)) /\
  (length [cookie_at "y" "2" (time_at 5); cookie_at "x" "1" (time_at 5)]
   <= length (m_cookies store_x) + length (m_cookies store_y))%nat.
Proof.
  apply (operator_plus_selects store_x store_y
           {| m_cookies := [cookie_at "y" "2" (time_at 5); cookie_at "x" "1" (time_at 5)];
              m_default_domain := "" |}).
  exists [cookie_at "y" "2" (time_at 5); cookie_at "x" "1" (time_at 5)].
  split; [|reflexivity]. split.
  - apply perm_swap.
  - intros i j x y Hij Hi Hj.
    destruct i as [|[|i]], j as [|[|j]]; simpl in Hi, Hj; try lia; try discriminate.
    injection Hi as <-. injection Hj as <-. reflexivity.
Defined.

(** X16.  The result of operator+ carries no default domain: the one of
    the left operand and the one of the right operand are both dropped. *)
Theorem operator_plus_forgets_default_domain (lhs rhs ret : cookies) :
  operator_plus lhs rhs ret -> m_default_domain ret = "".
Proof.
  intros (scratch & _ & Hwalk).
  destruct (remove_copy_if_into_sublist _ _ _ Hwalk) as (added & -> & _).
  reflexivity.
Qed.

(** X17.  The records of the result of operator+ stand in the order of
    their expiry, latest first, records without expiry ahead of all
    others. *)
Theorem operator_plus_result_sorted (lhs rhs ret : cookies) :
  operator_plus lhs rhs ret ->
  forall (i j : nat) (x y : http_cookie),
    (i < j)%nat -> m_cookies ret !! i = Some x -> m_cookies ret !! j = Some y ->
    expires_ge x y.
Proof.
  intros (scratch & Hsorted & Hwalk).
  destruct (remove_copy_if_into_sublist _ _ _ Hwalk) as (added & -> & Hsub).
  cbn [extend m_cookies cookies_new app].
  apply strongly_sorted_lookup.
  eapply sublist_strongly_sorted; [exact Hsub|].
  eapply sorted_scratch_strongly. exact Hsorted.
Qed.

Lemma walk_keeps_keys (l : list http_cookie) (ret ret' : cookies) :
  remove_copy_if_into l ret = Some ret' ->
  (forall r, In r (m_cookies ret) -> In r (m_cookies ret')) /\
  (forall x, In x l ->
     exists r, In r (m_cookies ret') /\ full_key r = full_key x).
Proof.
  revert ret. induction l as [|x l IH]; intros ret; simpl.
  - intros [= <-]. split; [auto | tauto].
  - destruct (admit_step_cases ret x) as [Hs|[Hs [r Hr]]]; rewrite Hs; simpl;
      intros Hwalk; destruct (IH _ Hwalk) as [Hmono Hkeys]; split.
    + intros r Hr. apply Hmono. simpl. apply in_or_app. now left.
    + intros y [<-|Hy]; [|now apply Hkeys].
      exists x. split; [|reflexivity]. apply Hmono. simpl.
      apply in_or_app. right. now left.
    + exact Hmono.
    + intros y [<-|Hy]; [|now apply Hkeys].
      apply find_key_some in Hr as [Hin Hkey]. exists r. split; [now apply Hmono | exact Hkey].
Qed.

(** X18.  operator+ loses no cookie slot: for every record of either
    operand the result holds a record with the same name, domain and
    path. *)
Theorem operator_plus_keeps_keys (lhs rhs ret : cookies) :
  operator_plus lhs rhs ret ->
  forall x, In x (m_cookies lhs) \/ In x (m_cookies rhs) ->
    exists r, In r (m_cookies ret) /\ full_key r = full_key x.
Proof.
  intros (scratch & [Hperm _] & Hwalk) x Hx.
  destruct (walk_keeps_keys _ _ _ Hwalk) as [_ Hkeys]. apply Hkeys.
  apply list_elem_of_In. rewrite <- Hperm. apply list_elem_of_In.
  now apply in_or_app.
Qed.

Lemma walk_distinct (l : list http_cookie) (ret ret' : cookies) :
  remove_copy_if_into l ret = Some ret' ->
  StronglySorted expires_ge l ->
  Forall (fun r => value r <> "") l ->
  Forall (fun r => value r <> "") (m_cookies ret) ->
  Forall (fun r => Forall (expires_ge r) l) (m_cookies ret) ->
  NoDup (map full_key (m_cookies ret)) ->
  NoDup (map full_key (m_cookies ret')).
Proof.
  revert ret. induction l as [|x l IH]; intros ret; simpl.
  - now intros [= <-].
  - intros Hwalk Hsorted Hl Hval Hge Hnodup.
    apply StronglySorted_inv in Hsorted as [Hsorted Hx].
    apply Forall_cons in Hl as [Hxv Hl].
    assert (Hge' : Forall (fun r => Forall (expires_ge r) l) (m_cookies ret)).
    { eapply Forall_impl; [exact Hge|]. intros r Hr. now apply Forall_cons in Hr as [_ Hr]. }
    destruct (find_key x (m_cookies ret)) as [same|] eqn:Hk.
    + destruct (find_key_find_name _ _ _ Hk) as [it Hit].
      assert (Hin : In it (m_cookies ret)) by (eapply find_name_some; exact Hit).
      assert (Hreject : admit_step ret x = Some ret).
      { eapply admit_step_reject; [exact Hk | exact Hit | |].
        - rewrite Forall_forall in Hval. apply Hval. now apply list_elem_of_In.
        - rewrite Forall_forall in Hge. apply list_elem_of_In, Hge in Hin.
          apply Forall_cons in Hin as [Hin _].
          apply ptime_not_lt_ge in Hin. exact Hin. }
      rewrite Hreject in Hwalk. simpl in Hwalk.
      eapply IH; eassumption.
    + destruct (admit_step_cases ret x) as [Hs|[_ [r Hr]]]; [|congruence].
      rewrite Hs in Hwalk. simpl in Hwalk.
      eapply IH; [exact Hwalk | exact Hsorted | exact Hl | | |]; simpl.
      * apply Forall_app. split; [exact Hval | now constructor].
      * apply Forall_app. split; [exact Hge' | now constructor].
      * rewrite map_app. apply NoDup_app. split; [exact Hnodup|]. split.
        -- intros k Hin [Heq|[]]%list_elem_of_In. simpl in Heq. subst k.
           apply find_key_none in Hk. apply Hk. now apply list_elem_of_In.
        -- simpl. apply NoDup_singleton.
Qed.

(** X19.  When no record of the operands has an empty value, the result
    of operator+ holds no two records with the same name, domain and
    path: of the records of one slot only one is kept. *)
Theorem operator_plus_distinct_keys (lhs rhs ret : cookies) :
  operator_plus lhs rhs ret ->
  Forall (fun r => value r <> "") (m_cookies lhs) ->
  Forall (fun r => value r <> "") (m_cookies rhs) ->
  NoDup (map full_key (m_cookies ret)).
Proof.
  intros (scratch & Hsorted & Hwalk) Hl Hr.
  eapply walk_distinct; [exact Hwalk | | | | |]; simpl.
  - eapply sorted_scratch_strongly. exact Hsorted.
  - destruct Hsorted as [Hperm _]. rewrite <- Hperm. apply Forall_app. now split.
  - constructor.
  - constructor.
  - apply NoDup_nil_2.
Qed.

Lemma operator_plus_distinct_keys_witness :
  NoDup (map full_key [cookie_at "y" "2" (time_at 5); cookie_at "x" "1" (time_at 5)]).
Proof.
  apply (operator_plus_distinct_keys store_x store_y
           {| m_cookies := [cookie_at "y" "2" (time_at 5); cookie_at "x" "1" (time_at 5)];
              m_default_domain := "" |}).
  - exists [cookie_at "y" "2" (time_at 5); cookie_at "x" "1" (time_at 5)].
    split; [|reflexivity]. split.
    + apply perm_swap.
    + intros i j x y Hij Hi Hj.
      destruct i as [|[|i]], j as [|[|j]]; simpl in Hi, Hj; try lia; try discriminate.
      injection Hi as <-. injection Hj as <-. reflexivity.
  - repeat constructor; discriminate.
  - repeat constructor; discriminate.
Defined.

(** X20.  Of two records with the same name, domain and path, both with
    a value, operator+ keeps the one that expires later and only that
    one, whichever operand it comes from. *)
Theorem operator_plus_keeps_later (a b : http_cookie) (ret : cookies) :
  full_key a = full_key b -> value a <> "" -> value b <> "" ->
  ptime_lt (expires b) (expires a) = true ->
  operator_plus (store_of a) (store_of b) ret \/
  operator_plus (store_of b) (store_of a) ret ->
  m_cookies ret = [a].
Proof.
  intros Hkey Ha Hb Hlt Hplus.
  assert (Hwalk : remove_copy_if_into [a; b] cookies_new
                  = Some {| m_cookies := [a]; m_default_domain := "" |}).
  { assert (H1 : admit_step cookies_new a = Some (push_back a cookies_new))
      by reflexivity.
    assert (H2 : admit_step (push_back a cookies_new) b = Some (push_back a cookies_new)).
    { apply (admit_step_reject _ b a a); simpl.
      - replace (same_key a b) with true; [reflexivity|].
        symmetry. now apply same_key_full_key.
      - injection Hkey as Hname _ _. now rewrite Hname, String.eqb_refl.
      - exact Ha.
      - destruct (expires a) as [|ta], (expires b) as [|tb]; simpl in *; try congruence.
        apply Z.ltb_lt in Hlt. apply Z.ltb_ge. lia. }
    cbn [remove_copy_if_into]. rewrite H1. cbn [mbind option_bind].
    rewrite H2. reflexivity. }
  assert (Hscratch : forall lhs rhs scratch,
             (m_cookies lhs ++ m_cookies rhs)%list ≡ₚ [a; b] ->
             sorted_scratch lhs rhs scratch -> scratch = [a; b]).
  { intros lhs rhs scratch Hab [Hperm Hsorted]. rewrite Hab in Hperm.
    pose proof (Permutation_length Hperm) as Hlen.
    destruct scratch as [|x [|y [|z scratch]]]; try discriminate Hlen.
    apply Permutation_length_2 in Hperm as [[<- <-]|[<- <-]]; [reflexivity|].
    specialize (Hsorted 0%nat 1%nat b a ltac:(lia) eq_refl eq_refl).
    unfold compare_by_expires, ptime_greater in Hsorted. congruence. }
  destruct Hplus as [(scratch & Hsorted & Hw)|(scratch & Hsorted & Hw)].
  - rewrite (Hscratch (store_of a) (store_of b) scratch
               (Permutation_refl _) Hsorted) in Hw.
    rewrite Hwalk in Hw. now injection Hw as <-.
  - rewrite (Hscratch (store_of b) (store_of a) scratch
               (perm_swap a b []) Hsorted) in Hw.
    rewrite Hwalk in Hw. now injection Hw as <-.
Qed.

(** X21.  cookie_megerable never dereferences end(): where it looks at
    the record found by name, a record with the full key exists and so
    one with the name does.  Hence operator+ returns a container for
    every pair of operands. *)
Theorem operator_plus_always_returns :
  (forall element container, cookie_megerable element container <> None) /\
  (forall lhs rhs, exists ret, operator_plus lhs rhs ret).
Proof.
  split.
  - intros element container. destruct (cookie_megerable_defined element container)
      as [b ->]. discriminate.
  - intros lhs rhs.
    destruct (remove_copy_if_into_defined
                (stable_sort_by_expires (m_cookies lhs ++ m_cookies rhs)) cookies_new)
      as [ret Hret].
    exists ret, (stable_sort_by_expires (m_cookies lhs ++ m_cookies rhs)).
    split; [apply stable_sort_admissible | exact Hret].
Qed.

(** X28.  With the std::sort of the GNU library operator+ returns for
    every pair of operands: the scans of the partition and of the final
    insertion sort, which do not check the bounds of the vector, stay
    inside it, because the comparison by expires is a strict weak
    ordering.  What it returns is one of the results the standard
    allows, with the records of the scratch container in an order in
    which none expires later than one ahead of it. *)
Theorem operator_plus_gnu_returns (lhs rhs : cookies) :
  exists scratch ret,
    std_sort (compare_by_expires ptime_greater) (m_cookies lhs ++ m_cookies rhs)
    = Some scratch /\
    StronglySorted expires_ge scratch /\
    operator_plus_gnu lhs rhs = Some ret /\
    operator_plus lhs rhs ret.
Proof.
  destruct (std_sort_sorted_scratch lhs rhs) as (scratch & Hsort & Hscratch).
  destruct (remove_copy_if_into_defined scratch cookies_new) as [ret Hret].
  assert (Hgnu : operator_plus_gnu lhs rhs = Some ret).
  { unfold operator_plus_gnu. rewrite Hsort. exact Hret. }
  exists scratch, ret. split; [exact Hsort|]. split.
  - apply lookup_strongly_sorted_expires. exact (proj2 Hscratch).
  - split; [exact Hgnu|]. exists scratch. split; assumption.
Qed.

(** ** The Cookie header line *)

Lemma cookie_line_step_attached (is_https : bool) (now : ptime) (cookie : string)
    (i : http_cookie) :
  cookie_line_step is_https now cookie i
  = if attached is_https now i
    then (if empty cookie then cookie else cookie +:+ "; ") +:+ cookie_pair i
    else cookie.
Proof.
  unfold cookie_line_step, attached, cookie_pair.
  destruct (empty (value i)); simpl; [reflexivity|].
  destruct (secure i), is_https; simpl; try reflexivity;
    destruct (is_not_a_date_time (expires i)); simpl;
    try destruct (ptime_lt (expires i) now); simpl;
    destruct (empty cookie); reflexivity.
Qed.

Lemma string_app_nonempty (a b : string) : b <> "" -> a +:+ b <> "".
Proof. destruct a; simpl; [auto | discriminate]. Qed.

Lemma cookie_pair_nonempty (i : http_cookie) : cookie_pair i <> "".
Proof. unfold cookie_pair. apply string_app_nonempty. discriminate. Qed.

Lemma cookie_line_loop_nonempty (is_https : bool) (clock : nat -> ptime)
    (l : list http_cookie) :
  forall (turn : nat) (cookie : string), cookie <> "" ->
    cookie_line_loop is_https clock turn l cookie
    = cookie +:+ prefixed (map cookie_pair (attached_records is_https clock turn l)).
Proof.
  induction l as [|i rest IH]; intros turn cookie Hne; simpl.
  - now rewrite string_app_nil_r.
  - rewrite cookie_line_step_attached.
    destruct (attached is_https (clock turn) i); [|now apply IH].
    apply empty_false in Hne. rewrite Hne. rewrite IH.
    + simpl. now rewrite !string_app_assoc.
    + apply string_app_nonempty, cookie_pair_nonempty.
Qed.

(** X22.  The line get_cookie_line builds from the merged records is the
    name=value pairs of the records that have a value, are not secure
    unless the connection is https, and are not expired at the time
    their turn comes, in the order of the merged container, with "; "
    between two pairs and nothing before the first or after the last. *)
Theorem cookie_line_loop_joins (is_https : bool) (clock : nat -> ptime)
    (l : list http_cookie) :
  cookie_line_loop is_https clock 0 l ""
  = join_pairs (map cookie_pair (attached_records is_https clock 0 l)).
Proof.
  generalize 0%nat as turn. induction l as [|i rest IH]; intros turn; simpl.
  - reflexivity.
  - rewrite cookie_line_step_attached.
    destruct (attached is_https (clock turn) i); [|apply IH].
    simpl. apply cookie_line_loop_nonempty, cookie_pair_nonempty.
Qed.

Lemma operator_plus_single (c tmp : cookies) (r : http_cookie) :
  m_cookies c = [r] ->
  operator_plus cookies_new c tmp <-> tmp = store_of r.
Proof.
  intros Hc. split.
  - intros (scratch & [Hperm _] & Hwalk). rewrite Hc in Hperm. simpl in Hperm.
    apply Permutation_singleton_l in Hperm. subst scratch.
    simpl in Hwalk. now injection Hwalk as <-.
  - intros ->. exists [r]. split; [|reflexivity]. split.
    + rewrite Hc. reflexivity.
    + intros i j x y Hij Hi Hj. destruct i, j; simpl in Hi, Hj; try lia; discriminate.
Qed.

Lemma get_cookie_line_of_single (clock : nat -> ptime) (is_https : bool)
    (c : cookies) (r : http_cookie) (cookie : string) :
  m_cookies c = [r] ->
  get_cookie_line clock is_https c cookie
  <-> cookie = cookie_line_step is_https (clock 0%nat) "" r.
Proof.
  intros Hc. unfold get_cookie_line, size. rewrite Hc. simpl. split.
  - intros (tmp & Hplus & ->). apply (operator_plus_single c tmp r Hc) in Hplus.
    now subst tmp.
  - intros ->. exists (store_of r). split; [|reflexivity].
    exact (proj2 (operator_plus_single c (store_of r) r Hc) eq_refl).
Qed.

(** X23.  For a container of one record get_cookie_line returns
    name=value if the record has a value, is not secure or the connection
    is https, and has no expiry or one that is not before the current
    time; otherwise it returns the empty string.  It returns nothing
    else. *)
Theorem get_cookie_line_single (clock : nat -> ptime) (is_https : bool)
    (c : cookies) (r : http_cookie) :
  m_cookies c = [r] ->
  forall cookie,
    get_cookie_line clock is_https c cookie
    <-> cookie = if attached is_https (clock 0%nat) r
                 then name r +:+ "=" +:+ value r else "".
Proof.
  intros Hc cookie. rewrite (get_cookie_line_of_single clock is_https c r cookie Hc).
  rewrite cookie_line_step_attached.
  destruct (attached is_https (clock 0%nat) r); reflexivity.
Qed.

Lemma cookie_line_loop_none (is_https : bool) (clock : nat -> ptime)
    (l : list http_cookie) :
  (forall r turn, In r l -> attached is_https (clock turn) r = false) ->
  forall turn cookie, cookie_line_loop is_https clock turn l cookie = cookie.
Proof.
  induction l as [|i rest IH]; intros Hnone turn cookie; simpl; [reflexivity|].
  rewrite cookie_line_step_attached, (Hnone i turn) by now left.
  apply IH. intros r t Hr. apply Hnone. now right.
Qed.

(** X24.  When no record of the container can go into the line (each of
    them has an empty value, or is secure while the connection is not
    https, or is expired at every reading of the clock), get_cookie_line
    returns the empty string. *)
Theorem get_cookie_line_nothing_attached (clock : nat -> ptime) (is_https : bool)
    (c : cookies) (cookie : string) :
  (forall r turn, In r (m_cookies c) -> attached is_https (clock turn) r = false) ->
  get_cookie_line clock is_https c cookie ->
  cookie = "".
Proof.
  intros Hnone. unfold get_cookie_line.
  destruct (size c =? 0)%nat; [auto|].
  intros (tmp & (scratch & [Hperm _] & Hwalk) & ->).
  destruct (remove_copy_if_into_sublist _ _ _ Hwalk) as (added & -> & Hsub).
  apply cookie_line_loop_none. intros r turn Hr. apply Hnone.
  simpl in Hr. eapply sublist_In in Hr; [|exact Hsub].
  apply list_elem_of_In. apply list_elem_of_In in Hr.
  rewrite <- Hperm in Hr. exact Hr.
Qed.

(** get_cookie_line returns a line for every container, every clock and
    both kinds of connection. *)
Lemma get_cookie_line_returns (clock : nat -> ptime) (is_https : bool) (c : cookies) :
  exists cookie, get_cookie_line clock is_https c cookie.
Proof.
  unfold get_cookie_line. destruct (size c =? 0)%nat; [eauto|].
  destruct (remove_copy_if_into_defined
              (stable_sort_by_expires (m_cookies cookies_new ++ m_cookies c)) cookies_new)
    as [tmp Htmp].
  eexists. exists tmp. split; [|reflexivity].
  exists (stable_sort_by_expires (m_cookies cookies_new ++ m_cookies c)).
  split; [apply stable_sort_admissible | exact Htmp].
Qed.

(** ** Insertion and lookup *)

Lemma find_name_app (key : string) (l k : list http_cookie) :
  find_name key (l ++ k)%list
  = match find_name key l with Some r => Some r | None => find_name key k end.
Proof.
  induction l as [|i rest IH]; simpl; [reflexivity|].
  destruct (String.eqb (name i) key); [reflexivity | exact IH].
Qed.

(** X25.  After c(cookie), find(name) returns what it returned before
    for every name the container already held, the name of the new
    record included; the new record is found only under a name that was
    not there. *)
Theorem find_name_after_insert (key : string) (r : http_cookie) (c : cookies) :
  find_name key (m_cookies (insert_cookie r c))
  = match find_name key (m_cookies c) with
    | Some x => Some x
    | None => if String.eqb (name r) key then Some r else None
    end.
Proof.
  unfold insert_cookie, push_back. cbn [m_cookies]. rewrite find_name_app.
  destruct (find_name key (m_cookies c)); reflexivity.
Qed.

(** ** Characters of the emitted records *)

Lemma map_assign_Forall_pair (P : string * string -> Prop) (k v : string)
    (m : string_map) :
  P (k, v) -> Forall P m -> Forall P (map_assign k v m).
Proof.
  intros Hkv. induction 1 as [|[k' v'] m Hhd Htl IH]; simpl.
  - constructor; [exact Hkv | constructor].
  - destruct (String.compare k k') eqn:Hc.
    + apply String.compare_eq_iff in Hc. subst k'. now constructor.
    + constructor; [exact Hkv|]. now constructor.
    + now constructor.
Qed.

Lemma all_chars_push_back (p : ascii -> bool) (s : string) (c : ascii) :
  all_chars p s = true -> p c = true -> all_chars p (string_push_back s c) = true.
Proof.
  intros Hs Hc. unfold string_push_back. rewrite all_chars_app, Hs. simpl.
  now rewrite Hc.
Qed.

Section ParserChars.
Variable is_char : ascii -> bool.
Variable is_tspecial : ascii -> bool.
Variable parse_http_date : string -> ptime -> bool * ptime.
Variable assert_enabled : bool.

Lemma is_char_name_char (c : ascii) : is_char c = true -> name_char is_char c = true.
Proof. unfold name_char. now intros ->. Qed.

Lemma store_pair_chars (t : tokenizer) : chars_inv is_char t -> chars_inv is_char (store_pair t).
Proof.
  intros [Hn Hv Ht]. split; simpl; try reflexivity.
  apply map_assign_Forall_pair; [now split | exact Ht].
Qed.

Lemma step_chars (t : tokenizer) (c : ascii) :
  chars_inv is_char t -> chars_inv is_char (step is_char is_tspecial t c).
Proof.
  intros Hinv. pose proof Hinv as [Hn Hv Ht]. unfold step. destruct (state t).
  - destruct (Ascii.eqb c " "); [assumption|].
    destruct (is_char c) eqn:Hc; split; simpl; try assumption.
    apply all_chars_push_back; [assumption | now apply is_char_name_char].
  - destruct (Ascii.eqb c ";").
    { destruct (String.eqb (name_buf t) "secure");
        [|destruct (String.eqb (name_buf t) "httponly")];
        split; simpl; try assumption; reflexivity. }
    destruct (Ascii.eqb c "="); [split; simpl; try assumption; reflexivity|].
    destruct (is_tspecial c || Ascii.eqb c ":");
      [split; simpl; try assumption; reflexivity|].
    destruct (is_char c || Ascii.eqb c "_") eqn:Hc; [|assumption].
    split; simpl; try assumption. now apply all_chars_push_back.
  - destruct (Ascii.eqb c ";") eqn:H1; [now apply store_pair_chars|].
    destruct (Ascii.eqb c dquote) eqn:H2; simpl; [assumption|].
    destruct (Ascii.eqb c "'") eqn:H3; simpl; [assumption|].
    destruct (is_char c) eqn:Hc; split; simpl; try assumption.
    apply all_chars_push_back; [assumption|].
    unfold value_char. now rewrite Hc, H1, H2, H3.
  - destruct (Ascii.eqb c ";") eqn:H1; simpl; [now apply store_pair_chars|].
    destruct (Ascii.eqb c dquote) eqn:H2; simpl; [now apply store_pair_chars|].
    destruct (Ascii.eqb c "'") eqn:H3; simpl; [now apply store_pair_chars|].
    destruct (is_char c) eqn:Hc; split; simpl; try assumption.
    apply all_chars_push_back; [assumption|].
    unfold value_char. now rewrite Hc, H1, H2, H3.
  - assumption.
Qed.

Lemma tokenize_chars (str : string) (t : tokenizer) :
  chars_inv is_char t -> chars_inv is_char (tokenize is_char is_tspecial str t).
Proof.
  revert t. induction str as [|c str IH]; intros t Hinv; simpl; [assumption|].
  destruct (parse_state_eqb (state t) cookie_bad); [assumption|].
  apply IH. now apply step_chars.
Qed.

Lemma flush_chars (t t' : tokenizer) :
  chars_inv is_char t -> flush t = Some t' -> Forall (pair_chars is_char) (tmp t').
Proof.
  intros [Hn Hv Ht]. unfold flush.
  destruct (parse_state_eqb (state t) cookie_name && negb (empty (name_buf t))).
  { destruct (String.eqb (name_buf t) "secure");
      [|destruct (String.eqb (name_buf t) "httponly")]; now intros [= <-]. }
  destruct (parse_state_eqb (state t) cookie_value && negb (empty (value_buf t))).
  { intros [= <-]. simpl. apply map_assign_Forall_pair; [now split | exact Ht]. }
  destruct (parse_state_eqb (state t) cookie_bad); [discriminate|].
  now intros [= <-].
Qed.

(** X26.  Every character of the name of an emitted record is one that
    detail::is_char accepts, or '_'; every character of its value is one
    that detail::is_char accepts and is neither ';' nor a quote. *)
Theorem parse_emits_clean_characters (dd str : string) (cookie : list http_cookie) :
  parse_cookie_string is_char is_tspecial parse_http_date assert_enabled dd str
  = parse_true cookie ->
  Forall (fun r => all_chars (name_char is_char) (name r) = true /\
                   all_chars (value_char is_char) (value r) = true) cookie.
Proof.
  unfold parse_cookie_string, finish.
  destruct (flush (tokenize is_char is_tspecial str tokenizer_init))
    as [t|] eqn:Hf; [|discriminate].
  destruct (scan_attributes parse_http_date assert_enabled dd (tmp t) (cookie_tmp t))
    as [[ct kept]|] eqn:Hscan; [|discriminate].
  intros [= <-].
  assert (Hinit : chars_inv is_char tokenizer_init) by (split; simpl; constructor).
  pose proof (flush_chars _ _ (tokenize_chars str _ Hinit) Hf) as Htmp.
  rewrite (scan_attributes_kept _ _ _ _ _ _ _ Hscan).
  unfold emit. clear Hscan Hf.
  induction Htmp as [|kv m Hkv _ IH]; simpl; [constructor|].
  destruct (negb (reserved_key (fst kv))); [|exact IH].
  simpl. constructor; [exact Hkv | exact IH].
Qed.
End ParserChars.

Lemma parse_emits_clean_characters_witness :
  Forall (fun r => all_chars (name_char is_char_7bit) (name r) = true /\
                   all_chars (value_char is_char_7bit) (value r) = true)
    [cookie_a; cookie_b].
Proof.
  apply (parse_emits_clean_characters is_char_7bit is_tspecial_http
           parse_http_date_reject false "" "b=2; a=1").
  reflexivity.
Defined.

(** ** Removal of an absent name *)

(** X27.  remove_cookie leaves the container exactly as it is when no
    record bears the name. *)
Theorem remove_cookie_absent (assigned_from : http_cookie -> http_cookie)
    (n : string) (c : cookies) :
  find_name n (m_cookies c) = None ->
  remove_cookie assigned_from n c = c.
Proof.
  intros Hnone. unfold remove_cookie, remove_if.
  assert (Hf : find_if (http_cookie_is_same_name n) (m_cookies c) = None).
  { induction (m_cookies c) as [|r l IH]; simpl in *; [reflexivity|].
    unfold http_cookie_is_same_name at 1.
    destruct (String.eqb (name r) n); [discriminate|]. now rewrite IH. }
  rewrite Hf. destruct c; reflexivity.
Qed.

Lemma remove_cookie_absent_witness : remove_cookie id "b" store_a = store_a.
Proof. apply (remove_cookie_absent id "b" store_a). reflexivity. Defined.

(** ** The properties above on concrete inputs *)

(** Two records that expire at the same time: std::sort of the GNU
    library leaves them as they stand. *)
Lemma operator_plus_gnu_x_y :
  operator_plus_gnu store_x store_y
  = Some {| m_cookies := [cookie_at "x" "1" (time_at 5); cookie_at "y" "2" (time_at 5)];
            m_default_domain := "" |}.
Proof. vm_compute. reflexivity. Qed.

(** The other order is one the standard allows as well. *)
Lemma operator_plus_x_y :
  operator_plus store_x store_y
    {| m_cookies := [cookie_at "y" "2" (time_at 5); cookie_at "x" "1" (time_at 5)];
       m_default_domain := "" |}.
Proof.
  exists [cookie_at "y" "2" (time_at 5); cookie_at "x" "1" (time_at 5)].
  split; [|reflexivity]. split.
  - apply perm_swap.
  - intros i j x y Hij Hi Hj.
    destruct i as [|[|i]], j as [|[|j]]; simpl in Hi, Hj; try lia; try discriminate.
    injection Hi as <-. injection Hj as <-. reflexivity.
Qed.

Lemma operator_plus_forgets_default_domain_witness :
  m_default_domain
    {| m_cookies := [cookie_at "y" "2" (time_at 5); cookie_at "x" "1" (time_at 5)];
       m_default_domain := "" |} = "".
Proof.
  apply (operator_plus_forgets_default_domain store_x store_y). exact operator_plus_x_y.
Defined.

Lemma operator_plus_result_sorted_witness :
  expires_ge (cookie_at "y" "2" (time_at 5)) (cookie_at "x" "1" (time_at 5)).
Proof.
  apply (operator_plus_result_sorted store_x store_y
           {| m_cookies := [cookie_at "y" "2" (time_at 5); cookie_at "x" "1" (time_at 5)];
              m_default_domain := "" |} operator_plus_x_y 0%nat 1%nat);
    [lia | reflexivity | reflexivity].
Defined.

Lemma operator_plus_keeps_keys_witness :
  exists r,
    In r [cookie_at "y" "2" (time_at 5); cookie_at "x" "1" (time_at 5)] /\
    full_key r = full_key (cookie_at "x" "1" (time_at 5)).
Proof.
  apply (operator_plus_keeps_keys store_x store_y
           {| m_cookies := [cookie_at "y" "2" (time_at 5); cookie_at "x" "1" (time_at 5)];
              m_default_domain := "" |} operator_plus_x_y).
  left. simpl. now left.
Defined.

Lemma operator_plus_keeps_later_witness :
  m_cookies {| m_cookies := [cookie_at "x" "3" (time_at 9)]; m_default_domain := "" |}
  = [cookie_at "x" "3" (time_at 9)].
Proof.
  apply (operator_plus_keeps_later (cookie_at "x" "3" (time_at 9))
           (cookie_at "x" "1" (time_at 5)));
    [reflexivity | discriminate | discriminate | reflexivity |].
  right. exists [cookie_at "x" "3" (time_at 9); cookie_at "x" "1" (time_at 5)].
  split; [|reflexivity]. split.
  - apply perm_swap.
  - intros i j x y Hij Hi Hj.
    destruct i as [|[|i]], j as [|[|j]]; simpl in Hi, Hj; try lia; try discriminate.
    injection Hi as <-. injection Hj as <-. reflexivity.
Defined.

Lemma parse_names_are_not_attributes_witness :
  Forall (fun r => name r <> "" /\
                   to_lower_copy (name r) <> "expires" /\
                   to_lower_copy (name r) <> "domain" /\
                   to_lower_copy (name r) <> "path") [cookie_a; cookie_b].
Proof.
  apply (parse_names_are_not_attributes is_char_7bit is_tspecial_http
           parse_http_date_reject false "" "b=2; a=1").
  reflexivity.
Defined.

Lemma parse_names_are_distinct_witness : NoDup (map name [cookie_a; cookie_b]).
Proof.
  apply (parse_names_are_distinct is_char_7bit is_tspecial_http
           parse_http_date_reject false "" "b=2; a=1").
  reflexivity.
Defined.

Lemma parse_records_share_attributes_witness :
  shared_attributes cookie_a = shared_attributes cookie_b.
Proof.
  apply (parse_records_share_attributes is_char_7bit is_tspecial_http
           parse_http_date_reject false "" "b=2; a=1" [cookie_a; cookie_b]).
  - reflexivity.
  - simpl. now left.
  - simpl. right. now left.
Defined.

Lemma bad_prefix_rejects_witness :
  parse_cookie_string is_char_7bit is_tspecial_http parse_http_date_reject false
    (m_default_domain store_a) ("a;" +:+ " b=1") = parse_false /\
  insert_string is_char_7bit is_tspecial_http parse_http_date_reject false
    ("a;" +:+ " b=1") store_a = Some store_a.
Proof.
  apply (bad_prefix_rejects is_char_7bit is_tspecial_http parse_http_date_reject
           false "a;" " b=1" store_a).
  reflexivity.
Defined.

Lemma insert_string_appends_witness :
  exists added,
    {| m_cookies := [cookie_a; cookie_b]; m_default_domain := "" |}
    = extend store_a added /\
    StronglySorted (fun a b => String.compare (name a) (name b) = Lt) added /\
    (parse_cookie_string is_char_7bit is_tspecial_http parse_http_date_reject false
       (m_default_domain store_a) "b=2" = parse_true added \/
     parse_cookie_string is_char_7bit is_tspecial_http parse_http_date_reject false
       (m_default_domain store_a) "b=2" = parse_false /\ added = []).
Proof.
  apply (insert_string_appends is_char_7bit is_tspecial_http parse_http_date_reject
           false "b=2" store_a).
  reflexivity.
Defined.

Lemma no_domain_attribute_no_default_witness :
  Forall (fun r => domain r = "") [cookie_a; cookie_b].
Proof.
  apply (no_domain_attribute_no_default is_char_7bit is_tspecial_http
           parse_http_date_reject false "example.org" "b=2; a=1" _ [cookie_a; cookie_b]
           eq_refl).
  - repeat constructor; discriminate.
  - reflexivity.
Defined.

Lemma get_cookie_line_single_witness :
  get_cookie_line epoch_clock false store_a "a=1".
Proof.
  apply (get_cookie_line_single epoch_clock false store_a cookie_a eq_refl "a=1").
  reflexivity.
Defined.

Lemma get_cookie_line_nothing_attached_witness :
  get_cookie_line epoch_clock false store_secure "" /\ "" = "".
Proof.
  assert (H : get_cookie_line epoch_clock false store_secure "").
  { apply (get_cookie_line_of_single epoch_clock false store_secure cookie_secure "");
      reflexivity. }
  split; [exact H|].
  apply (get_cookie_line_nothing_attached epoch_clock false store_secure ""); [|exact H].
  intros r turn [<-|[]]. reflexivity.
Defined.
